(** * rammerhead-proxy: session engine, header transform engine and proxy
    front end, embedded from [src/server/session-engine.ts],
    [src/server/proxy-advanced.ts] and [src/server/proxy.ts].

    Conventions of the embedding.
    - A [Date] is its epoch value in milliseconds, a [Z]; every
      [new Date()] / [Date.now()] of the source is a separate clock reading
      handed to the function as an argument.
    - [Math.floor(Math.random() * n)] is a draw [d : nat] used as
      [d mod n]: both range over exactly [0 .. n-1].
    - A string is a sequence of UTF-16 code units below 256, one [ascii]
      each: the ISO-8859-1 range, which is what Node decodes header bytes
      into and covers every literal of the source.
    - A JS [Map] is an association list in insertion order with one entry
      per key ([JsMap]). A plain object used as a dictionary is the list of
      its own properties, read and written through [prop_read] and
      [prop_write], which account for what it inherits from
      [Object.prototype]; the engine's numeric-key reordering of plain
      objects is not modelled.
    - Objects that the source shares by reference and copies with a spread
      (the header maps) live in a heap of locations ([Heap]). *)

From Stdlib Require Import ZArith QArith String Ascii List.
From Stdlib.Strings Require Import Byte.
From stdpp Require Import gmap strings list fin_maps.

Local Open Scope string_scope.
Local Open Scope Z_scope.
Local Open Scope list_scope.
Local Open Scope stdpp_scope.

(* ===================================================================== *)
(** ** JavaScript values used by the three files *)
(* ===================================================================== *)

(** A JS [number]: a finite value (a rational here), an infinity or NaN.
    The source only ever tests numbers for truthiness and length-compares
    integers, so no arithmetic on [number] is needed. *)
Inductive number : Type :=
| NaN
| Infinity (negative : bool)
| Num (q : Q).

(** ToBoolean on a number: false for [0], [-0] and [NaN]. *)
Definition truthy_num (n : number) : bool :=
  match n with
  | NaN => false
  | Infinity _ => true
  | Num q => negb (Qnum q =? 0)
  end.

(** ToBoolean on a string: false for the empty string only. *)
Definition truthy_str (s : string) : bool :=
  match s with
  | EmptyString => false
  | String _ _ => true
  end.

(** [o || d] where [o] is an optional string property. *)
Definition or_str (o : option string) (d : string) : string :=
  match o with
  | Some s => if truthy_str s then s else d
  | None => d
  end.

(** [o || d] where [o] is an optional number property. *)
Definition or_num (o : option number) (d : number) : number :=
  match o with
  | Some n => if truthy_num n then n else d
  | None => d
  end.

(** [o ?? d]: only [undefined] (and [null]) fall through to [d]. *)
Definition nullish {A : Type} (o : option A) (d : A) : A :=
  match o with
  | Some a => a
  | None => d
  end.

(** [arr[Math.floor(Math.random() * arr.length)]] for a non-empty array
    literal whose first element is [d0]. *)
Definition pick {A : Type} (arr : list A) (draw : nat) (d0 : A) : A :=
  nth (draw mod length arr)%nat arr d0.

(** [s.charAt(i)]: the one-character string at [i], or [""] out of range. *)
Definition charAt (i : nat) (s : string) : string :=
  match String.get i s with
  | Some c => String c ""
  | None => ""
  end.

(** [arr.slice(-n)] for [n > 0]: the last [n] elements (all of them when
    the array is shorter). *)
Definition slice_last {A : Type} (n : nat) (arr : list A) : list A :=
  drop (length arr - n)%nat arr.

(** [arr.reduce(f)] without an initial value: the first element seeds the
    accumulator; an empty array raises a TypeError ([None]). *)
Definition reduce {A : Type} (f : A -> A -> A) (arr : list A) : option A :=
  match arr with
  | [] => None
  | x :: xs => Some (fold_left f xs x)
  end.

(* ===================================================================== *)
(** ** Insertion-ordered dictionaries (JS [Map], plain objects) *)
(* ===================================================================== *)

Module JsMap.
Section ops.
Context {V : Type}.

Fixpoint get (k : string) (m : list (string * V)) : option V :=
  match m with
  | [] => None
  | (k', v) :: m' => if String.eqb k' k then Some v else get k m'
  end.

(** [m.set(k, v)] / [o[k] = v]: an existing key keeps its position. *)
Fixpoint set (k : string) (v : V) (m : list (string * V)) : list (string * V) :=
  match m with
  | [] => [(k, v)]
  | (k', v') :: m' =>
      if String.eqb k' k then (k, v) :: m' else (k', v') :: set k v m'
  end.

(** The map after [m.delete(k)] / [delete o[k]]. *)
Fixpoint remove (k : string) (m : list (string * V)) : list (string * V) :=
  match m with
  | [] => []
  | (k', v) :: m' =>
      if String.eqb k' k then remove k m' else (k', v) :: remove k m'
  end.

(** [m.has(k)], which is also the boolean [m.delete(k)] returns. *)
Definition has (k : string) (m : list (string * V)) : bool :=
  match get k m with
  | Some _ => true
  | None => false
  end.

Definition size (m : list (string * V)) : nat := length m.
Definition keys (m : list (string * V)) : list string := map fst m.
Definition values (m : list (string * V)) : list V := map snd m.
End ops.
End JsMap.

(* ===================================================================== *)
(** ** Plain objects used as dictionaries *)
(* ===================================================================== *)

(** The property names [Object.prototype] defines (ECMAScript with its
    Annex B, as Node has them). All are methods except [__proto__], an
    accessor. *)
Definition Object_prototype : list string :=
  ["constructor"; "__defineGetter__"; "__defineSetter__"; "hasOwnProperty";
   "__lookupGetter__"; "__lookupSetter__"; "isPrototypeOf";
   "propertyIsEnumerable"; "toString"; "valueOf"; "__proto__";
   "toLocaleString"].

(** What [o[k]] evaluates to when it is not [undefined]: the value of the
    object's own property, or the member of [Object.prototype] of that
    name. *)
Inductive Property (V : Type) : Type :=
| OwnValue (v : V)
| Inherited (name : string).
Arguments OwnValue {V} v.
Arguments Inherited {V} name.

(** [o[k]] on an object created by [{}]. *)
Definition prop_read {V : Type} (k : string) (o : list (string * V))
    : option (Property V) :=
  match JsMap.get k o with
  | Some v => Some (OwnValue v)
  | None =>
      if existsb (String.eqb k) Object_prototype then Some (Inherited k)
      else None
  end.

(** The own properties after [o[k] = v] with a computed name. An own
    property is overwritten and a new name is added, except for the name
    [__proto__]: unless the object has an own property of that name, the
    assignment reaches the accessor of [Object.prototype], which adds no
    property (it ignores a primitive [v], and re-parents [o] when [v] is
    an object, which changes no own property either). *)
Definition prop_write {V : Type} (k : string) (v : V) (o : list (string * V))
    : list (string * V) :=
  if String.eqb k "__proto__" && negb (JsMap.has k o) then o
  else JsMap.set k v o.

(* ===================================================================== *)
(** ** session-engine.ts *)
(* ===================================================================== *)

Record BrowserFingerprint : Type := {
  userAgent : string;
  acceptLanguage : string;
  acceptEncoding : string;
  timezone : string;
  screenResolution : string;
  colorDepth : number;
  platform : string;
  hardwareConcurrency : number;
  deviceMemory : number;
  webGLVendor : string;
  webGLRenderer : string;
  canvas : string;
  webRTC : bool
}.

(** [Partial<BrowserFingerprint>]: every property may be missing. *)
Record PartialFingerprint : Type := {
  p_userAgent : option string;
  p_acceptLanguage : option string;
  p_acceptEncoding : option string;
  p_timezone : option string;
  p_screenResolution : option string;
  p_colorDepth : option number;
  p_platform : option string;
  p_hardwareConcurrency : option number;
  p_deviceMemory : option number;
  p_webGLVendor : option string;
  p_webGLRenderer : option string;
  p_canvas : option string;
  p_webRTC : option bool
}.

Record RequestLog : Type := {
  timestamp : Z;
  method : string;
  url : string;
  statusCode : number;
  duration : number
}.

Record SessionData : Type := {
  id : string;
  createdAt : Z;
  lastAccessedAt : Z;
  cookies : list (string * string);
  localStorage : list (string * string);
  sessionStorage : list (string * string);
  browserFingerprint : BrowserFingerprint;
  customProxy : option string;
  requestHistory : list RequestLog
}.

(** The [sessions] field of [SessionEngine]: a [Map<string, SessionData>]. *)
Definition Store : Type := list (string * SessionData).

Definition MAX_SESSIONS : nat := 100.
Definition SESSION_TIMEOUT : Z := 24 * 60 * 60 * 1000.

(** Field updates performed through a session reference. *)
Definition with_lastAccessedAt (t : Z) (s : SessionData) : SessionData :=
  {| id := id s; createdAt := createdAt s; lastAccessedAt := t;
     cookies := cookies s; localStorage := localStorage s;
     sessionStorage := sessionStorage s;
     browserFingerprint := browserFingerprint s;
     customProxy := customProxy s; requestHistory := requestHistory s |}.

Definition with_cookies (c : list (string * string)) (s : SessionData) : SessionData :=
  {| id := id s; createdAt := createdAt s; lastAccessedAt := lastAccessedAt s;
     cookies := c; localStorage := localStorage s;
     sessionStorage := sessionStorage s;
     browserFingerprint := browserFingerprint s;
     customProxy := customProxy s; requestHistory := requestHistory s |}.

Definition with_localStorage (c : list (string * string)) (s : SessionData) : SessionData :=
  {| id := id s; createdAt := createdAt s; lastAccessedAt := lastAccessedAt s;
     cookies := cookies s; localStorage := c;
     sessionStorage := sessionStorage s;
     browserFingerprint := browserFingerprint s;
     customProxy := customProxy s; requestHistory := requestHistory s |}.

Definition with_requestHistory (h : list RequestLog) (s : SessionData) : SessionData :=
  {| id := id s; createdAt := createdAt s; lastAccessedAt := lastAccessedAt s;
     cookies := cookies s; localStorage := localStorage s;
     sessionStorage := sessionStorage s;
     browserFingerprint := browserFingerprint s;
     customProxy := customProxy s; requestHistory := h |}.

(** *** generateSessionId: [randomBytes(16).toString('hex')] *)

Definition hex_digit (n : N) : ascii :=
  match n with
  | 0%N => "0" | 1%N => "1" | 2%N => "2" | 3%N => "3"
  | 4%N => "4" | 5%N => "5" | 6%N => "6" | 7%N => "7"
  | 8%N => "8" | 9%N => "9" | 10%N => "a" | 11%N => "b"
  | 12%N => "c" | 13%N => "d" | 14%N => "e" | _ => "f"
  end%char.

Definition hex_of_byte (b : byte) : string :=
  let n := Byte.to_N b in
  String (hex_digit (n / 16)) (String (hex_digit (n mod 16)) "").

(** [bytes] is the buffer [randomBytes(16)] returned. *)
Definition generateSessionId (bytes : list byte) : string :=
  fold_right (fun b acc => hex_of_byte b +:+ acc) "" bytes.

(** *** generateBrowserFingerprint *)

Record Archetype : Type := {
  a_userAgent : string;
  a_platform : string;
  a_hardwareConcurrency : number;
  a_deviceMemory : number
}.

Definition num (z : Z) : number := Num (inject_Z z).

Definition archetype_windows : Archetype :=
  {| a_userAgent := "Mozilla/5.0 (Windows NT 10.0; Win64; x64) AppleWebKit/537.36 (KHTML, like Gecko) Chrome/120.0.0.0 Safari/537.36";
     a_platform := "Win32";
     a_hardwareConcurrency := num 8;
     a_deviceMemory := num 16 |}.

Definition archetype_mac : Archetype :=
  {| a_userAgent := "Mozilla/5.0 (Macintosh; Intel Mac OS X 10_15_7) AppleWebKit/605.1.15 (KHTML, like Gecko) Version/17.1 Safari/605.1.15";
     a_platform := "MacIntel";
     a_hardwareConcurrency := num 8;
     a_deviceMemory := num 16 |}.

Definition archetype_linux : Archetype :=
  {| a_userAgent := "Mozilla/5.0 (X11; Linux x86_64) AppleWebKit/537.36 (KHTML, like Gecko) Chrome/120.0.0.0 Safari/537.36";
     a_platform := "Linux x86_64";
     a_hardwareConcurrency := num 4;
     a_deviceMemory := num 8 |}.

Definition browsers : list Archetype :=
  [archetype_windows; archetype_mac; archetype_linux].

Definition screenResolutions : list string :=
  ["1920x1080"; "1366x768"; "1440x900"; "2560x1440"].
Definition colorDepths : list number := [num 24; num 32].
Definition timezones : list string :=
  ["UTC"; "Asia/Tokyo"; "America/New_York"; "Europe/London"].

(** The [Math.random()] draws one fingerprint generation may consume. *)
Record FpDraws : Type := {
  d_browser : nat;
  d_timezone : nat;
  d_screen : nat;
  d_colorDepth : nat;
  d_canvas : nat -> nat        (* draw of loop iteration [i] *)
}.

Definition canvas_chars : string :=
  "ABCDEFGHIJKLMNOPQRSTUVWXYZabcdefghijklmnopqrstuvwxyz0123456789".

(** [generateCanvasFingerprint]: 32 iterations of [result += chars.charAt(..)]. *)
Definition generateCanvasFingerprint (draw : nat -> nat) : string :=
  fold_left
    (fun result i =>
       result +:+ charAt (draw i mod String.length canvas_chars)%nat canvas_chars)
    (seq 0 32) "".

(** [custom?.f] for an optional [custom]. *)
Definition opt_field {A : Type} (custom : option PartialFingerprint)
    (f : PartialFingerprint -> option A) : option A :=
  match custom with
  | Some c => f c
  | None => None
  end.

Definition generateBrowserFingerprint (custom : option PartialFingerprint)
    (d : FpDraws) : BrowserFingerprint :=
  let browser := pick browsers (d_browser d) archetype_windows in
  {| userAgent := or_str (opt_field custom p_userAgent) (a_userAgent browser);
     acceptLanguage := or_str (opt_field custom p_acceptLanguage) "ja-JP,ja;q=0.9";
     acceptEncoding := or_str (opt_field custom p_acceptEncoding) "gzip, deflate, br";
     timezone := or_str (opt_field custom p_timezone)
                   (pick timezones (d_timezone d) "UTC");
     screenResolution := or_str (opt_field custom p_screenResolution)
                           (pick screenResolutions (d_screen d) "1920x1080");
     colorDepth := or_num (opt_field custom p_colorDepth)
                     (pick colorDepths (d_colorDepth d) (num 24));
     platform := or_str (opt_field custom p_platform) (a_platform browser);
     hardwareConcurrency := or_num (opt_field custom p_hardwareConcurrency)
                              (a_hardwareConcurrency browser);
     deviceMemory := or_num (opt_field custom p_deviceMemory)
                       (a_deviceMemory browser);
     webGLVendor := or_str (opt_field custom p_webGLVendor) "Google Inc.";
     webGLRenderer := or_str (opt_field custom p_webGLRenderer)
                        "ANGLE (Intel HD Graphics)";
     canvas := or_str (opt_field custom p_canvas)
                 (generateCanvasFingerprint (d_canvas d));
     webRTC := nullish (opt_field custom p_webRTC) true |}.

(** *** createSession *)

(** Everything one [createSession] call reads from its caller and from the
    environment. *)
Record CreateCall : Type := {
  cc_overrides : option PartialFingerprint;
  cc_idBytes : list byte;      (* randomBytes(16) *)
  cc_draws : FpDraws;          (* Math.random() *)
  cc_createdAt : Z;            (* first  new Date() *)
  cc_lastAccessedAt : Z        (* second new Date() *)
}.

(** The reducer of the eviction scan. *)
Definition older (prev current : SessionData) : SessionData :=
  if lastAccessedAt prev <? lastAccessedAt current then prev else current.

(** The store after the eviction block; [None] is the TypeError of
    [reduce] on an empty array. *)
Definition evict (st : Store) : option Store :=
  if (MAX_SESSIONS <=? JsMap.size st)%nat then
    match reduce older (JsMap.values st) with
    | Some oldestSession => Some (JsMap.remove (id oldestSession) st)
    | None => None
    end
  else Some st.

Definition createSession (c : CreateCall) (st : Store)
    : option (SessionData * Store) :=
  match evict st with
  | None => None
  | Some st1 =>
      let sessionId := generateSessionId (cc_idBytes c) in
      let fingerprint := generateBrowserFingerprint (cc_overrides c) (cc_draws c) in
      let session :=
        {| id := sessionId;
           createdAt := cc_createdAt c;
           lastAccessedAt := cc_lastAccessedAt c;
           cookies := [];
           localStorage := [];
           sessionStorage := [];
           browserFingerprint := fingerprint;
           customProxy := None;
           requestHistory := [] |} in
      Some (session, JsMap.set sessionId session st1)
  end.

(** *** getSession *)

(** The two clock readings of one [getSession]: [new Date()] for the touch
    and [Date.now()] in the staleness test. *)
Record Tick : Type := {
  touch : Z;
  check : Z
}.

(** The session is held by reference: writing [lastAccessedAt] changes the
    object stored under [sessionId]. *)
Definition getSession (sessionId : string) (tk : Tick) (st : Store)
    : option SessionData * Store :=
  match JsMap.get sessionId st with
  | Some session0 =>
      let session := with_lastAccessedAt (touch tk) session0 in
      let st1 := JsMap.set sessionId session st in
      if check tk - lastAccessedAt session >? SESSION_TIMEOUT
      then (None, JsMap.remove sessionId st1)
      else (Some session, st1)
  | None => (None, st)
  end.

(** *** cookies and localStorage *)

(** [domain ? `${domain}:${name}` : name] *)
Definition cookie_key (name : string) (domain : option string) : string :=
  match domain with
  | Some d => if truthy_str d then d +:+ ":" +:+ name else name
  | None => name
  end.

Definition setCookie (sessionId name value : string) (domain : option string)
    (tk : Tick) (st : Store) : bool * Store :=
  match getSession sessionId tk st with
  | (None, st1) => (false, st1)
  | (Some session, st1) =>
      let key := cookie_key name domain in
      (true,
       JsMap.set sessionId
         (with_cookies (prop_write key value (cookies session)) session) st1)
  end.

(** The declared result type is [string | undefined]; for a key that names
    a member of [Object.prototype] and no cookie, the lookup returns that
    member. *)
Definition getCookie (sessionId name : string) (domain : option string)
    (tk : Tick) (st : Store) : option (Property string) * Store :=
  match getSession sessionId tk st with
  | (None, st1) => (None, st1)
  | (Some session, st1) =>
      let key := cookie_key name domain in
      (prop_read key (cookies session), st1)
  end.

Definition setLocalStorage (sessionId key value : string)
    (tk : Tick) (st : Store) : bool * Store :=
  match getSession sessionId tk st with
  | (None, st1) => (false, st1)
  | (Some session, st1) =>
      (true,
       JsMap.set sessionId
         (with_localStorage (prop_write key value (localStorage session)) session)
         st1)
  end.

Definition getLocalStorage (sessionId key : string)
    (tk : Tick) (st : Store) : option (Property string) * Store :=
  match getSession sessionId tk st with
  | (None, st1) => (None, st1)
  | (Some session, st1) => (prop_read key (localStorage session), st1)
  end.

(** *** logRequest *)

Record LogCall : Type := {
  lc_tick : Tick;
  lc_timestamp : Z;            (* new Date() of the pushed entry *)
  lc_method : string;
  lc_url : string;
  lc_statusCode : number;
  lc_duration : number
}.

Definition entry_of (c : LogCall) : RequestLog :=
  {| timestamp := lc_timestamp c; method := lc_method c; url := lc_url c;
     statusCode := lc_statusCode c; duration := lc_duration c |}.

(** [push] followed by the trim to the latest 1000. *)
Definition push_trim (h : list RequestLog) (e : RequestLog) : list RequestLog :=
  let h1 := h ++ [e] in
  if (1000 <? length h1)%nat then slice_last 1000 h1 else h1.

Definition logRequest (sessionId : string) (c : LogCall) (st : Store)
    : bool * Store :=
  match getSession sessionId (lc_tick c) st with
  | (None, st1) => (false, st1)
  | (Some session, st1) =>
      (true,
       JsMap.set sessionId
         (with_requestHistory (push_trim (requestHistory session) (entry_of c))
            session)
         st1)
  end.

(** *** getStats, deleteSession, clearAllSessions, getSessionDetails *)

Record Stats : Type := {
  activeSessions : nat;
  totalSessions : nat;
  sessionIds : list string
}.

Definition getStats (st : Store) : Stats :=
  {| activeSessions := JsMap.size st;
     totalSessions := JsMap.size st;
     sessionIds := JsMap.keys st |}.

Definition deleteSession (sessionId : string) (st : Store) : bool * Store :=
  (JsMap.has sessionId st, JsMap.remove sessionId st).

Definition clearAllSessions (st : Store) : Store := [].

Record SessionDetails : Type := {
  sd_id : string;
  sd_createdAt : Z;
  sd_lastAccessedAt : Z;
  sd_cookieCount : nat;
  sd_localStorageCount : nat;
  sd_requestCount : nat;
  sd_browserFingerprint : BrowserFingerprint;
  sd_recentRequests : list RequestLog
}.

Definition getSessionDetails (sessionId : string) (tk : Tick) (st : Store)
    : option SessionDetails * Store :=
  match getSession sessionId tk st with
  | (None, st1) => (None, st1)
  | (Some session, st1) =>
      (Some {| sd_id := id session;
               sd_createdAt := createdAt session;
               sd_lastAccessedAt := lastAccessedAt session;
               sd_cookieCount := length (JsMap.keys (cookies session));
               sd_localStorageCount := length (JsMap.keys (localStorage session));
               sd_requestCount := length (requestHistory session);
               sd_browserFingerprint := browserFingerprint session;
               sd_recentRequests := slice_last 10 (requestHistory session) |},
       st1)
  end.

(* ===================================================================== *)
(** ** Objects held by reference: a heap of header maps *)
(* ===================================================================== *)

(** A header value ([Record<string, any>] restricted to what Node puts in
    [IncomingHttpHeaders]). *)
Inductive hval : Type :=
| HStr (s : string)
| HArr (l : list string).

Definition loc : Type := positive.

Inductive Result (A : Type) : Type :=
| Ok (a : A)
| Throw (err : string).
Arguments Ok {A} a.
Arguments Throw {A} err.

(** Computations over the object heap that may raise an exception. *)
Definition M (A : Type) : Type :=
  gmap loc (list (string * hval)) -> Result (A * gmap loc (list (string * hval))).

Definition ret {A : Type} (a : A) : M A := fun h => Ok (a, h).

Definition bind {A B : Type} (m : M A) (k : A -> M B) : M B :=
  fun h =>
    match m h with
    | Ok (a, h1) => k a h1
    | Throw e => Throw e
    end.

Definition throw {A : Type} (e : string) : M A := fun _ => Throw e.

#[export] Instance M_ret : MRet M := @ret.
#[export] Instance M_bind : MBind M := fun A B k m => bind m k.

(** A new object with the given own properties. *)
Definition alloc (o : list (string * hval)) : M loc :=
  fun h => let l := fresh (dom h) in Ok (l, <[l := o]> h).

Definition deref (l : loc) : M (list (string * hval)) :=
  fun h =>
    match h !! l with
    | Some o => Ok (o, h)
    | None => Throw "dangling reference"
    end.

Definition update (l : loc) (f : list (string * hval) -> list (string * hval))
    : M unit :=
  fun h =>
    match h !! l with
    | Some o => Ok (tt, <[l := f o]> h)
    | None => Throw "dangling reference"
    end.

(** [{ ...src }] *)
Definition obj_spread (src : loc) : M loc :=
  o ← deref src; alloc o.

(** [o[k] = v] for a literal name [k] (none of the source's is
    [__proto__]). *)
Definition obj_assign (o : loc) (k : string) (v : hval) : M unit :=
  update o (JsMap.set k v).

(** [o[k] = v] for a computed name [k]. *)
Definition obj_assign_computed (o : loc) (k : string) (v : hval) : M unit :=
  update o (prop_write k v).

(** [delete o[k]] *)
Definition obj_delete (o : loc) (k : string) : M unit :=
  update o (JsMap.remove k).

(** [arr.forEach(f)] *)
Fixpoint forEach {A : Type} (arr : list A) (f : A -> M unit) : M unit :=
  match arr with
  | [] => ret tt
  | x :: xs => f x;; forEach xs f
  end.

(** The capital of an ASCII letter, and its small letter. *)
Definition upper_ascii (c : ascii) : ascii :=
  let n := nat_of_ascii c in
  if ((97 <=? n) && (n <=? 122))%nat then ascii_of_nat (n - 32) else c.

Definition lower_ascii (c : ascii) : ascii :=
  let n := nat_of_ascii c in
  if ((65 <=? n) && (n <=? 90))%nat then ascii_of_nat (n + 32) else c.

(** The Unicode lower-case mapping of a code unit below 256: [A-Z], and
    the capitals U+00C0 to U+00DE except the multiplication sign U+00D7,
    move up by 32; every other code unit is its own lower case. *)
Definition lower_latin1 (c : ascii) : ascii :=
  let n := nat_of_ascii c in
  if ((65 <=? n) && (n <=? 90))%nat then ascii_of_nat (n + 32)
  else if ((192 <=? n) && (n <=? 222) && negb (n =? 215))%nat
       then ascii_of_nat (n + 32)
  else c.

Fixpoint map_string (f : ascii -> ascii) (s : string) : string :=
  match s with
  | EmptyString => EmptyString
  | String c s' => String (f c) (map_string f s')
  end.

(** [s.toUpperCase()] for an ASCII [s]; the source upper-cases only the
    header names of its own lists. *)
Definition toUpperCase (s : string) : string := map_string upper_ascii s.

(** [s.toLowerCase()]; the source applies it to header names it is
    given. *)
Definition toLowerCase (s : string) : string := map_string lower_latin1 s.

(* ===================================================================== *)
(** ** proxy-advanced.ts *)
(* ===================================================================== *)

Definition BROWSER_USER_AGENTS_chrome : list string :=
  ["Mozilla/5.0 (Windows NT 10.0; Win64; x64) AppleWebKit/537.36 (KHTML, like Gecko) Chrome/120.0.0.0 Safari/537.36";
   "Mozilla/5.0 (Macintosh; Intel Mac OS X 10_15_7) AppleWebKit/537.36 (KHTML, like Gecko) Chrome/120.0.0.0 Safari/537.36";
   "Mozilla/5.0 (X11; Linux x86_64) AppleWebKit/537.36 (KHTML, like Gecko) Chrome/120.0.0.0 Safari/537.36"].

Definition BROWSER_USER_AGENTS_firefox : list string :=
  ["Mozilla/5.0 (Windows NT 10.0; Win64; x64; rv:121.0) Gecko/20100101 Firefox/121.0";
   "Mozilla/5.0 (Macintosh; Intel Mac OS X 10.15; rv:121.0) Gecko/20100101 Firefox/121.0";
   "Mozilla/5.0 (X11; Linux x86_64; rv:121.0) Gecko/20100101 Firefox/121.0"].

Definition BROWSER_USER_AGENTS_safari : list string :=
  ["Mozilla/5.0 (Macintosh; Intel Mac OS X 10_15_7) AppleWebKit/605.1.15 (KHTML, like Gecko) Version/17.1 Safari/605.1.15";
   "Mozilla/5.0 (iPhone; CPU iPhone OS 17_1 like Mac OS X) AppleWebKit/605.1.15 (KHTML, like Gecko) Version/17.1 Mobile/15E148 Safari/604.1"].

Definition BROWSER_USER_AGENTS_edge : list string :=
  ["Mozilla/5.0 (Windows NT 10.0; Win64; x64) AppleWebKit/537.36 (KHTML, like Gecko) Chrome/120.0.0.0 Safari/537.36 Edg/120.0.0.0";
   "Mozilla/5.0 (Macintosh; Intel Mac OS X 10_15_7) AppleWebKit/537.36 (KHTML, like Gecko) Chrome/120.0.0.0 Safari/537.36 Edg/120.0.0.0"].

(** [Object.values(BROWSER_USER_AGENTS)] in property order. *)
Definition BROWSER_USER_AGENTS : list (list string) :=
  [BROWSER_USER_AGENTS_chrome; BROWSER_USER_AGENTS_firefox;
   BROWSER_USER_AGENTS_safari; BROWSER_USER_AGENTS_edge].

Definition TRACKING_HEADERS : list string :=
  ["x-forwarded-for"; "x-forwarded-proto"; "x-forwarded-host"; "x-real-ip";
   "cf-connecting-ip"; "cf-ray"; "cf-ipcountry"; "x-client-ip";
   "x-originating-ip"; "x-cluster-client-ip"; "x-forwarded-server";
   "x-forwarded-by"; "x-forwarded-for-original"; "x-original-forwarded-for"].

Definition SECURITY_HEADERS : list string :=
  ["content-security-policy"; "x-frame-options"; "x-content-type-options";
   "x-xss-protection"; "strict-transport-security"; "referrer-policy"].

(** The [Math.random()] draws of [spoofHeaders]. *)
Record SpoofDraws : Type := {
  d_userAgent : nat;
  d_language : nat
}.

Definition getRandomUserAgent (draw : nat) : string :=
  let allAgents := concat BROWSER_USER_AGENTS in
  pick allAgents draw (hd "" BROWSER_USER_AGENTS_chrome).

Definition languages : list string :=
  ["ja-JP,ja;q=0.9"; "en-US,en;q=0.9"; "en-GB,en;q=0.9"].

(** The characters of the two literals that contain double quotes. *)
Definition dq : string := String (ascii_of_nat 34) EmptyString.

Definition sec_ch_ua_value : string :=
  dq +:+ "Not_A Brand" +:+ dq +:+ ";v=" +:+ dq +:+ "8" +:+ dq +:+ ", "
  +:+ dq +:+ "Chromium" +:+ dq +:+ ";v=" +:+ dq +:+ "120" +:+ dq.

Definition sec_ch_ua_platform_value : string := dq +:+ "Windows" +:+ dq.

Definition spoofHeaders (headers : loc) (d : SpoofDraws) : M loc :=
  spoofed ← obj_spread headers;
  obj_assign spoofed "user-agent" (HStr (getRandomUserAgent (d_userAgent d)));;
  obj_assign spoofed "accept-language"
    (HStr (pick languages (d_language d) "ja-JP,ja;q=0.9"));;
  obj_assign spoofed "accept-encoding" (HStr "gzip, deflate, br");;
  obj_assign spoofed "accept"
    (HStr "text/html,application/xhtml+xml,application/xml;q=0.9,image/webp,*/*;q=0.8");;
  obj_assign spoofed "dnt" (HStr "1");;
  obj_assign spoofed "sec-fetch-dest" (HStr "document");;
  obj_assign spoofed "sec-fetch-mode" (HStr "navigate");;
  obj_assign spoofed "sec-fetch-site" (HStr "none");;
  obj_assign spoofed "sec-fetch-user" (HStr "?1");;
  obj_assign spoofed "sec-ch-ua" (HStr sec_ch_ua_value);;
  obj_assign spoofed "sec-ch-ua-mobile" (HStr "?0");;
  obj_assign spoofed "sec-ch-ua-platform" (HStr sec_ch_ua_platform_value);;
  ret spoofed.

(** The common body of [removeTrackingHeaders] and [removeSecurityHeaders]. *)
Definition removeHeaders (names : list string) (headers : loc) : M loc :=
  cleaned ← obj_spread headers;
  forEach names (fun header =>
    obj_delete cleaned header;;
    obj_delete cleaned (toUpperCase header));;
  ret cleaned.

Definition removeTrackingHeaders (headers : loc) : M loc :=
  removeHeaders TRACKING_HEADERS headers.

Definition removeSecurityHeaders (headers : loc) : M loc :=
  removeHeaders SECURITY_HEADERS headers.

(* ===================================================================== *)
(** ** The platform's [URL] class *)
(* ===================================================================== *)

(** The components of a parsed URL as its getters return them. *)
Record URL : Type := {
  protocol : string;
  hostname : string;
  port : string;
  pathname : string;
  search : string;
  hash : string;
  origin : string
}.

(** [s.includes('?')] for a one-character needle. *)
Fixpoint includes_char (c : ascii) (s : string) : bool :=
  match s with
  | EmptyString => false
  | String c' s' => if Ascii.eqb c' c then true else includes_char c s'
  end.

(** [s.split(c)] for a one-character separator. *)
Fixpoint split_char (c : ascii) (s : string) : list string :=
  match s with
  | EmptyString => [EmptyString]
  | String c' s' =>
      if Ascii.eqb c' c then EmptyString :: split_char c s'
      else match split_char c s' with
           | [] => [String c' EmptyString]
           | part :: parts => String c' part :: parts
           end
  end.

(** A template-literal hole filled with an optional string. *)
Definition show_opt (o : option string) : string :=
  match o with
  | Some s => s
  | None => "undefined"
  end.

Record IncomingMessage : Type := {
  im_method : option string;
  im_url : option string;
  im_headers : loc
}.

(** What a request handler does to the outside world, in order:
    [res.writeHead], [res.end], [console.log] and [proxy.web]. *)
Inductive Effect : Type :=
| WriteHead (status : Z) (headers : list (string * string))
| End (body : option string)
| ConsoleLog (line : string)
| ProxyWeb (req : IncomingMessage) (target : string) (changeOrigin : bool).

(** The value of [this.config]: each optional property read as the
    handler reads it, [None] when it is absent or holds [undefined]. *)
Record ProxyConfig : Type := {
  targetUrl : string;
  cfg_headers : option (list (string * string));
  cfg_userAgent : option string;
  cfg_stripHeaders : option (list string)
}.

(** The object literal handed to the constructor. An optional property is
    absent ([None]) or present, and a present one may hold [undefined]
    ([Some None]); the spread copies every present property, whatever it
    holds. *)
Record ProxyOptions : Type := {
  opt_targetUrl : string;
  opt_headers : option (option (list (string * string)));
  opt_userAgent : option (option string);
  opt_stripHeaders : option (option (list string))
}.

Definition USER_AGENTS : list string :=
  ["Mozilla/5.0 (Windows NT 10.0; Win64; x64) AppleWebKit/537.36 (KHTML, like Gecko) Chrome/120.0.0.0 Safari/537.36";
   "Mozilla/5.0 (Macintosh; Intel Mac OS X 10_15_7) AppleWebKit/537.36 (KHTML, like Gecko) Chrome/120.0.0.0 Safari/537.36";
   "Mozilla/5.0 (X11; Linux x86_64) AppleWebKit/537.36 (KHTML, like Gecko) Chrome/120.0.0.0 Safari/537.36";
   "Mozilla/5.0 (Windows NT 10.0; Win64; x64; rv:121.0) Gecko/20100101 Firefox/121.0";
   "Mozilla/5.0 (Macintosh; Intel Mac OS X 10_15_7) AppleWebKit/605.1.15 (KHTML, like Gecko) Version/17.1 Safari/605.1.15"].

Definition DEFAULT_STRIP_HEADERS : list string :=
  ["x-forwarded-for"; "x-forwarded-proto"; "x-forwarded-host"; "x-real-ip";
   "cf-connecting-ip"; "cf-ray"; "cf-ipcountry"].

(** The [config] field the constructor of [ProxyServer] stores:
    [{ userAgent: <random>, stripHeaders: DEFAULT_STRIP_HEADERS, ...config }]. *)
Definition ProxyServer (config : ProxyOptions) (draw : nat) : ProxyConfig :=
  {| targetUrl := opt_targetUrl config;
     cfg_headers :=
       match opt_headers config with
       | Some present => present
       | None => None
       end;
     cfg_userAgent :=
       match opt_userAgent config with
       | Some present => present
       | None => Some (pick USER_AGENTS draw (hd "" USER_AGENTS))
       end;
     cfg_stripHeaders :=
       match opt_stripHeaders config with
       | Some present => present
       | None => Some DEFAULT_STRIP_HEADERS
       end |}.

(** The draws and clock text one [handleRequest] consumes. *)
Record ReqEnv : Type := {
  e_spoof : SpoofDraws;
  e_refererPath : nat;
  e_isoNow : string            (* new Date().toISOString() *)
}.

Definition CORS_PREFLIGHT_HEADERS : list (string * string) :=
  [("access-control-allow-origin", "*");
   ("access-control-allow-methods", "GET, POST, PUT, DELETE, OPTIONS");
   ("access-control-allow-headers", "Content-Type, Authorization")].

Section WithURL.
(** [new URL(s)]: [None] is the TypeError for an invalid URL. *)
Variable parseURL : string -> option URL.
(** What the [pathname] and [search] setters store for a given new value
    (percent-encoding, dot-segment removal, the leading [?]). *)
Variable encodePathname : URL -> string -> string.
Variable encodeSearch : URL -> string -> string.
(** [u.toString()] *)
Variable href : URL -> string.

Definition new_URL (s : string) : M URL :=
  match parseURL s with
  | Some u => ret u
  | None => throw "TypeError: Invalid URL"
  end.

(** The setters change the component they name; the origin is a function
    of scheme, host and port and stays as parsed. *)
Definition set_pathname (v : string) (u : URL) : URL :=
  {| protocol := protocol u; hostname := hostname u; port := port u;
     pathname := encodePathname u v; search := search u; hash := hash u;
     origin := origin u |}.

Definition set_search (v : string) (u : URL) : URL :=
  {| protocol := protocol u; hostname := hostname u; port := port u;
     pathname := pathname u; search := encodeSearch u v; hash := hash u;
     origin := origin u |}.

Definition referer_paths : list string :=
  ["/"; "/search"; "/page"; "/index.html"].

Definition generateReferer (target : string) (draw : nat) : M string :=
  url ← new_URL target;
  let domain := hostname url in
  let path := pick referer_paths draw "/" in
  ret ("https://" +:+ domain +:+ path).

Definition fullSpoof (headers : loc) (target : string)
    (d : SpoofDraws) (dref : nat) : M loc :=
  spoofed ← spoofHeaders headers d;
  spoofed ← removeTrackingHeaders spoofed;
  spoofed ← removeSecurityHeaders spoofed;
  referer ← generateReferer target dref;
  obj_assign spoofed "referer" (HStr referer);;
  obj_assign spoofed "upgrade-insecure-requests" (HStr "1");;
  obj_assign spoofed "cache-control" (HStr "max-age=0");;
  obj_assign spoofed "pragma" (HStr "no-cache");;
  ret spoofed.

(** *** proxy.ts *)

(** [req] is mutated through its [headers] object and returned. *)
Definition modifyRequest (config : ProxyConfig) (req : IncomingMessage)
    (env : ReqEnv) : M IncomingMessage :=
  spoofedHeaders ←
    fullSpoof (im_headers req) (targetUrl config) (e_spoof env)
      (e_refererPath env);
  match cfg_headers config with
  | Some custom =>
      forEach custom (fun kv =>
        obj_assign_computed spoofedHeaders (toLowerCase (fst kv)) (HStr (snd kv)))
  | None => ret tt
  end;;
  match cfg_userAgent config with
  | Some ua =>
      if truthy_str ua then obj_assign spoofedHeaders "user-agent" (HStr ua)
      else ret tt
  | None => ret tt
  end;;
  entries ← deref spoofedHeaders;
  forEach entries (fun kv =>
    obj_assign_computed (im_headers req) (toLowerCase (fst kv)) (snd kv));;
  ret req.

(** The URL object built for the log line. *)
Definition build_target (reqUrl : option string) (u : URL) : URL :=
  match reqUrl with
  | Some s =>
      if includes_char "?" s then
        let parts := split_char "?" s in
        let path := nth 0 parts "" in
        let query := nth 1 parts "" in
        set_search query (set_pathname path u)
      else set_pathname (or_str reqUrl "/") u
  | None => set_pathname (or_str reqUrl "/") u
  end.

Definition handleRequest (config : ProxyConfig) (req : IncomingMessage)
    (env : ReqEnv) : M (list Effect) :=
  if bool_decide (im_method req = Some "OPTIONS") then
    ret [WriteHead 200 CORS_PREFLIGHT_HEADERS; End None]
  else
    modifiedReq ← modifyRequest config req env;
    parsed ← new_URL (targetUrl config);
    let target := build_target (im_url req) parsed in
    ret [ConsoleLog ("[" +:+ e_isoNow env +:+ "] " +:+ show_opt (im_method req)
                     +:+ " " +:+ show_opt (im_url req) +:+ " -> "
                     +:+ href target);
         ProxyWeb modifiedReq (origin target) true].
End WithURL.

(* ===================================================================== *)
(** ** Runs of calls, invariants and specification vocabulary *)
(* ===================================================================== *)

(** A sequence of [createSession] calls on one engine; [None] if one of
    them raises. *)
Fixpoint createSessions (calls : list CreateCall) (st : Store) : option Store :=
  match calls with
  | [] => Some st
  | c :: calls' =>
      match createSession c st with
      | Some (_, st1) => createSessions calls' st1
      | None => None
      end
  end.

(** A sequence of [logRequest] calls for one session id; the store after
    the last of them. *)
Fixpoint logRequests (sessionId : string) (calls : list LogCall) (st : Store)
    : Store :=
  match calls with
  | [] => st
  | c :: calls' => logRequests sessionId calls' (snd (logRequest sessionId c st))
  end.

(** Every entry of the map is filed under its own [id], once. *)
Definition keyed (st : Store) : Prop :=
  Forall (fun kv => id (snd kv) = fst kv) st.

Record store_ok (st : Store) : Prop := {
  ok_keyed : keyed st;
  ok_nodup : NoDup (JsMap.keys st);
  ok_size : (JsMap.size st <= MAX_SESSIONS)%nat
}.

(** No more than the timeout elapses between the two clock readings of a
    single [getSession]. *)
Definition tick_ok (tk : Tick) : Prop :=
  check tk - touch tk <= SESSION_TIMEOUT.

(** Total correctness of a heap computation: it returns, and the result
    and final heap satisfy [Q]. *)
Definition wp {A : Type} (m : M A) (h : gmap loc (list (string * hval)))
    (Q : A -> gmap loc (list (string * hval)) -> Prop) : Prop :=
  match m h with
  | Ok (a, h1) => Q a h1
  | Throw _ => False
  end.


Definition is_ProxyWeb (e : Effect) : bool :=
  match e with
  | ProxyWeb _ _ _ => true
  | _ => false
  end.

(** *** Concrete inputs used to exercise the statements *)

Definition ex_fingerprint : BrowserFingerprint :=
  {| userAgent := "ua"; acceptLanguage := "en"; acceptEncoding := "gzip";
     timezone := "UTC"; screenResolution := "1920x1080"; colorDepth := num 24;
     platform := "Win32"; hardwareConcurrency := num 8; deviceMemory := num 16;
     webGLVendor := "Google Inc."; webGLRenderer := "ANGLE"; canvas := "c";
     webRTC := true |}.

Definition ex_session : SessionData :=
  {| id := "s1"; createdAt := 1000; lastAccessedAt := 1000;
     cookies := []; localStorage := []; sessionStorage := [];
     browserFingerprint := ex_fingerprint; customProxy := None;
     requestHistory := [] |}.

Definition ex_store : Store := [("s1", ex_session)].

Definition ex_tick (t : Z) : Tick := {| touch := t; check := t |}.

Definition ex_log (t : Z) (u : string) : LogCall :=
  {| lc_tick := ex_tick t; lc_timestamp := t; lc_method := "GET";
     lc_url := u; lc_statusCode := num 200; lc_duration := num 12 |}.

Definition no_overrides : PartialFingerprint :=
  {| p_userAgent := None; p_acceptLanguage := None; p_acceptEncoding := None;
     p_timezone := None; p_screenResolution := None; p_colorDepth := None;
     p_platform := None; p_hardwareConcurrency := None; p_deviceMemory := None;
     p_webGLVendor := None; p_webGLRenderer := None; p_canvas := None;
     p_webRTC := None |}.

(** Overrides that supply an empty user agent, a zero colour depth and
    [webRTC: false]. *)
Definition falsy_overrides : PartialFingerprint :=
  {| p_userAgent := Some ""; p_acceptLanguage := None; p_acceptEncoding := None;
     p_timezone := None; p_screenResolution := None;
     p_colorDepth := Some (num 0);
     p_platform := None; p_hardwareConcurrency := None; p_deviceMemory := None;
     p_webGLVendor := None; p_webGLRenderer := None; p_canvas := None;
     p_webRTC := Some false |}.

Definition ex_draws : FpDraws :=
  {| d_browser := 0; d_timezone := 0; d_screen := 0; d_colorDepth := 0;
     d_canvas := fun i => i |}.

Definition ex_spoof_draws : SpoofDraws := {| d_userAgent := 0; d_language := 0 |}.

(** A header object as a client that writes header names in their usual
    capitalisation would send it. *)
Definition mixed_case_headers : list (string * hval) :=
  [("X-Forwarded-For", HStr "203.0.113.7");
   ("Content-Security-Policy", HStr "default-src 'none'");
   ("x-real-ip", HStr "203.0.113.7")].

Definition ex_heap : gmap loc (list (string * hval)) :=
  {[ 1%positive := mixed_case_headers ]}.

(** A stand-in for the platform's URL parser that knows one URL. *)
Definition ex_url : URL :=
  {| protocol := "https:"; hostname := "example.com"; port := "";
     pathname := "/base"; search := "?x=1"; hash := "";
     origin := "https://example.com" |}.

Definition ex_parseURL (s : string) : option URL :=
  if String.eqb s "https://example.com/base?x=1" then Some ex_url else None.

Definition ex_href (u : URL) : string :=
  protocol u +:+ "//" +:+ hostname u +:+ pathname u +:+ search u +:+ hash u.



Definition ex_config : ProxyConfig :=
  {| targetUrl := "https://example.com/base?x=1"; cfg_headers := None;
     cfg_userAgent := None; cfg_stripHeaders := None |}.

Definition ex_env : ReqEnv :=
  {| e_spoof := ex_spoof_draws; e_refererPath := 0;
     e_isoNow := "2024-01-01T00:00:00.000Z" |}.

Definition ex_request (m : string) : IncomingMessage :=
  {| im_method := Some m; im_url := Some "/search?q=1"; im_headers := 1%positive |}.

(** Overrides that supply usable values. *)
Definition truthy_overrides : PartialFingerprint :=
  {| p_userAgent := Some "CustomAgent/1.0"; p_acceptLanguage := None;
     p_acceptEncoding := None; p_timezone := Some "Europe/Paris";
     p_screenResolution := None; p_colorDepth := Some (num 30);
     p_platform := None; p_hardwareConcurrency := None;
     p_deviceMemory := Some (Num (1 # 2));
     p_webGLVendor := None; p_webGLRenderer := None; p_canvas := None;
     p_webRTC := Some false |}.

(** The [i]-th of a series of [createSession] calls with pairwise different
    ids (for [i < 256]) and increasing clock readings. *)
Definition ex_create (i : nat) : CreateCall :=
  {| cc_overrides := None;
     cc_idBytes := [default Byte.x00 (Byte.of_nat i)];
     cc_draws := ex_draws;
     cc_createdAt := Z.of_nat i;
     cc_lastAccessedAt := Z.of_nat i |}.

Definition ex_creates (n : nat) : list CreateCall := map ex_create (seq 0 n).

(** *** Heap vocabulary *)



(** [o[k1] = v1; ...; o[kn] = vn] on an object's own properties. *)
Definition assign_all (kvs : list (string * hval)) (o : list (string * hval))
    : list (string * hval) :=
  fold_left (fun acc kv => JsMap.set (fst kv) (snd kv) acc) kvs o.

(** The assignments [spoofHeaders] performs, in order. *)
Definition spoof_assignments (d : SpoofDraws) : list (string * hval) :=
  [("user-agent", HStr (getRandomUserAgent (d_userAgent d)));
   ("accept-language", HStr (pick languages (d_language d) "ja-JP,ja;q=0.9"));
   ("accept-encoding", HStr "gzip, deflate, br");
   ("accept",
    HStr "text/html,application/xhtml+xml,application/xml;q=0.9,image/webp,*/*;q=0.8");
   ("dnt", HStr "1");
   ("sec-fetch-dest", HStr "document");
   ("sec-fetch-mode", HStr "navigate");
   ("sec-fetch-site", HStr "none");
   ("sec-fetch-user", HStr "?1");
   ("sec-ch-ua", HStr sec_ch_ua_value);
   ("sec-ch-ua-mobile", HStr "?0");
   ("sec-ch-ua-platform", HStr sec_ch_ua_platform_value)].

(** The own properties left after the deletion loop of [removeHeaders]. *)
Definition strip_all (names : list string) (o : list (string * hval))
    : list (string * hval) :=
  fold_left
    (fun acc header => JsMap.remove (toUpperCase header) (JsMap.remove header acc))
    names o.


(** The own properties of the object a computation returns. *)
Definition result_object (m : M loc) (h : gmap loc (list (string * hval)))
    : option (list (string * hval)) :=
  match m h with
  | Ok (l, h1) => h1 !! l
  | Throw _ => None
  end.


(** *** Arbitrary use of one engine *)

(** One call of the public API of [SessionEngine]. *)
Inductive Call : Type :=
| CallCreateSession (c : CreateCall)
| CallGetSession (sessionId : string) (tk : Tick)
| CallSetCookie (sessionId name value : string) (domain : option string) (tk : Tick)
| CallGetCookie (sessionId name : string) (domain : option string) (tk : Tick)
| CallSetLocalStorage (sessionId key value : string) (tk : Tick)
| CallGetLocalStorage (sessionId key : string) (tk : Tick)
| CallLogRequest (sessionId : string) (c : LogCall)
| CallGetStats
| CallDeleteSession (sessionId : string)
| CallClearAllSessions
| CallGetSessionDetails (sessionId : string) (tk : Tick).

(** The store after one call; [None] if the call raises. *)
Definition step (call : Call) (st : Store) : option Store :=
  match call with
  | CallCreateSession c => snd <$> createSession c st
  | CallGetSession sessionId tk => Some (snd (getSession sessionId tk st))
  | CallSetCookie sessionId name value domain tk =>
      Some (snd (setCookie sessionId name value domain tk st))
  | CallGetCookie sessionId name domain tk =>
      Some (snd (getCookie sessionId name domain tk st))
  | CallSetLocalStorage sessionId key value tk =>
      Some (snd (setLocalStorage sessionId key value tk st))
  | CallGetLocalStorage sessionId key tk =>
      Some (snd (getLocalStorage sessionId key tk st))
  | CallLogRequest sessionId c => Some (snd (logRequest sessionId c st))
  | CallGetStats => Some st
  | CallDeleteSession sessionId => Some (snd (deleteSession sessionId st))
  | CallClearAllSessions => Some (clearAllSessions st)
  | CallGetSessionDetails sessionId tk =>
      Some (snd (getSessionDetails sessionId tk st))
  end.

Fixpoint run (calls : list Call) (st : Store) : option Store :=
  match calls with
  | [] => Some st
  | call :: calls' =>
      match step call st with
      | Some st1 => run calls' st1
      | None => None
      end
  end.

(** Every stored history holds at most 1000 entries. *)
Definition bounded (st : Store) : Prop :=
  Forall (fun kv => (length (requestHistory (snd kv)) <= 1000)%nat) st.


(** The session a call addresses, for the calls that take a session id. *)
Definition call_session (call : Call) : option string :=
  match call with
  | CallCreateSession _ => None
  | CallGetSession sessionId _ => Some sessionId
  | CallSetCookie sessionId _ _ _ _ => Some sessionId
  | CallGetCookie sessionId _ _ _ => Some sessionId
  | CallSetLocalStorage sessionId _ _ _ => Some sessionId
  | CallGetLocalStorage sessionId _ _ => Some sessionId
  | CallLogRequest sessionId _ => Some sessionId
  | CallGetStats => None
  | CallDeleteSession sessionId => Some sessionId
  | CallClearAllSessions => None
  | CallGetSessionDetails sessionId _ => Some sessionId
  end.

(** The id a call may (re)create, for [createSession]. *)
Definition call_creates (call : Call) : option string :=
  match call with
  | CallCreateSession c => Some (generateSessionId (cc_idBytes c))
  | _ => None
  end.

(** The session [createSession] makes of the call [ex_create 1]. *)
Definition ex_created : SessionData :=
  {| id := "01"; createdAt := 1; lastAccessedAt := 1;
     cookies := []; localStorage := []; sessionStorage := [];
     browserFingerprint := generateBrowserFingerprint None ex_draws;
     customProxy := None; requestHistory := [] |}.

(** No cookie and no localStorage item is filed under [__proto__]. *)
Definition proto_free_session (s : SessionData) : Prop :=
  JsMap.get "__proto__" (cookies s) = None /\
  JsMap.get "__proto__" (localStorage s) = None.

Definition proto_free (st : Store) : Prop :=
  Forall (fun kv => proto_free_session (snd kv)) st.

(** A second stored session, older than [ex_session]. *)
Definition ex_session2 : SessionData :=
  {| id := "s2"; createdAt := 500; lastAccessedAt := 500;
     cookies := [("theme", "dark")]; localStorage := []; sessionStorage := [];
     browserFingerprint := ex_fingerprint; customProxy := None;
     requestHistory := [] |}.

Definition ex_store2 : Store := [("s1", ex_session); ("s2", ex_session2)].


(** What of a session is fixed when it is created. *)
Definition same_identity (s s1 : SessionData) : Prop :=
  id s1 = id s /\ createdAt s1 = createdAt s /\
  browserFingerprint s1 = browserFingerprint s /\
  sessionStorage s1 = sessionStorage s /\
  customProxy s1 = customProxy s.

(** One creation followed by a thousand logged requests on the new
    session, and the store they leave. *)
Definition ex_busy_calls : list Call :=
  CallCreateSession (ex_create 1)
  :: map (fun i => CallLogRequest "01" (ex_log (Z.of_nat i) "/")) (seq 0 1000).

Definition ex_busy_store : Store := default [] (run ex_busy_calls []).

(** The store after one hundred creations with ids ["00"] to ["63"]. *)
Definition ex_full_store : Store :=
  default [] (createSessions (ex_creates 100) []).


(** *** Vocabulary for strings of a given alphabet *)

(** Every character of [s] satisfies [p]. *)
Fixpoint all_chars (p : ascii -> bool) (s : string) : bool :=
  match s with
  | EmptyString => true
  | String c s' => p c && all_chars p s'
  end.

(** [c] occurs in [alphabet]. *)
Fixpoint char_in (alphabet : string) (c : ascii) : bool :=
  match alphabet with
  | EmptyString => false
  | String a rest => Ascii.eqb a c || char_in rest c
  end.

(** Reads two lower-case hex digits back into a byte; used to show that
    [generateSessionId] loses nothing of the random buffer. *)
Fixpoint char_index (alphabet : string) (c : ascii) : option nat :=
  match alphabet with
  | EmptyString => None
  | String a rest =>
      if Ascii.eqb a c then Some 0%nat
      else option_map S (char_index rest c)
  end.

Definition unhex_digit (c : ascii) : option N :=
  option_map N.of_nat (char_index "0123456789abcdef" c).

Definition unhex_byte (c1 c2 : ascii) : option byte :=
  match unhex_digit c1, unhex_digit c2 with
  | Some d1, Some d2 => Byte.of_N (16 * d1 + d2)
  | _, _ => None
  end.

(** Overrides that leave the archetype fields to the generator. *)
Definition timezone_override : PartialFingerprint :=
  {| p_userAgent := None; p_acceptLanguage := None; p_acceptEncoding := None;
     p_timezone := Some "Europe/Paris"; p_screenResolution := None;
     p_colorDepth := None; p_platform := None; p_hardwareConcurrency := None;
     p_deviceMemory := None; p_webGLVendor := None; p_webGLRenderer := None;
     p_canvas := None; p_webRTC := None |}.


(** *** Vocabulary for the header pipeline *)

(** Every object of [h] is in [h1] with the same own properties. *)
Definition preserves (h h1 : gmap loc (list (string * hval))) : Prop :=
  forall l o, h !! l = Some o -> h1 !! l = Some o.

(** No property name of an object has an ASCII capital letter, as is the
    case of the names of [IncomingMessage.headers]. *)
Definition lower_case_keys (o : list (string * hval)) : Prop :=
  Forall (fun kv => map_string lower_ascii (fst kv) = fst kv) o.

(** Every property name of an object is its own [toLowerCase]. *)
Definition lower_cased_names (o : list (string * hval)) : Prop :=
  Forall (fun kv => toLowerCase (fst kv) = fst kv) o.

(** Every character of [s] is an ASCII character. *)
Definition is_ascii (s : string) : bool :=
  all_chars (fun c => (nat_of_ascii c <? 128)%nat) s.

(** [o[k1] = v1; ...; o[kn] = vn] with computed names. *)
Definition write_all (kvs : list (string * hval)) (o : list (string * hval))
    : list (string * hval) :=
  fold_left (fun acc kv => prop_write (fst kv) (snd kv) acc) kvs o.

Definition referer_of (u : URL) (draw : nat) : string :=
  "https://" +:+ hostname u +:+ pick referer_paths draw "/".

(** The four assignments that end [fullSpoof]. *)
Definition forced_assignments (referer : string) : list (string * hval) :=
  [("referer", HStr referer);
   ("upgrade-insecure-requests", HStr "1");
   ("cache-control", HStr "max-age=0");
   ("pragma", HStr "no-cache")].

(** The own properties of the object [fullSpoof] returns, from those of
    its input. *)
Definition full_spoof_obj (u : URL) (d : SpoofDraws) (dref : nat)
    (o : list (string * hval)) : list (string * hval) :=
  assign_all (forced_assignments (referer_of u dref))
    (strip_all SECURITY_HEADERS
       (strip_all TRACKING_HEADERS (assign_all (spoof_assignments d) o))).

(** A header object with lower-case names. *)
Definition node_headers : list (string * hval) :=
  [("host", HStr "proxy.local");
   ("x-forwarded-for", HStr "203.0.113.7");
   ("user-agent", HStr "curl/8.0");
   ("cf-ray", HStr "8a1b2c3d")].

Definition node_heap : gmap loc (list (string * hval)) :=
  {[ 1%positive := node_headers ]}.


(** [Object.entries(o)] with every name lower-cased, as the last loop of
    [modifyRequest] uses them. *)
Definition lower_keys (o : list (string * hval)) : list (string * hval) :=
  map (fun kv => (toLowerCase (fst kv), snd kv)) o.

(** The caller's header overrides as [modifyRequest] assigns them. *)
Definition custom_assignments (custom : list (string * string))
    : list (string * hval) :=
  map (fun kv => (toLowerCase (fst kv), HStr (snd kv))) custom.

(** The spoofed object after the caller's headers and user agent have been
    laid over it. *)
Definition overlay_config (config : ProxyConfig) (spoofed : list (string * hval))
    : list (string * hval) :=
  let with_custom :=
    match cfg_headers config with
    | Some custom => write_all (custom_assignments custom) spoofed
    | None => spoofed
    end in
  match cfg_userAgent config with
  | Some ua =>
      if truthy_str ua then JsMap.set "user-agent" (HStr ua) with_custom
      else with_custom
  | None => with_custom
  end.

(** The own properties of [req.headers] when [modifyRequest] returns. *)
Definition forwarded_headers (config : ProxyConfig) (u : URL) (env : ReqEnv)
    (o : list (string * hval)) : list (string * hval) :=
  write_all
    (lower_keys
       (overlay_config config
          (full_spoof_obj u (e_spoof env) (e_refererPath env) o)))
    o.

Definition node_request (m : string) : IncomingMessage :=
  {| im_method := Some m; im_url := Some "/search?q=1"; im_headers := 1%positive |}.

(** The header name [X-] followed by the capital E with acute accent
    (code unit 201). *)
Definition x_E_acute : string := "X-" +:+ String (ascii_of_nat 201) "".

Definition custom_config : ProxyConfig :=
  {| targetUrl := "https://example.com/base?x=1";
     cfg_headers := Some [("Accept-Language", "fr-FR"); (x_E_acute, "1")];
     cfg_userAgent := Some "MyAgent/2.0"; cfg_stripHeaders := None |}.


(** The value the caller's header overrides give the name [k]: that of
    the last override whose name [toLowerCase] sends to [k]. *)
Definition custom_value (custom : list (string * string)) (k : string)
    : option hval :=
  JsMap.get k (assign_all (custom_assignments custom) []).


(* ===================================================================== *)
(** ** proxy.ts: the [proxyRes] listener *)
(* ===================================================================== *)

(** The listener body; [headers] is [proxyRes.headers], changed in place. *)
Definition on_proxyRes (headers : loc) : M unit :=
  obj_assign headers "access-control-allow-origin" (HStr "*");;
  obj_assign headers "access-control-allow-methods"
    (HStr "GET, POST, PUT, DELETE, OPTIONS");;
  obj_assign headers "access-control-allow-headers"
    (HStr "Content-Type, Authorization");;
  obj_assign headers "cache-control" (HStr "no-cache, no-store, must-revalidate");;
  obj_delete headers "x-frame-options";;
  obj_delete headers "content-security-policy";;
  obj_delete headers "x-content-type-options".

(** [proxy-advanced.ts]: [getUserAgentForBrowser]. *)
Inductive BrowserFamily : Type := chrome | firefox | safari | edge.

Definition agents_of (browser : BrowserFamily) : list string :=
  match browser with
  | chrome => BROWSER_USER_AGENTS_chrome
  | firefox => BROWSER_USER_AGENTS_firefox
  | safari => BROWSER_USER_AGENTS_safari
  | edge => BROWSER_USER_AGENTS_edge
  end.

Definition getUserAgentForBrowser (browser : BrowserFamily) (draw : nat) : string :=
  let agents := agents_of browser in
  pick agents draw (hd "" agents).

(* ===================================================================== *)
(** ** browser-emulator.ts *)
(* ===================================================================== *)

Definition headersToRemove : list string :=
  ["x-frame-options"; "content-security-policy"; "x-content-type-options";
   "x-xss-protection"; "strict-transport-security"; "referrer-policy";
   "x-powered-by"; "server"; "x-aspnet-version"; "x-runtime"; "x-request-id";
   "x-cache"; "x-cache-hits"; "x-served-by"; "x-proxy-cache"].

Definition cleanResponseHeaders (headers : loc) : M loc :=
  cleaned ← obj_spread headers;
  forEach headersToRemove (fun header =>
    obj_delete cleaned header;;
    obj_delete cleaned (toUpperCase header));;
  ret cleaned.

Definition newline : string := String (ascii_of_nat 10) EmptyString.

(** [arr.join(sep)] *)
Fixpoint join (sep : string) (arr : list string) : string :=
  match arr with
  | [] => EmptyString
  | [x] => x
  | x :: rest => x +:+ sep +:+ join sep rest
  end.

(** The text before and after the first occurrence of [needle] in [s]. *)
Fixpoint find_first (needle s : string) : option (string * string) :=
  if String.prefix needle s
  then Some (EmptyString, String.substring (String.length needle)
                            (String.length s - String.length needle) s)
  else match s with
       | EmptyString => None
       | String c rest =>
           match find_first needle rest with
           | Some (before, after) => Some (String c before, after)
           | None => None
           end
       end.

(** [s.includes(needle)] *)
Definition includes (needle s : string) : bool :=
  match find_first needle s with
  | Some _ => true
  | None => false
  end.

(** The expansion of a replacement text for [String.prototype.replace]
    with a string pattern (no capture groups): [$$] is a dollar sign,
    [$&] the matched text, [$`] the text before the match, [$'] the text
    after it; every other character, a lone [$] included, stands for
    itself. *)
Fixpoint get_substitution (matched before after replacement : string) : string :=
  match replacement with
  | EmptyString => EmptyString
  | String c rest =>
      if Ascii.eqb c "$" then
        match rest with
        | String c2 rest2 =>
            if Ascii.eqb c2 "$" then
              String "$" (get_substitution matched before after rest2)
            else if Ascii.eqb c2 "&" then
              matched +:+ get_substitution matched before after rest2
            else if Ascii.eqb c2 "`" then
              before +:+ get_substitution matched before after rest2
            else if Ascii.eqb c2 "'" then
              after +:+ get_substitution matched before after rest2
            else String c (get_substitution matched before after rest)
        | EmptyString => String c EmptyString
        end
      else String c (get_substitution matched before after rest)
  end.

(** [s.replace(pattern, replacement)] for a string [pattern]: the first
    occurrence only. *)
Definition replace_first (pattern replacement s : string) : string :=
  match find_first pattern s with
  | Some (before, after) =>
      before +:+ get_substitution pattern before after replacement +:+ after
  | None => s
  end.

Definition injectionScript (scripts : list string) : string :=
  newline +:+ "<script>" +:+ newline +:+ join newline scripts +:+ newline
  +:+ "</script>" +:+ newline +:+ "    ".

Definition injectScriptsIntoHTML (html : string) (scripts : list string) : string :=
  if includes "</head>" html then
    replace_first "</head>" (injectionScript scripts +:+ "</head>") html
  else if includes "<body>" html then
    replace_first "<body>" ("<body>" +:+ injectionScript scripts) html
  else html +:+ injectionScript scripts.

(** No dollar sign anywhere in the scripts. *)
Definition dollar_free (scripts : list string) : bool :=
  forallb (all_chars (fun c => negb (Ascii.eqb c "$"))) scripts.

Definition response_headers : list (string * hval) :=
  [("content-type", HStr "text/html");
   ("access-control-allow-origin", HStr "https://upstream.example");
   ("strict-transport-security", HStr "max-age=63072000");
   ("x-frame-options", HStr "DENY");
   ("server", HStr "nginx")].

Definition response_heap : gmap loc (list (string * hval)) :=
  {[ 1%positive := response_headers ]}.


Definition ex_html : string :=
  "<html><head><title>t</title></head><body>x</body></html>".

(* ===================================================================== *)
(** * Properties *)
(* ===================================================================== *)

(** ** Dictionary laws *)

Section JsMapFacts.
Context {V : Type}.
Implicit Types (m : list (string * V)) (k : string) (v : V).

Lemma get_set_eq m k v : JsMap.get k (JsMap.set k v m) = Some v.
Proof.
  induction m as [|[k' v'] m IH]; simpl.
  - by rewrite String.eqb_refl.
  - destruct (String.eqb k' k) eqn:E; simpl.
    + by rewrite String.eqb_refl.
    + by rewrite E.
Qed.

Lemma get_set_ne m k k' v :
  k <> k' -> JsMap.get k' (JsMap.set k v m) = JsMap.get k' m.
Proof.
  intros Hne. induction m as [|[k0 v0] m IH]; simpl.
  - destruct (String.eqb_spec k k'); [done | reflexivity].
  - destruct (String.eqb_spec k0 k) as [->|Hk]; simpl.
    + destruct (String.eqb_spec k k'); [done | reflexivity].
    + destruct (String.eqb_spec k0 k'); [reflexivity | apply IH].
Qed.

Lemma get_remove_eq m k : JsMap.get k (JsMap.remove k m) = None.
Proof.
  induction m as [|[k' v'] m IH]; simpl; [done|].
  destruct (String.eqb k' k) eqn:E; simpl; [done|]. by rewrite E.
Qed.

Lemma get_remove_ne m k k' :
  k <> k' -> JsMap.get k' (JsMap.remove k m) = JsMap.get k' m.
Proof.
  intros Hne. induction m as [|[k0 v0] m IH]; simpl; [done|].
  destruct (String.eqb_spec k0 k) as [->|Hk]; simpl.
  - destruct (String.eqb_spec k k'); [done | apply IH].
  - destruct (String.eqb_spec k0 k'); [reflexivity | apply IH].
Qed.

(** Deleting a key that is not there leaves the dictionary as it is. *)
Lemma remove_absent m k : JsMap.get k m = None -> JsMap.remove k m = m.
Proof.
  induction m as [|[k' v'] m IH]; simpl; [done|].
  destruct (String.eqb k' k); [done|]. intros H. by rewrite IH.
Qed.

Lemma has_absent m k : JsMap.get k m = None -> JsMap.has k m = false.
Proof. unfold JsMap.has. by intros ->. Qed.

Lemma get_in_keys m k v : JsMap.get k m = Some v -> k ∈ JsMap.keys m.
Proof.
  induction m as [|[k' v'] m IH]; simpl; [done|].
  destruct (String.eqb_spec k' k) as [->|Hk]; intros H.
  - apply list_elem_of_here.
  - apply list_elem_of_further, IH, H.
Qed.

Lemma not_in_keys_get m k : k ∉ JsMap.keys m -> JsMap.get k m = None.
Proof.
  intros Hk. destruct (JsMap.get k m) eqn:E; [|done].
  by apply get_in_keys in E.
Qed.

Lemma size_set_le m k v : (JsMap.size (JsMap.set k v m) <= S (JsMap.size m))%nat.
Proof.
  unfold JsMap.size. induction m as [|[k' v'] m IH]; simpl; [lia|].
  destruct (String.eqb k' k); simpl; lia.
Qed.

Lemma size_remove_le m k : (JsMap.size (JsMap.remove k m) <= JsMap.size m)%nat.
Proof.
  unfold JsMap.size. induction m as [|[k' v'] m IH]; simpl; [lia|].
  destruct (String.eqb k' k); simpl; lia.
Qed.

Lemma size_remove_lt m k v :
  JsMap.get k m = Some v -> (JsMap.size (JsMap.remove k m) < JsMap.size m)%nat.
Proof.
  unfold JsMap.size. induction m as [|[k' v'] m IH]; simpl; [done|].
  destruct (String.eqb k' k); simpl.
  - intros _. pose proof (size_remove_le m k) as Hle.
    unfold JsMap.size in Hle. lia.
  - intros H. apply IH in H. lia.
Qed.

Lemma keys_remove_sub m k k' :
  k' ∈ JsMap.keys (JsMap.remove k m) -> k' ∈ JsMap.keys m.
Proof.
  induction m as [|[k0 v0] m IH]; simpl; [done|].
  destruct (String.eqb k0 k); simpl.
  - intros H. apply list_elem_of_further, IH, H.
  - intros [->|H]%elem_of_cons.
    + apply list_elem_of_here.
    + apply list_elem_of_further, IH, H.
Qed.

Lemma nodup_remove m k : NoDup (JsMap.keys m) -> NoDup (JsMap.keys (JsMap.remove k m)).
Proof.
  induction m as [|[k0 v0] m IH]; simpl; [done|].
  intros [Hni Hnd]%NoDup_cons. destruct (String.eqb k0 k); simpl.
  - by apply IH.
  - apply NoDup_cons. split; [|by apply IH].
    intros Hin. by apply Hni, (keys_remove_sub m k).
Qed.

Lemma keys_set_sub m k v k' :
  k' ∈ JsMap.keys (JsMap.set k v m) -> k' = k \/ k' ∈ JsMap.keys m.
Proof.
  induction m as [|[k0 v0] m IH]; simpl.
  - intros ->%list_elem_of_singleton. by left.
  - destruct (String.eqb_spec k0 k) as [->|Hk]; simpl.
    + intros [->|H]%elem_of_cons; [by left|].
      right. by apply list_elem_of_further.
    + intros [->|H]%elem_of_cons.
      * right. apply list_elem_of_here.
      * destruct (IH H) as [->|H']; [by left|].
        right. by apply list_elem_of_further.
Qed.

Lemma nodup_set m k v : NoDup (JsMap.keys m) -> NoDup (JsMap.keys (JsMap.set k v m)).
Proof.
  induction m as [|[k0 v0] m IH]; simpl.
  - intros _. apply NoDup_singleton.
  - intros [Hni Hnd]%NoDup_cons.
    destruct (String.eqb_spec k0 k) as [->|Hk]; simpl.
    + by apply NoDup_cons.
    + apply NoDup_cons. split; [|by apply IH].
      intros [->|Hin]%keys_set_sub; [done | by apply Hni].
Qed.

(** With one entry per key, every stored value is what its key reads. *)
Lemma nodup_get_in m k v :
  NoDup (JsMap.keys m) -> (k, v) ∈ m -> JsMap.get k m = Some v.
Proof.
  induction m as [|[k0 v0] m IH]; simpl.
  - by intros _ ?%not_elem_of_nil.
  - intros [Hni Hnd]%NoDup_cons Hin.
    apply elem_of_cons in Hin as [[= -> ->]|Hin].
    + by rewrite String.eqb_refl.
    + destruct (String.eqb_spec k0 k) as [->|Hk]; [|by apply IH].
      exfalso. apply Hni. unfold JsMap.keys.
      apply list_elem_of_fmap. by exists (k, v).
Qed.
Lemma size_set_present m k v v' :
  JsMap.get k m = Some v' -> JsMap.size (JsMap.set k v m) = JsMap.size m.
Proof.
  unfold JsMap.size. induction m as [|[k0 v0] m IH]; simpl; [done|].
  destruct (String.eqb k0 k); simpl; [done|]. intros H. by rewrite IH.
Qed.

Lemma Forall_set (P : string * V -> Prop) m k v :
  P (k, v) -> Forall P m -> Forall P (JsMap.set k v m).
Proof.
  intros HP. induction m as [|[k0 v0] m IH]; simpl.
  - intros _. by apply Forall_singleton.
  - intros [Hhd Htl]%Forall_cons. destruct (String.eqb k0 k).
    + by apply Forall_cons.
    + apply Forall_cons. split; [done | by apply IH].
Qed.

Lemma Forall_remove (P : string * V -> Prop) m k :
  Forall P m -> Forall P (JsMap.remove k m).
Proof.
  induction m as [|[k0 v0] m IH]; simpl; [done|].
  intros [Hhd Htl]%Forall_cons. destruct (String.eqb k0 k).
  - by apply IH.
  - apply Forall_cons. split; [done | by apply IH].
Qed.

Lemma Forall_get (P : string * V -> Prop) m k v :
  Forall P m -> JsMap.get k m = Some v -> P (k, v).
Proof.
  induction m as [|[k0 v0] m IH]; simpl; [done|].
  intros [Hhd Htl]%Forall_cons.
  destruct (String.eqb_spec k0 k) as [->|Hne].
  - by intros [= ->].
  - by apply IH.
Qed.
End JsMapFacts.

(** ** Reading and writing a plain object *)

Lemma append_nil_l (x : string) : EmptyString +:+ x = x.
Proof. reflexivity. Qed.

Lemma append_cons c (a x : string) : String c a +:+ x = String c (a +:+ x).
Proof. reflexivity. Qed.

Section PropFacts.
Context {V : Type}.
Implicit Types (o : list (string * V)) (k : string) (v : V).

Lemma prop_write_set o k v :
  k <> "__proto__" -> prop_write k v o = JsMap.set k v o.
Proof.
  intros Hk. unfold prop_write.
  by destruct (String.eqb_spec k "__proto__").
Qed.

(** A string (or any value) written under [__proto__] is dropped. *)
Lemma prop_write_proto o v :
  JsMap.get "__proto__" o = None -> prop_write "__proto__" v o = o.
Proof. intros H. unfold prop_write, JsMap.has. by rewrite H. Qed.

Lemma get_prop_write_eq o k v :
  k <> "__proto__" -> JsMap.get k (prop_write k v o) = Some v.
Proof. intros Hk. rewrite prop_write_set by done. apply get_set_eq. Qed.

Lemma get_prop_write_ne o k k' v :
  k <> k' -> JsMap.get k' (prop_write k v o) = JsMap.get k' o.
Proof.
  intros Hne. unfold prop_write.
  destruct (_ && _); [done | by apply get_set_ne].
Qed.

Lemma get_prop_write_keeps o k k' v :
  is_Some (JsMap.get k' o) -> is_Some (JsMap.get k' (prop_write k v o)).
Proof.
  intros H. unfold prop_write. destruct (_ && _); [done|].
  destruct (decide (k = k')) as [->|Hne].
  - rewrite get_set_eq. by eexists.
  - by rewrite get_set_ne.
Qed.

Lemma prop_read_write_eq o k v :
  k <> "__proto__" -> prop_read k (prop_write k v o) = Some (OwnValue v).
Proof. intros Hk. unfold prop_read. by rewrite get_prop_write_eq. Qed.

Lemma prop_read_write_ne o k k' v :
  k <> k' -> prop_read k' (prop_write k v o) = prop_read k' o.
Proof. intros Hne. unfold prop_read. by rewrite get_prop_write_ne. Qed.

Lemma prop_read_own o k v :
  JsMap.get k o = Some v -> prop_read k o = Some (OwnValue v).
Proof. intros H. unfold prop_read. by rewrite H. Qed.
End PropFacts.

(** A composite cookie key has a colon, which [__proto__] has not. *)
Lemma composite_key_not_proto (d n : string) : d +:+ ":" +:+ n <> "__proto__".
Proof.
  intros H.
  assert (Hc : includes_char ":" (d +:+ ":" +:+ n) = true).
  { clear H. induction d as [|c d IH]; [reflexivity|].
    rewrite append_cons. simpl. by destruct (Ascii.eqb c ":"). }
  by rewrite H in Hc.
Qed.

(** ** getSession *)

(** Closes [tick_ok] goals on concrete clock readings. *)
Ltac solve_tick := unfold tick_ok, SESSION_TIMEOUT; simpl; lia.

Lemma getSession_unknown st sessionId tk :
  JsMap.get sessionId st = None -> getSession sessionId tk st = (None, st).
Proof. unfold getSession. by intros ->. Qed.

Lemma tick_ok_not_stale tk s :
  tick_ok tk ->
  (check tk - lastAccessedAt (with_lastAccessedAt (touch tk) s) >? SESSION_TIMEOUT)
  = false.
Proof. unfold tick_ok. simpl. intros H. rewrite Z.gtb_ltb. apply Z.ltb_ge. lia. Qed.

Lemma getSession_present st sessionId s tk :
  JsMap.get sessionId st = Some s ->
  tick_ok tk ->
  getSession sessionId tk st =
    (Some (with_lastAccessedAt (touch tk) s),
     JsMap.set sessionId (with_lastAccessedAt (touch tk) s) st).
Proof.
  intros Hget Hok. unfold getSession. rewrite Hget.
  by rewrite (tick_ok_not_stale tk s Hok).
Qed.

(** When the staleness test does fire (the clock moved by more than the
    timeout between the two readings), the id is gone afterwards. *)
Lemma getSession_stale_unknown st sessionId s tk :
  JsMap.get sessionId st = Some s ->
  ~ tick_ok tk ->
  fst (getSession sessionId tk st) = None /\
  JsMap.get sessionId (snd (getSession sessionId tk st)) = None.
Proof.
  intros Hget Hbad. unfold getSession. rewrite Hget.
  replace (check tk - lastAccessedAt (with_lastAccessedAt (touch tk) s)
           >? SESSION_TIMEOUT) with true.
  - simpl. split; [done | apply get_remove_eq].
  - symmetry. unfold tick_ok in Hbad. simpl. rewrite Z.gtb_ltb. apply Z.ltb_lt. lia.
Qed.

Lemma deleteSession_unknown_after st sessionId :
  JsMap.get sessionId (snd (deleteSession sessionId st)) = None.
Proof. apply get_remove_eq. Qed.

(** C2: for a session id present in the store, [getSession] first writes
    the current time into [lastAccessedAt]; the staleness test
    [now - lastAccessedAt > SESSION_TIMEOUT] evaluated next is false, the
    delete branch is not taken, and the (touched) session is returned and
    still stored, however old its previous [lastAccessedAt] was. The two
    clock readings of the call, [new Date()] and [Date.now()], are taken
    to be no more than the timeout apart ([tick_ok]). *)
Theorem getSession_touch_defeats_timeout st sessionId s tk :
  JsMap.get sessionId st = Some s ->
  tick_ok tk ->
  let touched := with_lastAccessedAt (touch tk) s in
  (check tk - lastAccessedAt touched >? SESSION_TIMEOUT) = false /\
  getSession sessionId tk st = (Some touched, JsMap.set sessionId touched st) /\
  JsMap.get sessionId (snd (getSession sessionId tk st)) = Some touched.
Proof.
  intros Hget Hok touched. split; [by apply tick_ok_not_stale|].
  rewrite (getSession_present st sessionId s tk Hget Hok).
  split; [done | apply get_set_eq].
Qed.

(** A session last touched at t = 1000 ms is read ten days later. *)
Lemma getSession_touch_defeats_timeout_witness :
  let tk := ex_tick 864001000 in
  let touched := with_lastAccessedAt 864001000 ex_session in
  864001000 - lastAccessedAt ex_session > SESSION_TIMEOUT /\
  (check tk - lastAccessedAt touched >? SESSION_TIMEOUT) = false /\
  getSession "s1" tk ex_store = (Some touched, JsMap.set "s1" touched ex_store) /\
  JsMap.get "s1" (snd (getSession "s1" tk ex_store)) = Some touched.
Proof.
  split; [reflexivity|].
  apply (getSession_touch_defeats_timeout ex_store "s1" ex_session
           (ex_tick 864001000)).
  - reflexivity.
  - solve_tick.
Defined.

(** ** Unknown session ids *)

(** C7: on a session id the store does not hold, [setCookie],
    [setLocalStorage] and [logRequest] return [false], [getCookie] and
    [getLocalStorage] return [undefined], [getSessionDetails] returns
    [null], [deleteSession] returns [false], and each leaves the store as
    it was. None of them has a raising step. *)
Theorem unknown_id_degrades_gracefully
    st sessionId tk name value key (domain : option string) c :
  JsMap.get sessionId st = None ->
  setCookie sessionId name value domain tk st = (false, st) /\
  getCookie sessionId name domain tk st = (None, st) /\
  setLocalStorage sessionId key value tk st = (false, st) /\
  getLocalStorage sessionId key tk st = (None, st) /\
  logRequest sessionId c st = (false, st) /\
  getSessionDetails sessionId tk st = (None, st) /\
  deleteSession sessionId st = (false, st).
Proof.
  intros Hget.
  unfold setCookie, getCookie, setLocalStorage, getLocalStorage, logRequest,
    getSessionDetails, deleteSession.
  rewrite !(getSession_unknown st sessionId _ Hget).
  rewrite (has_absent st sessionId Hget), (remove_absent st sessionId Hget).
  repeat split.
Qed.

Lemma unknown_id_degrades_gracefully_witness :
  JsMap.get "nope" ex_store = None /\
  setCookie "nope" "sid" "abc123" (Some "example.com") (ex_tick 5) ex_store
    = (false, ex_store) /\
  getCookie "nope" "sid" (Some "example.com") (ex_tick 5) ex_store
    = (None, ex_store) /\
  setLocalStorage "nope" "k" "abc123" (ex_tick 5) ex_store = (false, ex_store) /\
  getLocalStorage "nope" "k" (ex_tick 5) ex_store = (None, ex_store) /\
  logRequest "nope" (ex_log 5 "/") ex_store = (false, ex_store) /\
  getSessionDetails "nope" (ex_tick 5) ex_store = (None, ex_store) /\
  deleteSession "nope" ex_store = (false, ex_store).
Proof.
  split; [reflexivity|].
  apply (unknown_id_degrades_gracefully ex_store "nope" (ex_tick 5)
           "sid" "abc123" "k" (Some "example.com") (ex_log 5 "/")).
  reflexivity.
Defined.

(** ** Cookie keys *)

Lemma cookie_key_domain name d :
  d <> "" -> cookie_key name (Some d) = d +:+ ":" +:+ name.
Proof. unfold cookie_key. destruct d; [done | reflexivity]. Qed.

Lemma setCookie_present st sessionId s name value domain tk :
  JsMap.get sessionId st = Some s ->
  tick_ok tk ->
  setCookie sessionId name value domain tk st =
    (true,
     JsMap.set sessionId
       (with_cookies
          (prop_write (cookie_key name domain) value (cookies s))
          (with_lastAccessedAt (touch tk) s))
       (JsMap.set sessionId (with_lastAccessedAt (touch tk) s) st)).
Proof.
  intros Hget Hok. unfold setCookie.
  by rewrite (getSession_present st sessionId s tk Hget Hok).
Qed.

Lemma setCookie_get st sessionId s name value domain tk :
  JsMap.get sessionId st = Some s ->
  tick_ok tk ->
  JsMap.get sessionId (snd (setCookie sessionId name value domain tk st)) =
    Some (with_cookies
            (prop_write (cookie_key name domain) value (cookies s))
            (with_lastAccessedAt (touch tk) s)).
Proof.
  intros Hget Hok.
  rewrite (setCookie_present st sessionId s name value domain tk Hget Hok).
  apply get_set_eq.
Qed.

Lemma getCookie_present st sessionId s name domain tk :
  JsMap.get sessionId st = Some s ->
  tick_ok tk ->
  fst (getCookie sessionId name domain tk st) =
    prop_read (cookie_key name domain) (cookies s).
Proof.
  intros Hget Hok. unfold getCookie.
  by rewrite (getSession_present st sessionId s tk Hget Hok).
Qed.

(** C10: with a (non-empty) domain [d], [setCookie(id, n, v, d)] files
    the value in the session's cookies under the key ["d:n"] and changes
    no other key; that is the key a domain-less call uses for the literal
    name ["d:n"], so the domain-less [setCookie(id, "d:n", v)] produces the
    very same store. Hence afterwards a domain-less [getCookie(id, "d:n")]
    returns [v], as [getCookie(id, n, d)] does, and a later domain-less
    [setCookie(id, "d:n", w)] overwrites what is filed under ["d:n"] and
    what [getCookie(id, n, d)] reads. *)
Theorem cookie_key_forms_alias st sessionId s n v w d tk1 tk2 tk3 tk4 :
  JsMap.get sessionId st = Some s ->
  d <> "" ->
  tick_ok tk1 -> tick_ok tk2 -> tick_ok tk3 -> tick_ok tk4 ->
  let dn := d +:+ ":" +:+ n in
  let st1 := snd (setCookie sessionId n v (Some d) tk1 st) in
  let st2 := snd (setCookie sessionId dn w None tk3 st1) in
  (exists s1, JsMap.get sessionId st1 = Some s1 /\
     JsMap.get dn (cookies s1) = Some v /\
     forall k, k <> dn -> JsMap.get k (cookies s1) = JsMap.get k (cookies s)) /\
  snd (setCookie sessionId dn v None tk1 st) = st1 /\
  fst (getCookie sessionId dn None tk2 st1) = Some (OwnValue v) /\
  fst (getCookie sessionId n (Some d) tk2 st1) = Some (OwnValue v) /\
  (exists s2, JsMap.get sessionId st2 = Some s2 /\
     JsMap.get dn (cookies s2) = Some w) /\
  fst (getCookie sessionId n (Some d) tk4 st2) = Some (OwnValue w).
Proof.
  intros Hget Hd H1 H2 H3 H4 dn st1 st2.
  assert (Hkd : cookie_key n (Some d) = dn) by (by apply cookie_key_domain).
  assert (Hkn : cookie_key dn None = dn) by reflexivity.
  assert (Hproto : dn <> "__proto__") by apply composite_key_not_proto.
  pose proof (setCookie_get st sessionId s n v (Some d) tk1 Hget H1) as Hst1.
  fold st1 in Hst1. rewrite Hkd in Hst1.
  pose proof (setCookie_get st1 sessionId _ dn w None tk3 Hst1 H3) as Hst2.
  fold st2 in Hst2. rewrite Hkn in Hst2.
  split; [|split; [|split; [|split; [|split]]]].
  - eexists. split; [exact Hst1|]. cbn [cookies with_cookies with_lastAccessedAt].
    split; [by apply get_prop_write_eq|].
    intros k Hk. by apply get_prop_write_ne.
  - subst st1.
    rewrite (setCookie_present st sessionId s dn v None tk1 Hget H1).
    rewrite (setCookie_present st sessionId s n v (Some d) tk1 Hget H1).
    by rewrite Hkd, Hkn.
  - rewrite (getCookie_present st1 sessionId _ dn None tk2 Hst1 H2).
    cbn [cookies with_cookies with_lastAccessedAt]. rewrite Hkn.
    by apply prop_read_write_eq.
  - rewrite (getCookie_present st1 sessionId _ n (Some d) tk2 Hst1 H2).
    cbn [cookies with_cookies with_lastAccessedAt]. rewrite Hkd.
    by apply prop_read_write_eq.
  - eexists. split; [exact Hst2|]. cbn [cookies with_cookies with_lastAccessedAt].
    by apply get_prop_write_eq.
  - rewrite (getCookie_present st2 sessionId _ n (Some d) tk4 Hst2 H4).
    cbn [cookies with_cookies with_lastAccessedAt]. rewrite Hkd.
    by apply prop_read_write_eq.
Qed.

Lemma cookie_key_forms_alias_witness :
  let st1 := snd (setCookie "s1" "sid" "abc123" (Some "example.com")
                    (ex_tick 2000) ex_store) in
  let st2 := snd (setCookie "s1" "example.com:sid" "zzz" None (ex_tick 2002) st1) in
  (exists s1, JsMap.get "s1" st1 = Some s1 /\
     JsMap.get "example.com:sid" (cookies s1) = Some "abc123" /\
     forall k, k <> "example.com:sid" ->
       JsMap.get k (cookies s1) = JsMap.get k (cookies ex_session)) /\
  snd (setCookie "s1" "example.com:sid" "abc123" None (ex_tick 2000) ex_store)
    = st1 /\
  fst (getCookie "s1" "example.com:sid" None (ex_tick 2001) st1)
    = Some (OwnValue "abc123") /\
  fst (getCookie "s1" "sid" (Some "example.com") (ex_tick 2001) st1)
    = Some (OwnValue "abc123") /\
  (exists s2, JsMap.get "s1" st2 = Some s2 /\
     JsMap.get "example.com:sid" (cookies s2) = Some "zzz") /\
  fst (getCookie "s1" "sid" (Some "example.com") (ex_tick 2003) st2)
    = Some (OwnValue "zzz").
Proof.
  apply (cookie_key_forms_alias ex_store "s1" ex_session "sid" "abc123" "zzz"
           "example.com" (ex_tick 2000) (ex_tick 2001) (ex_tick 2002)
           (ex_tick 2003)).
  - reflexivity.
  - discriminate.
  - solve_tick.
  - solve_tick.
  - solve_tick.
  - solve_tick.
Defined.

(** ** createSession: capacity and eviction order *)

Lemma fold_older_min xs x :
  fold_left older xs x ∈ x :: xs /\
  forall y, y ∈ x :: xs ->
    lastAccessedAt (fold_left older xs x) <= lastAccessedAt y.
Proof.
  revert x. induction xs as [|z xs IH]; intros x; simpl.
  - split; [apply list_elem_of_here|].
    intros y ->%list_elem_of_singleton. lia.
  - destruct (IH (older x z)) as [Hin Hmin]. split.
    + apply elem_of_cons in Hin as [Heq|Hin].
      * rewrite Heq. unfold older. destruct (_ <? _).
        -- apply list_elem_of_here.
        -- apply list_elem_of_further, list_elem_of_here.
      * by do 2 apply list_elem_of_further.
    + intros y Hy.
      assert (Hacc : lastAccessedAt (fold_left older xs (older x z))
                     <= lastAccessedAt (older x z))
        by apply Hmin, list_elem_of_here.
      assert (Hx : lastAccessedAt (older x z) <= lastAccessedAt x /\
                   lastAccessedAt (older x z) <= lastAccessedAt z).
      { unfold older. destruct (Z.ltb_spec (lastAccessedAt x) (lastAccessedAt z));
          lia. }
      apply elem_of_cons in Hy as [->|Hy]; [lia|].
      apply elem_of_cons in Hy as [->|Hy]; [lia|].
      by apply Hmin, list_elem_of_further.
Qed.

Lemma reduce_older_min l :
  l <> [] ->
  exists oldest, reduce older l = Some oldest /\ oldest ∈ l /\
    forall y, y ∈ l -> lastAccessedAt oldest <= lastAccessedAt y.
Proof.
  destruct l as [|x xs]; [done|]. intros _.
  exists (fold_left older xs x). split; [done | apply fold_older_min].
Qed.

Lemma keyed_value_entry (st : Store) s :
  keyed st -> s ∈ JsMap.values st -> (id s, s) ∈ st.
Proof.
  unfold keyed, JsMap.values. intros Hk Hin.
  apply list_elem_of_fmap in Hin as ([k s'] & -> & Hin).
  rewrite Forall_forall in Hk. specialize (Hk _ Hin). simpl in *.
  by rewrite Hk.
Qed.

Lemma keyed_remove (st : Store) k : keyed st -> keyed (JsMap.remove k st).
Proof. apply Forall_remove. Qed.

Lemma keyed_set (st : Store) k s : id s = k -> keyed st -> keyed (JsMap.set k s st).
Proof. intros Hid. by apply Forall_set. Qed.

Lemma store_ok_empty : store_ok [].
Proof.
  split.
  - apply Forall_nil_2.
  - apply NoDup_nil_2.
  - unfold JsMap.size, MAX_SESSIONS. simpl. lia.
Qed.

(** What the eviction block does on a well-formed store. *)
Lemma evict_spec st :
  store_ok st ->
  ((JsMap.size st < MAX_SESSIONS)%nat -> evict st = Some st) /\
  ((MAX_SESSIONS <= JsMap.size st)%nat ->
   exists victim,
     JsMap.get (id victim) st = Some victim /\
     (forall s, s ∈ JsMap.values st -> lastAccessedAt victim <= lastAccessedAt s) /\
     evict st = Some (JsMap.remove (id victim) st) /\
     (JsMap.size (JsMap.remove (id victim) st) < MAX_SESSIONS)%nat).
Proof.
  intros [Hk Hnd Hsz]. unfold evict. split.
  - intros Hlt. destruct (Nat.leb_spec MAX_SESSIONS (JsMap.size st)); [lia | done].
  - intros Hge. destruct (Nat.leb_spec MAX_SESSIONS (JsMap.size st)); [|lia].
    destruct (reduce_older_min (JsMap.values st)) as (victim & Hred & Hin & Hmin).
    { destruct st; [|done]. unfold JsMap.size, MAX_SESSIONS in Hge. simpl in Hge. lia. }
    exists victim. rewrite Hred.
    assert (Hget : JsMap.get (id victim) st = Some victim)
      by (apply nodup_get_in; [done | by apply keyed_value_entry]).
    split; [exact Hget|]. split; [exact Hmin|]. split; [reflexivity|].
    pose proof (size_remove_lt st (id victim) victim Hget). lia.
Qed.

Lemma createSession_ok c st :
  store_ok st ->
  exists s st1, createSession c st = Some (s, st1) /\ store_ok st1.
Proof.
  intros Hok. destruct (evict_spec st Hok) as [Hlt Hge].
  assert (Hev : exists st0, evict st = Some st0 /\ keyed st0 /\
                  NoDup (JsMap.keys st0) /\ (JsMap.size st0 < MAX_SESSIONS)%nat).
  { destruct Hok as [Hk Hnd Hsz].
    destruct (Nat.lt_ge_cases (JsMap.size st) MAX_SESSIONS) as [H|H].
    - exists st. by rewrite Hlt.
    - destruct (Hge H) as (victim & _ & _ & Hev & Hsz').
      exists (JsMap.remove (id victim) st).
      split; [exact Hev|]. split; [by apply keyed_remove|].
      split; [by apply nodup_remove | exact Hsz']. }
  destruct Hev as (st0 & Hev & Hk0 & Hnd0 & Hsz0).
  unfold createSession. rewrite Hev. eexists _, _. split; [reflexivity|].
  split.
  - by apply keyed_set.
  - by apply nodup_set.
  - pose proof (size_set_le st0 (generateSessionId (cc_idBytes c))
      {| id := generateSessionId (cc_idBytes c);
         createdAt := cc_createdAt c;
         lastAccessedAt := cc_lastAccessedAt c;
         cookies := []; localStorage := []; sessionStorage := [];
         browserFingerprint :=
           generateBrowserFingerprint (cc_overrides c) (cc_draws c);
         customProxy := None; requestHistory := [] |}).
    lia.
Qed.

Lemma createSessions_ok calls st :
  store_ok st ->
  exists st1, createSessions calls st = Some st1 /\ store_ok st1.
Proof.
  revert st. induction calls as [|c calls IH]; intros st Hok; simpl.
  - by exists st.
  - destruct (createSession_ok c st Hok) as (s & st1 & -> & Hok1).
    by apply IH.
Qed.

(** ** logRequest: the bounded history *)

Lemma slice_last_length {A : Type} (n : nat) (l : list A) :
  (length (slice_last n l) <= n)%nat.
Proof. unfold slice_last. rewrite length_drop. lia. Qed.

Lemma slice_last_short {A : Type} (n : nat) (l : list A) :
  (length l <= n)%nat -> slice_last n l = l.
Proof.
  intros H. unfold slice_last.
  replace (length l - n)%nat with 0%nat by lia. reflexivity.
Qed.

(** Trimming early does not change what the final trim keeps. *)
Lemma slice_last_app {A : Type} (n : nat) (l l' : list A) :
  slice_last n (slice_last n l ++ l') = slice_last n (l ++ l').
Proof.
  unfold slice_last.
  rewrite <- (drop_app_le l l' (length l - n)) by lia.
  rewrite drop_drop. f_equal.
  rewrite length_drop, !length_app. lia.
Qed.

Lemma push_trim_slice h e : push_trim h e = slice_last 1000 (h ++ [e]).
Proof.
  unfold push_trim.
  destruct (Nat.ltb_spec 1000 (length (h ++ [e]))); [done|].
  by rewrite slice_last_short.
Qed.

Lemma fold_push_trim es h :
  (length h <= 1000)%nat ->
  fold_left push_trim es h = slice_last 1000 (h ++ es).
Proof.
  revert h. induction es as [|e es IH]; intros h Hlen; simpl.
  - by rewrite app_nil_r, slice_last_short.
  - rewrite IH, push_trim_slice.
    + rewrite slice_last_app. by rewrite <- app_assoc.
    + rewrite push_trim_slice. apply slice_last_length.
Qed.

Lemma logRequest_unknown st sessionId c :
  JsMap.get sessionId st = None -> logRequest sessionId c st = (false, st).
Proof.
  intros H. unfold logRequest. by rewrite (getSession_unknown st sessionId _ H).
Qed.

Lemma logRequests_unknown st sessionId calls :
  JsMap.get sessionId st = None -> logRequests sessionId calls st = st.
Proof.
  induction calls as [|c calls IH]; simpl; [done|].
  intros H. rewrite (logRequest_unknown st sessionId c H). simpl. by apply IH.
Qed.

(** One call on a stored session: either it appends, or the staleness test
    fired and the session is gone. *)
Lemma logRequest_step st sessionId s c :
  JsMap.get sessionId st = Some s ->
  (fst (logRequest sessionId c st) = true /\
   exists s1, JsMap.get sessionId (snd (logRequest sessionId c st)) = Some s1 /\
     requestHistory s1 = push_trim (requestHistory s) (entry_of c)) \/
  (fst (logRequest sessionId c st) = false /\
   JsMap.get sessionId (snd (logRequest sessionId c st)) = None).
Proof.
  intros Hget. unfold logRequest, getSession. rewrite Hget.
  destruct (_ >? _); simpl.
  - right. split; [done | apply get_remove_eq].
  - left. split; [done|]. eexists. split; [apply get_set_eq | done].
Qed.

Lemma logRequests_history st sessionId s calls :
  JsMap.get sessionId st = Some s ->
  JsMap.get sessionId (logRequests sessionId calls st) = None \/
  exists s1, JsMap.get sessionId (logRequests sessionId calls st) = Some s1 /\
    requestHistory s1 =
      fold_left push_trim (map entry_of calls) (requestHistory s).
Proof.
  revert st s. induction calls as [|c calls IH]; intros st s Hget; simpl.
  - right. by exists s.
  - destruct (logRequest_step st sessionId s c Hget)
      as [(_ & s1 & Hget1 & Hh1)|(_ & Hgone)].
    + destruct (IH _ s1 Hget1) as [Hnone|(s2 & Hget2 & Hh2)]; [by left|].
      right. exists s2. split; [done|]. by rewrite Hh2, Hh1.
    + left. by rewrite logRequests_unknown.
Qed.

(** The same from any store whose session has a history within the bound. *)
Lemma logRequests_from_bounded st sessionId s calls c :
  JsMap.get sessionId st = Some s ->
  (length (requestHistory s) <= 1000)%nat ->
  let st1 := logRequests sessionId calls st in
  (forall s1, JsMap.get sessionId st1 = Some s1 ->
     (length (requestHistory s1) <= 1000)%nat) /\
  (fst (logRequest sessionId c st1) = true ->
   exists s2,
     JsMap.get sessionId (snd (logRequest sessionId c st1)) = Some s2 /\
     requestHistory s2 =
       slice_last 1000 (requestHistory s ++ map entry_of (calls ++ [c])) /\
     (length (requestHistory s2) <= 1000)%nat).
Proof.
  intros Hget Hlen st1.
  pose proof (logRequests_history st sessionId s calls Hget) as Hrun.
  fold st1 in Hrun. split.
  - intros s1 Hs1. destruct Hrun as [Hnone|(s1' & Hget1 & Hh1)]; [congruence|].
    assert (s1' = s1) as -> by congruence.
    rewrite Hh1, fold_push_trim by done. apply slice_last_length.
  - intros Htrue. destruct Hrun as [Hnone|(s1 & Hget1 & Hh1)].
    + rewrite (logRequest_unknown st1 sessionId c Hnone) in Htrue. done.
    + destruct (logRequest_step st1 sessionId s1 c Hget1)
        as [(_ & s2 & Hget2 & Hh2)|(Hfalse & _)]; [|congruence].
      exists s2. split; [done|].
      assert (Heq : requestHistory s2 =
                    slice_last 1000 (requestHistory s ++ map entry_of (calls ++ [c]))).
      { rewrite Hh2, Hh1, fold_push_trim, push_trim_slice by done.
        rewrite slice_last_app, map_app. simpl. by rewrite <- app_assoc. }
      split; [done|]. rewrite Heq. apply slice_last_length.
Qed.

(** ** Stores an engine can reach *)

Lemma bounded_empty : bounded [].
Proof. apply Forall_nil_2. Qed.

(** Writing back a session under the id it was read from. *)
Lemma store_ok_update st sessionId s s1 :
  store_ok st -> bounded st ->
  JsMap.get sessionId st = Some s ->
  id s1 = sessionId ->
  (length (requestHistory s1) <= 1000)%nat ->
  store_ok (JsMap.set sessionId s1 st) /\ bounded (JsMap.set sessionId s1 st).
Proof.
  intros [Hk Hnd Hsz] Hb Hget Hid Hlen. split; [split|].
  - by apply keyed_set.
  - by apply nodup_set.
  - by rewrite (size_set_present st sessionId s1 s Hget).
  - by apply Forall_set.
Qed.

Lemma store_ok_remove st sessionId :
  store_ok st -> bounded st ->
  store_ok (JsMap.remove sessionId st) /\ bounded (JsMap.remove sessionId st).
Proof.
  intros [Hk Hnd Hsz] Hb. split; [split|].
  - by apply keyed_remove.
  - by apply nodup_remove.
  - pose proof (size_remove_le st sessionId). lia.
  - by apply Forall_remove.
Qed.

Lemma getSession_inv st sessionId tk :
  store_ok st -> bounded st ->
  store_ok (snd (getSession sessionId tk st)) /\
  bounded (snd (getSession sessionId tk st)) /\
  forall s, fst (getSession sessionId tk st) = Some s ->
    JsMap.get sessionId (snd (getSession sessionId tk st)) = Some s /\
    id s = sessionId /\
    (length (requestHistory s) <= 1000)%nat.
Proof.
  intros Hok Hb. unfold getSession.
  destruct (JsMap.get sessionId st) as [s0|] eqn:Hget;
    [|simpl; split; [done|]; split; [done|]; intros s [=]].
  pose proof (Forall_get _ st sessionId s0 (ok_keyed st Hok) Hget) as Hid.
  pose proof (Forall_get _ st sessionId s0 Hb Hget) as Hlen.
  simpl in Hid, Hlen.
  destruct (store_ok_update st sessionId s0
              (with_lastAccessedAt (touch tk) s0) Hok Hb Hget Hid Hlen)
    as [Hok1 Hb1].
  destruct (_ >? _); simpl.
  - destruct (store_ok_remove _ sessionId Hok1 Hb1) as [Hok2 Hb2].
    split; [done|]. split; [done|]. intros s [=].
  - split; [done|]. split; [done|]. intros s [= <-].
    split; [apply get_set_eq | by split].
Qed.

(** The shape shared by the four mutating operations. *)
Lemma touch_then_update_inv st sessionId tk (f : SessionData -> SessionData) :
  (forall s, id (f s) = id s) ->
  (forall s, (length (requestHistory s) <= 1000)%nat ->
     (length (requestHistory (f s)) <= 1000)%nat) ->
  store_ok st -> bounded st ->
  let st1 :=
    match getSession sessionId tk st with
    | (None, st0) => st0
    | (Some session, st0) => JsMap.set sessionId (f session) st0
    end in
  store_ok st1 /\ bounded st1.
Proof.
  intros Hfid Hflen Hok Hb.
  destruct (getSession_inv st sessionId tk Hok Hb) as (Hok0 & Hb0 & Hres).
  destruct (getSession sessionId tk st) as [[session|] st0]; simpl in *; [|done].
  destruct (Hres session eq_refl) as (Hget & Hid & Hlen).
  apply (store_ok_update st0 sessionId session); auto.
  by rewrite Hfid.
Qed.

Lemma step_inv call st :
  store_ok st -> bounded st ->
  exists st1, step call st = Some st1 /\ store_ok st1 /\ bounded st1.
Proof.
  intros Hok Hb.
  destruct call as [c|sessionId tk|sessionId name value domain tk
                   |sessionId name domain tk|sessionId key value tk
                   |sessionId key tk|sessionId c| |sessionId| |sessionId tk];
    simpl.
  - destruct (createSession_ok c st Hok) as (s & st1 & Hc & Hok1).
    rewrite Hc. exists st1. split; [done|]. split; [done|].
    unfold createSession in Hc. destruct (evict st) as [st0|] eqn:Hev; [|done].
    injection Hc as <- <-. apply Forall_set; [simpl; lia|].
    unfold evict in Hev. destruct (_ <=? _)%nat.
    + destruct (reduce _ _); [|done]. injection Hev as <-. by apply Forall_remove.
    + by injection Hev as <-.
  - eexists. split; [done|].
    destruct (getSession_inv st sessionId tk Hok Hb) as (? & ? & _). by split.
  - eexists. split; [done|]. unfold setCookie.
    pose proof (touch_then_update_inv st sessionId tk
      (fun session =>
         with_cookies (prop_write (cookie_key name domain) value (cookies session))
           session)) as H.
    cbv zeta in H. destruct (getSession sessionId tk st) as [[session|] st0];
      apply H; auto.
  - eexists. split; [done|]. unfold getCookie.
    destruct (getSession_inv st sessionId tk Hok Hb) as (? & ? & _).
    by destruct (getSession sessionId tk st) as [[session|] st0].
  - eexists. split; [done|]. unfold setLocalStorage.
    pose proof (touch_then_update_inv st sessionId tk
      (fun session =>
         with_localStorage (prop_write key value (localStorage session)) session))
      as H.
    cbv zeta in H. destruct (getSession sessionId tk st) as [[session|] st0];
      apply H; auto.
  - eexists. split; [done|]. unfold getLocalStorage.
    destruct (getSession_inv st sessionId tk Hok Hb) as (? & ? & _).
    by destruct (getSession sessionId tk st) as [[session|] st0].
  - eexists. split; [done|]. unfold logRequest.
    pose proof (touch_then_update_inv st sessionId (lc_tick c)
      (fun session =>
         with_requestHistory (push_trim (requestHistory session) (entry_of c))
           session)) as H.
    cbv zeta in H. destruct (getSession sessionId (lc_tick c) st) as [[session|] st0];
      apply H; auto; intros s _; simpl; rewrite push_trim_slice;
      apply slice_last_length.
  - by exists st.
  - eexists. split; [done|]. by apply store_ok_remove.
  - eexists. split; [done|]. split; [apply store_ok_empty | apply bounded_empty].
  - eexists. split; [done|]. unfold getSessionDetails.
    destruct (getSession_inv st sessionId tk Hok Hb) as (? & ? & _).
    by destruct (getSession sessionId tk st) as [[session|] st0].
Qed.

(** Whatever the engine is asked to do, in whatever order, no call raises,
    the store stays within capacity and every history within its bound. *)
Lemma run_inv calls st :
  store_ok st -> bounded st ->
  exists st1, run calls st = Some st1 /\ store_ok st1 /\ bounded st1.
Proof.
  revert st. induction calls as [|call calls IH]; intros st Hok Hb; simpl.
  - by exists st.
  - destruct (step_inv call st Hok Hb) as (st1 & -> & Hok1 & Hb1).
    by apply IH.
Qed.

Lemma reachable_ok calls st :
  run calls [] = Some st -> store_ok st /\ bounded st.
Proof.
  intros Hrun.
  destruct (run_inv calls [] store_ok_empty bounded_empty) as (st1 & H1 & Hok & Hb).
  by assert (st1 = st) as <- by congruence.
Qed.

Lemma run_createSessions (cs : list CreateCall) st :
  run (map CallCreateSession cs) st = createSessions cs st.
Proof.
  revert st. induction cs as [|c cs IH]; intros st; simpl; [done|].
  destruct (createSession c st) as [[s st1]|]; simpl; [apply IH | done].
Qed.

(** C1: take any sequence of [createSession] calls on a new engine and one
    more call after it. None of the calls raises and the store never holds
    more than [MAX_SESSIONS] = 100 sessions, before the further call or
    after it. The further call always files its new session, under its
    own id. If it finds fewer than 100 sessions it deletes nothing; if it
    finds 100 (or more) it first deletes a stored session whose
    [lastAccessedAt] is the smallest of all stored sessions, and only then
    inserts the new one, so that nothing but the victim is lost. *)
Theorem createSession_capacity_and_eviction
    (earlier : list CreateCall) (c : CreateCall) :
  exists st new st1,
    createSessions earlier [] = Some st /\
    (JsMap.size st <= MAX_SESSIONS)%nat /\
    createSession c st = Some (new, st1) /\
    id new = generateSessionId (cc_idBytes c) /\
    lastAccessedAt new = cc_lastAccessedAt c /\
    JsMap.get (id new) st1 = Some new /\
    (JsMap.size st1 <= MAX_SESSIONS)%nat /\
    ((JsMap.size st < MAX_SESSIONS)%nat -> st1 = JsMap.set (id new) new st) /\
    ((MAX_SESSIONS <= JsMap.size st)%nat ->
       exists victim,
         JsMap.get (id victim) st = Some victim /\
         (forall s, s ∈ JsMap.values st ->
            lastAccessedAt victim <= lastAccessedAt s) /\
         JsMap.get (id victim) (JsMap.remove (id victim) st) = None /\
         st1 = JsMap.set (id new) new (JsMap.remove (id victim) st) /\
         (forall k, k <> id victim -> k <> id new ->
            JsMap.get k st1 = JsMap.get k st)).
Proof.
  destruct (createSessions_ok earlier [] store_ok_empty) as (st & Hrun & Hok).
  destruct (createSession_ok c st Hok) as (new & st1 & Hc & Hok1).
  exists st, new, st1. split; [exact Hrun|]. split; [apply Hok|].
  split; [exact Hc|].
  destruct (evict_spec st Hok) as [Hlt Hge].
  unfold createSession in Hc.
  destruct (evict st) as [st0|] eqn:Hev; [|done]. cbv zeta in Hc.
  injection Hc as <- <-. cbn [id lastAccessedAt].
  split; [reflexivity|]. split; [reflexivity|].
  split; [apply get_set_eq|]. split; [apply Hok1|]. split.
  - intros Hsz. specialize (Hlt Hsz). congruence.
  - intros Hsz. destruct (Hge Hsz) as (victim & Hget & Hmin & Hev' & _).
    exists victim. split; [exact Hget|]. split; [exact Hmin|].
    split; [apply get_remove_eq|].
    assert (st0 = JsMap.remove (id victim) st) as -> by congruence.
    split; [reflexivity|].
    intros k Hk1 Hk2. rewrite get_set_ne by done. by apply get_remove_ne.
Qed.

(** The bound is reached and the eviction does happen: one hundred calls
    fill the store; the next one removes the session that was accessed
    first (id ["00"]) and keeps the count at one hundred. *)
Lemma createSession_eviction_example :
  match createSessions (ex_creates 100) [] with
  | Some st =>
      JsMap.size st = 100%nat /\
      (lastAccessedAt <$> JsMap.get "00" st) = Some 0 /\
      match createSession (ex_create 100) st with
      | Some (new, st1) =>
          id new = "64" /\
          JsMap.size st1 = 100%nat /\
          JsMap.get "00" st1 = None /\
          (lastAccessedAt <$> JsMap.get "01" st1) = Some 1 /\
          (lastAccessedAt <$> JsMap.get "64" st1) = Some 100
      | None => False
      end
  | None => False
  end.
Proof. vm_compute. repeat split. Qed.

(** A session that is read stops being the eviction candidate: after the
    hundred creations, [getSession("00")] at time 500 makes ["01"] the
    oldest, and the next creation removes ["01"] and keeps ["00"]. *)
Lemma createSession_eviction_after_touch_example :
  match run (map CallCreateSession (ex_creates 100)
             ++ [CallGetSession "00" (ex_tick 500);
                 CallCreateSession (ex_create 100)]) [] with
  | Some st =>
      JsMap.size st = 100%nat /\
      (lastAccessedAt <$> JsMap.get "00" st) = Some 500 /\
      JsMap.get "01" st = None
  | None => False
  end.
Proof. vm_compute. repeat split. Qed.

Lemma get_in_values (st : Store) k s :
  JsMap.get k st = Some s -> s ∈ JsMap.values st.
Proof.
  induction st as [|[k0 v0] st IH]; simpl; [done|].
  destruct (String.eqb_spec k0 k) as [->|Hne].
  - intros [= ->]. apply list_elem_of_here.
  - intros H. by apply list_elem_of_further, IH.
Qed.

Lemma ex_full_store_facts :
  createSessions (ex_creates 100) [] = Some ex_full_store /\
  JsMap.size ex_full_store = MAX_SESSIONS /\
  (lastAccessedAt <$> JsMap.get "00" ex_full_store) = Some 0 /\
  forallb (fun s => 0 <=? lastAccessedAt s) (JsMap.values ex_full_store) = true.
Proof. vm_compute. repeat split. Qed.

(** One hundred calls fill the store; the hundred-and-first finds it full,
    removes a session of smallest [lastAccessedAt] (which is 0, that of
    the first session created) and files the new session ["64"]. *)
Lemma createSession_capacity_and_eviction_witness :
  exists st new st1 victim,
    createSessions (ex_creates 100) [] = Some st /\
    JsMap.size st = MAX_SESSIONS /\
    createSession (ex_create 100) st = Some (new, st1) /\
    id new = "64" /\
    JsMap.get (id new) st1 = Some new /\
    (JsMap.size st1 <= MAX_SESSIONS)%nat /\
    JsMap.get (id victim) st = Some victim /\
    (forall s, s ∈ JsMap.values st -> lastAccessedAt victim <= lastAccessedAt s) /\
    lastAccessedAt victim = 0 /\
    st1 = JsMap.set (id new) new (JsMap.remove (id victim) st).
Proof.
  destruct (createSession_capacity_and_eviction (ex_creates 100) (ex_create 100))
    as (st & new & st1 & Hrun & Hsz & Hc & Hid & _ & Hget & Hsz1 & _ & Hfull).
  destruct ex_full_store_facts as (E & Hsize & Hfirst & Hall).
  assert (Hst : st = ex_full_store) by congruence.
  rewrite <- Hst in Hsize, Hfirst, Hall.
  destruct Hfull as (victim & Hv & Hmin & _ & Hst1 & _).
  { rewrite Hsize. apply Nat.le_refl. }
  exists st, new, st1, victim.
  split; [exact Hrun|]. split; [exact Hsize|]. split; [exact Hc|].
  split; [exact Hid|].
  split; [exact Hget|]. split; [exact Hsz1|]. split; [exact Hv|].
  split; [exact Hmin|]. split; [|exact Hst1].
  apply Z.le_antisymm.
  - clear E Hrun Hc. destruct (JsMap.get "00" st) as [s0|] eqn:H0;
      [|discriminate Hfirst].
    injection Hfirst as Hz. rewrite <- Hz. apply Hmin.
    exact (get_in_values st "00" s0 H0).
  - rewrite forallb_forall in Hall. apply Z.leb_le, Hall.
    apply list_elem_of_In, (get_in_values st (id victim)), Hv.
Defined.


(** A call on a stored session (clock readings of the call no more than
    the timeout apart) reports success and appends. *)
Lemma logRequest_get st sessionId s c :
  JsMap.get sessionId st = Some s ->
  tick_ok (lc_tick c) ->
  fst (logRequest sessionId c st) = true /\
  JsMap.get sessionId (snd (logRequest sessionId c st)) =
    Some (with_requestHistory (push_trim (requestHistory s) (entry_of c))
            (with_lastAccessedAt (touch (lc_tick c)) s)).
Proof.
  intros Hget Hok. unfold logRequest.
  rewrite (getSession_present st sessionId s (lc_tick c) Hget Hok).
  split; [done | apply get_set_eq].
Qed.

Lemma logRequests_appends st sessionId s calls :
  JsMap.get sessionId st = Some s ->
  Forall (fun c => tick_ok (lc_tick c)) calls ->
  exists s1, JsMap.get sessionId (logRequests sessionId calls st) = Some s1 /\
    requestHistory s1 =
      fold_left push_trim (map entry_of calls) (requestHistory s).
Proof.
  revert st s. induction calls as [|c calls IH]; intros st s Hget Hticks; simpl.
  - by exists s.
  - apply Forall_cons in Hticks as [Hc Hticks].
    destruct (logRequest_get st sessionId s c Hget Hc) as [_ Hget1].
    destruct (IH _ _ Hget1 Hticks) as (s1 & Hs1 & Hh1).
    exists s1. by split.
Qed.

Lemma slice_last_snoc {A : Type} (n : nat) (l : list A) e :
  slice_last (S n) (l ++ [e]) = slice_last n l ++ [e].
Proof.
  unfold slice_last. rewrite length_app. simpl.
  replace (length l + 1 - S n)%nat with (length l - n)%nat by lia.
  apply drop_app_le. lia.
Qed.

(** The last [n] elements are what is left when the first ones are
    dropped. *)
Lemma slice_last_suffix {A : Type} (n : nat) (l : list A) :
  l = take (length l - n) l ++ slice_last n l /\
  length (slice_last n l) = Nat.min n (length l).
Proof.
  unfold slice_last. split; [by rewrite take_drop|].
  rewrite length_drop. lia.
Qed.

(** C3: take any session of a store the engine has reached, and any
    sequence of [logRequest] calls on it. The history never holds more
    than 1000 entries. And every call (its two clock readings no more
    than the timeout apart, as for the calls before it) reports success
    and appends: afterwards the history is what was appended so far with
    the oldest entries dropped, it is the last 1000 of them (all of them
    while there are fewer), in arrival order, and its last entry is the
    one just logged. *)
Theorem logRequest_history_bounded_recent earlier st sessionId s calls c :
  run earlier [] = Some st ->
  JsMap.get sessionId st = Some s ->
  Forall (fun c0 => tick_ok (lc_tick c0)) calls ->
  tick_ok (lc_tick c) ->
  let st1 := logRequests sessionId calls st in
  let appended := requestHistory s ++ map entry_of (calls ++ [c]) in
  (forall calls' s',
     JsMap.get sessionId (logRequests sessionId calls' st) = Some s' ->
     (length (requestHistory s') <= 1000)%nat) /\
  exists st2 s2 dropped,
    logRequest sessionId c st1 = (true, st2) /\
    JsMap.get sessionId st2 = Some s2 /\
    appended = dropped ++ requestHistory s2 /\
    length (requestHistory s2) = Nat.min 1000 (length appended) /\
    last (requestHistory s2) = Some (entry_of c).
Proof.
  intros Hreach Hget Hticks Hc st1 appended.
  destruct (reachable_ok earlier st Hreach) as [_ Hb].
  pose proof (Forall_get _ st sessionId s Hb Hget) as Hlen. simpl in Hlen.
  split.
  { intros calls' s' Hs'.
    by apply (proj1 (logRequests_from_bounded st sessionId s calls' c Hget Hlen)). }
  destruct (logRequests_appends st sessionId s calls Hget Hticks)
    as (s1 & Hs1 & Hh1).
  fold st1 in Hs1.
  destruct (logRequest_get st1 sessionId s1 c Hs1 Hc) as [Htrue Hs2].
  destruct (logRequest sessionId c st1) as [b st2] eqn:Hlog. simpl in Htrue, Hs2.
  subst b. eexists st2, _, (take (length appended - 1000) appended).
  split; [reflexivity|]. split; [exact Hs2|].
  assert (Hh2 : push_trim (requestHistory s1) (entry_of c)
                = slice_last 1000 appended).
  { rewrite push_trim_slice, Hh1, fold_push_trim by done.
    rewrite slice_last_app. subst appended.
    by rewrite map_app, app_assoc. }
  cbn [requestHistory with_requestHistory with_lastAccessedAt].
  rewrite Hh2.
  split; [apply slice_last_suffix|]. split; [apply slice_last_suffix|].
  rewrite <- Hh2, push_trim_slice.
  change 1000%nat with (S 999). rewrite slice_last_snoc. apply last_snoc.
Qed.

Lemma ex_busy_store_facts :
  run ex_busy_calls [] = Some ex_busy_store /\
  (length <$> (requestHistory <$> JsMap.get "01" ex_busy_store)) = Some 1000%nat.
Proof. vm_compute. by split. Qed.

(** A session whose history already holds 1000 entries receives three
    more: every call succeeds, the history stays at 1000 entries, and
    exactly the three oldest entries are gone. *)
Lemma logRequest_history_bounded_recent_witness :
  let calls := [ex_log 5000 "/a"; ex_log 5001 "/b"] in
  let c := ex_log 5002 "/c" in
  exists s st2 s2 dropped,
    JsMap.get "01" ex_busy_store = Some s /\
    length (requestHistory s) = 1000%nat /\
    logRequest "01" c (logRequests "01" calls ex_busy_store) = (true, st2) /\
    JsMap.get "01" st2 = Some s2 /\
    requestHistory s ++ map entry_of (calls ++ [c])
      = dropped ++ requestHistory s2 /\
    length (requestHistory s2) = 1000%nat /\
    length dropped = 3%nat /\
    last (requestHistory s2) = Some (entry_of c).
Proof.
  intros calls c.
  destruct ex_busy_store_facts as [Hrun Hfull].
  destruct (JsMap.get "01" ex_busy_store) as [s|] eqn:Hs; [|discriminate Hfull].
  injection Hfull as Hfull.
  destruct (logRequest_history_bounded_recent ex_busy_calls ex_busy_store "01"
              s calls c Hrun Hs)
    as (_ & st2 & s2 & dropped & Hlog & Hs2 & Happ & Hlen & Hlast).
  - subst calls. repeat constructor; solve_tick.
  - subst c. solve_tick.
  - exists s, st2, s2, dropped.
    split; [reflexivity|]. split; [exact Hfull|]. split; [exact Hlog|].
    split; [exact Hs2|]. split; [exact Happ|].
    rewrite length_app, Hfull in Hlen.
    assert (Hlen2 : length (requestHistory s2) = 1000%nat) by exact Hlen.
    split; [exact Hlen2|]. split; [|exact Hlast].
    apply (f_equal length) in Happ.
    rewrite !length_app, Hfull, Hlen2 in Happ.
    change (length (map entry_of (calls ++ [c]))) with 3%nat in Happ. lia.
Defined.

(** ** generateBrowserFingerprint: overrides *)

(** C4, as stated, fails: an override that supplies the empty string or 0
    is present in [overrides] but the generated fingerprint carries the
    default instead. *)
Lemma falsy_override_not_verbatim :
  let fp := generateBrowserFingerprint (Some falsy_overrides) ex_draws in
  p_userAgent falsy_overrides = Some "" /\
  userAgent fp <> "" /\
  userAgent fp = a_userAgent archetype_windows /\
  p_colorDepth falsy_overrides = Some (num 0) /\
  colorDepth fp <> num 0 /\
  colorDepth fp = num 24.
Proof. vm_compute. repeat split; discriminate. Qed.

(** C4 (amended): every override that is present with a truthy value (a
    non-empty string, a number other than 0 and NaN) appears verbatim in
    the generated fingerprint, and a supplied [webRTC] appears verbatim
    whether it is [true] or [false]. *)
Theorem truthy_overrides_verbatim custom d :
  let fp := generateBrowserFingerprint (Some custom) d in
  (forall v, p_userAgent custom = Some v -> truthy_str v = true ->
     userAgent fp = v) /\
  (forall v, p_acceptLanguage custom = Some v -> truthy_str v = true ->
     acceptLanguage fp = v) /\
  (forall v, p_acceptEncoding custom = Some v -> truthy_str v = true ->
     acceptEncoding fp = v) /\
  (forall v, p_timezone custom = Some v -> truthy_str v = true ->
     timezone fp = v) /\
  (forall v, p_screenResolution custom = Some v -> truthy_str v = true ->
     screenResolution fp = v) /\
  (forall v, p_colorDepth custom = Some v -> truthy_num v = true ->
     colorDepth fp = v) /\
  (forall v, p_platform custom = Some v -> truthy_str v = true ->
     platform fp = v) /\
  (forall v, p_hardwareConcurrency custom = Some v -> truthy_num v = true ->
     hardwareConcurrency fp = v) /\
  (forall v, p_deviceMemory custom = Some v -> truthy_num v = true ->
     deviceMemory fp = v) /\
  (forall v, p_webGLVendor custom = Some v -> truthy_str v = true ->
     webGLVendor fp = v) /\
  (forall v, p_webGLRenderer custom = Some v -> truthy_str v = true ->
     webGLRenderer fp = v) /\
  (forall v, p_canvas custom = Some v -> truthy_str v = true ->
     canvas fp = v) /\
  (forall b, p_webRTC custom = Some b -> webRTC fp = b).
Proof.
  cbv zeta. unfold generateBrowserFingerprint, opt_field, or_str, or_num, nullish.
  cbn [userAgent acceptLanguage acceptEncoding timezone screenResolution
       colorDepth platform hardwareConcurrency deviceMemory webGLVendor
       webGLRenderer canvas webRTC].
  repeat split; intros v Hv; rewrite Hv; try (intros ->); reflexivity.
Qed.

Lemma truthy_overrides_verbatim_witness :
  let fp := generateBrowserFingerprint (Some truthy_overrides) ex_draws in
  userAgent fp = "CustomAgent/1.0" /\
  timezone fp = "Europe/Paris" /\
  colorDepth fp = num 30 /\
  deviceMemory fp = Num (1 # 2) /\
  webRTC fp = false.
Proof.
  destruct (truthy_overrides_verbatim truthy_overrides ex_draws)
    as (Hua & _ & _ & Htz & _ & Hcd & _ & _ & Hdm & _ & _ & _ & Hrtc).
  split; [by apply Hua|]. split; [by apply Htz|].
  split; [by apply Hcd|]. split; [by apply Hdm|]. by apply Hrtc.
Defined.

(** A supplied falsy string or number is treated as if it were absent. *)
Lemma falsy_override_ignored (o : option string) (d : string) :
  o = Some "" -> or_str o d = or_str None d.
Proof. by intros ->. Qed.

(** ** Heap computations *)

Section WpRules.
Context {A B : Type}.
Implicit Types (h : gmap loc (list (string * hval))).

Lemma wp_ret (a : A) h (Q : A -> gmap loc (list (string * hval)) -> Prop) :
  Q a h -> wp (ret a) h Q.
Proof. done. Qed.

Lemma wp_bind (m : M A) (k : A -> M B) h
    (Q : B -> gmap loc (list (string * hval)) -> Prop) :
  wp m h (fun a h1 => wp (k a) h1 Q) -> wp (m ≫= k) h Q.
Proof.
  unfold wp, mbind, M_bind, bind. by destruct (m h) as [[a h1]|].
Qed.

Lemma wp_mono (m : M A) h
    (Q Q' : A -> gmap loc (list (string * hval)) -> Prop) :
  wp m h Q -> (forall a h1, Q a h1 -> Q' a h1) -> wp m h Q'.
Proof.
  unfold wp. destruct (m h) as [[a h1]|]; [|done]. intros HQ Himp. by apply Himp.
Qed.

Lemma wp_run (m : M A) h (Q : A -> gmap loc (list (string * hval)) -> Prop) :
  wp m h Q -> exists a h1, m h = Ok (a, h1) /\ Q a h1.
Proof.
  unfold wp. destruct (m h) as [[a h1]|]; [|done]. intros HQ. by exists a, h1.
Qed.
End WpRules.




Lemma fresh_not_live (h : gmap loc (list (string * hval))) :
  h !! fresh (dom h) = None.
Proof. apply not_elem_of_dom, is_fresh. Qed.

(** [{ ...src }] allocates a new object with the same own properties and
    touches nothing else. *)
Lemma wp_spread (h : gmap loc (list (string * hval))) src o
    (Q : loc -> gmap loc (list (string * hval)) -> Prop) :
  h !! src = Some o ->
  Q (fresh (dom h)) (<[fresh (dom h) := o]> h) ->
  wp (obj_spread src) h Q.
Proof.
  intros Hsrc HQ.
  unfold wp, obj_spread, mbind, M_bind, bind, deref, alloc. by rewrite Hsrc.
Qed.

(** An assignment to the object just written at [l]. *)
Lemma wp_assign_top (h : gmap loc (list (string * hval))) l o k v
    (Q : unit -> gmap loc (list (string * hval)) -> Prop) :
  Q tt (<[l := JsMap.set k v o]> h) ->
  wp (obj_assign l k v) (<[l := o]> h) Q.
Proof.
  intros HQ. unfold wp, obj_assign, update.
  by rewrite lookup_insert_eq, insert_insert_eq.
Qed.

Lemma wp_delete_top (h : gmap loc (list (string * hval))) l o k
    (Q : unit -> gmap loc (list (string * hval)) -> Prop) :
  Q tt (<[l := JsMap.remove k o]> h) ->
  wp (obj_delete l k) (<[l := o]> h) Q.
Proof.
  intros HQ. unfold wp, obj_delete, update.
  by rewrite lookup_insert_eq, insert_insert_eq.
Qed.




(** ** spoofHeaders *)

Lemma spoofHeaders_run (h : gmap loc (list (string * hval))) headers o d :
  h !! headers = Some o ->
  spoofHeaders headers d h =
    Ok (fresh (dom h),
        <[fresh (dom h) := assign_all (spoof_assignments d) o]> h).
Proof.
  intros Hh.
  cut (wp (spoofHeaders headers d) h
         (fun l h1 => l = fresh (dom h) /\
            h1 = <[fresh (dom h) := assign_all (spoof_assignments d) o]> h)).
  { intros (l & h1 & -> & -> & ->)%wp_run. reflexivity. }
  unfold spoofHeaders. apply wp_bind. eapply wp_spread; [exact Hh|].
  do 12 (apply wp_bind, wp_assign_top).
  apply wp_ret. split; reflexivity.
Qed.

Lemma get_assign_all_other (kvs o : list (string * hval)) k :
  k ∉ map fst kvs -> JsMap.get k (assign_all kvs o) = JsMap.get k o.
Proof.
  unfold assign_all. revert o. induction kvs as [|[k0 v0] kvs IH]; intros o Hk; simpl.
  - reflexivity.
  - simpl in Hk. apply not_elem_of_cons in Hk as [Hne Hk].
    rewrite IH by done. by apply get_set_ne.
Qed.

(** C9: [spoofHeaders] builds its result in a newly allocated object: the
    returned reference differs from the input, the input object (and every
    other object) has the same own properties after the call as before, and
    the result has [user-agent], [accept-language], [accept-encoding],
    [accept], [dnt], the [sec-fetch-*] and the [sec-ch-ua*] keys set to the
    spoofed values, every other key reading as in the input. *)
Theorem spoofHeaders_fresh_copy (h : gmap loc (list (string * hval))) headers o d :
  h !! headers = Some o ->
  exists spoofed h1 o1,
    spoofHeaders headers d h = Ok (spoofed, h1) /\
    h !! spoofed = None /\
    spoofed <> headers /\
    h1 !! headers = Some o /\
    (forall l, l <> spoofed -> h1 !! l = h !! l) /\
    h1 !! spoofed = Some o1 /\
    (forall k v, (k, v) ∈ spoof_assignments d -> JsMap.get k o1 = Some v) /\
    (forall k, k ∉ map fst (spoof_assignments d) ->
       JsMap.get k o1 = JsMap.get k o).
Proof.
  intros Hh. pose proof (fresh_not_live h) as Hfresh.
  assert (Hne : fresh (dom h) <> headers) by congruence.
  exists (fresh (dom h)),
    (<[fresh (dom h) := assign_all (spoof_assignments d) o]> h),
    (assign_all (spoof_assignments d) o).
  split; [by apply spoofHeaders_run|]. split; [done|]. split; [done|].
  split; [by rewrite lookup_insert_ne|].
  split; [intros l Hl; by rewrite lookup_insert_ne|].
  split; [apply lookup_insert_eq|]. split.
  - intros k v Hin. unfold spoof_assignments in Hin |- *.
    unfold assign_all. cbn [fold_left fst snd].
    repeat (apply elem_of_cons in Hin as [[= -> ->]|Hin];
            [repeat (rewrite get_set_ne by discriminate); apply get_set_eq|]).
    by apply elem_of_nil in Hin.
  - intros k Hk. by apply get_assign_all_other.
Qed.

Lemma spoofHeaders_fresh_copy_witness :
  exists spoofed h1 o1,
    spoofHeaders 1%positive ex_spoof_draws ex_heap = Ok (spoofed, h1) /\
    ex_heap !! spoofed = None /\
    spoofed <> 1%positive /\
    h1 !! 1%positive = Some mixed_case_headers /\
    (forall l, l <> spoofed -> h1 !! l = ex_heap !! l) /\
    h1 !! spoofed = Some o1 /\
    (forall k v, (k, v) ∈ spoof_assignments ex_spoof_draws ->
       JsMap.get k o1 = Some v) /\
    (forall k, k ∉ map fst (spoof_assignments ex_spoof_draws) ->
       JsMap.get k o1 = JsMap.get k mixed_case_headers).
Proof.
  apply (spoofHeaders_fresh_copy ex_heap 1%positive mixed_case_headers
           ex_spoof_draws).
  reflexivity.
Defined.

(** ** removeTrackingHeaders / removeSecurityHeaders *)

Lemma wp_delete_loop (h : gmap loc (list (string * hval))) l names o :
  wp (forEach names (fun header =>
        obj_delete l header;; obj_delete l (toUpperCase header)))
     (<[l := o]> h)
     (fun _ h1 => h1 = <[l := strip_all names o]> h).
Proof.
  unfold strip_all. revert o. induction names as [|n names IH]; intros o; simpl.
  - by apply wp_ret.
  - apply wp_bind, wp_bind, wp_delete_top, wp_delete_top. apply IH.
Qed.

Lemma removeHeaders_run (h : gmap loc (list (string * hval))) names headers o :
  h !! headers = Some o ->
  removeHeaders names headers h =
    Ok (fresh (dom h), <[fresh (dom h) := strip_all names o]> h).
Proof.
  intros Hh.
  cut (wp (removeHeaders names headers) h
         (fun l h1 => l = fresh (dom h) /\
            h1 = <[fresh (dom h) := strip_all names o]> h)).
  { intros (l & h1 & -> & -> & ->)%wp_run. reflexivity. }
  unfold removeHeaders. apply wp_bind. eapply wp_spread; [exact Hh|].
  apply wp_bind. eapply wp_mono; [apply wp_delete_loop|].
  intros u h1 ->. by apply wp_ret.
Qed.

Lemma get_remove_absent (o : list (string * hval)) k k' :
  JsMap.get k o = None -> JsMap.get k (JsMap.remove k' o) = None.
Proof.
  intros H. destruct (decide (k' = k)) as [->|Hne].
  - apply get_remove_eq.
  - by rewrite get_remove_ne.
Qed.

Lemma strip_all_absent names (o : list (string * hval)) k :
  JsMap.get k o = None -> JsMap.get k (strip_all names o) = None.
Proof.
  unfold strip_all. revert o. induction names as [|n names IH]; intros o H; simpl.
  - done.
  - by apply IH, get_remove_absent, get_remove_absent.
Qed.

(** The lower-case name and its upper-case form are both gone. *)
Lemma strip_all_removes names (o : list (string * hval)) n :
  n ∈ names ->
  JsMap.get n (strip_all names o) = None /\
  JsMap.get (toUpperCase n) (strip_all names o) = None.
Proof.
  revert o. induction names as [|n0 names IH]; intros o Hin.
  - by apply elem_of_nil in Hin.
  - apply elem_of_cons in Hin as [->|Hin].
    + change (strip_all (n0 :: names) o)
        with (strip_all names
                (JsMap.remove (toUpperCase n0) (JsMap.remove n0 o))).
      split; apply strip_all_absent.
      * apply get_remove_absent, get_remove_eq.
      * apply get_remove_eq.
    + by apply IH.
Qed.

(** Keys in any other spelling stay. *)
Lemma strip_all_keeps names (o : list (string * hval)) k :
  (forall n, n ∈ names -> k <> n /\ k <> toUpperCase n) ->
  JsMap.get k (strip_all names o) = JsMap.get k o.
Proof.
  unfold strip_all. revert o. induction names as [|n names IH]; intros o Hk; simpl.
  - done.
  - destruct (Hk n (list_elem_of_here _ _)) as [Hn Hu].
    rewrite IH.
    + rewrite get_remove_ne by done. by rewrite get_remove_ne.
    + intros n' Hn'. by apply Hk, list_elem_of_further.
Qed.

(** Deleting names that are not keys changes nothing. *)
Lemma strip_all_noop names (o : list (string * hval)) :
  (forall n, n ∈ names ->
     JsMap.get n o = None /\ JsMap.get (toUpperCase n) o = None) ->
  strip_all names o = o.
Proof.
  unfold strip_all. induction names as [|n names IH]; intros Hk; simpl.
  - done.
  - destruct (Hk n (list_elem_of_here _ _)) as [Hn Hu].
    rewrite (remove_absent o n Hn), (remove_absent o _ Hu).
    apply IH. intros n' Hn'. by apply Hk, list_elem_of_further.
Qed.

(** What the two functions return for an allocated header object. *)
Lemma removeHeaders_result (h : gmap loc (list (string * hval))) names headers o :
  h !! headers = Some o ->
  result_object (removeHeaders names headers) h = Some (strip_all names o).
Proof.
  intros Hh. unfold result_object.
  rewrite (removeHeaders_run h names headers o Hh). apply lookup_insert_eq.
Qed.

(** C5: the code deletes each listed name and its all-upper-case form
    only. A header map whose keys are spelled [X-Forwarded-For] and
    [Content-Security-Policy] (names that match the tracking and security
    lists when compared case-insensitively) comes back from
    [removeTrackingHeaders] and [removeSecurityHeaders] with both keys
    still present; the lower-case [x-real-ip] is removed. *)
Theorem remove_headers_keep_mixed_case :
  toLowerCase "X-Forwarded-For" = "x-forwarded-for" /\
  "x-forwarded-for" ∈ TRACKING_HEADERS /\
  toLowerCase "Content-Security-Policy" = "content-security-policy" /\
  "content-security-policy" ∈ SECURITY_HEADERS /\
  result_object (removeTrackingHeaders 1%positive) ex_heap =
    Some [("X-Forwarded-For", HStr "203.0.113.7");
          ("Content-Security-Policy", HStr "default-src 'none'")] /\
  result_object (removeSecurityHeaders 1%positive) ex_heap =
    Some [("X-Forwarded-For", HStr "203.0.113.7");
          ("Content-Security-Policy", HStr "default-src 'none'");
          ("x-real-ip", HStr "203.0.113.7")].
Proof.
  split; [reflexivity|]. split; [apply list_elem_of_here|].
  split; [reflexivity|]. split; [apply list_elem_of_here|].
  split; vm_compute; reflexivity.
Qed.

(** ** handleRequest *)

Lemma wp_of_run {A : Type} (m : M A) (h h1 : gmap loc (list (string * hval))) a
    (Q : A -> gmap loc (list (string * hval)) -> Prop) :
  m h = Ok (a, h1) -> Q a h1 -> wp m h Q.
Proof. unfold wp. by intros ->. Qed.


(** ** Splitting the inbound url at its question marks *)




Section HandleRequest.
Variable parseURL : string -> option URL.
Variable encodePathname : URL -> string -> string.
Variable encodeSearch : URL -> string -> string.
Variable href : URL -> string.

Lemma generateReferer_run (h : gmap loc (list (string * hval))) target u draw :
  parseURL target = Some u ->
  generateReferer parseURL target draw h =
    Ok ("https://" +:+ hostname u +:+ pick referer_paths draw "/", h).
Proof.
  intros Hu. unfold generateReferer, new_URL, mbind, M_bind, bind.
  by rewrite Hu.
Qed.



Lemma origin_build_target reqUrl u :
  origin (build_target encodePathname encodeSearch reqUrl u) = origin u.
Proof.
  unfold build_target. destruct reqUrl as [s|]; [|done].
  by destruct (includes_char "?" s).
Qed.

(** C6: an [OPTIONS] request is answered on the spot with status 200,
    exactly the three CORS headers and an empty body ([res.end()] with no
    argument); no proxied call is issued and nothing else is touched. *)
Theorem handleRequest_options_short_circuit
    (h : gmap loc (list (string * hval))) config req env :
  im_method req = Some "OPTIONS" ->
  exists effects,
    handleRequest parseURL encodePathname encodeSearch href config req env h
      = Ok (effects, h) /\
    effects =
      [WriteHead 200
         [("access-control-allow-origin", "*");
          ("access-control-allow-methods", "GET, POST, PUT, DELETE, OPTIONS");
          ("access-control-allow-headers", "Content-Type, Authorization")];
       End None] /\
    forall e, e ∈ effects -> is_ProxyWeb e = false.
Proof.
  intros Hm. eexists. unfold handleRequest.
  rewrite bool_decide_eq_true_2 by done.
  split; [reflexivity|]. split; [reflexivity|].
  intros e He. apply elem_of_cons in He as [->|He]; [done|].
  apply list_elem_of_singleton in He as ->. done.
Qed.

Lemma bind_run {A B : Type} (m : M A) (k : A -> M B)
    (h h1 : gmap loc (list (string * hval))) a :
  m h = Ok (a, h1) -> (m ≫= k) h = k a h1.
Proof. unfold mbind, M_bind, bind. by intros ->. Qed.


(** The URL built for the log line keeps only the text between the first
    and the second [?] as its query. *)
Lemma build_target_second_question_mark u :
  search (build_target encodePathname encodeSearch (Some "/a?b=1?c=2") u)
  = encodeSearch (set_pathname encodePathname "/a" u) "b=1".
Proof. reflexivity. Qed.

End HandleRequest.

Lemma handleRequest_options_short_circuit_witness :
  exists effects,
    handleRequest ex_parseURL (fun _ s => s) (fun _ s => s) ex_href
      ex_config (ex_request "OPTIONS") ex_env ex_heap = Ok (effects, ex_heap) /\
    effects =
      [WriteHead 200
         [("access-control-allow-origin", "*");
          ("access-control-allow-methods", "GET, POST, PUT, DELETE, OPTIONS");
          ("access-control-allow-headers", "Content-Type, Authorization")];
       End None] /\
    forall e, e ∈ effects -> is_ProxyWeb e = false.
Proof.
  apply (handleRequest_options_short_circuit ex_parseURL (fun _ s => s)
           (fun _ s => s) ex_href ex_heap ex_config (ex_request "OPTIONS") ex_env).
  reflexivity.
Defined.





(* ===================================================================== *)
(** * Further properties of the session engine *)
(* ===================================================================== *)

(** ** More dictionary laws *)

Section JsMapMore.
Context {V : Type}.
Implicit Types (m : list (string * V)) (k : string) (v : V).

Lemma has_get m k : JsMap.has k m = true <-> is_Some (JsMap.get k m).
Proof.
  unfold JsMap.has. destruct (JsMap.get k m); split; intros H; try done.
Qed.

Lemma in_keys_get m k : k ∈ JsMap.keys m -> is_Some (JsMap.get k m).
Proof.
  induction m as [|[k0 v0] m IH]; simpl.
  - by intros ?%elem_of_nil.
  - destruct (String.eqb_spec k0 k) as [->|Hne]; [by eexists|].
    intros [->|H]%elem_of_cons; [done | by apply IH].
Qed.

Lemma size_set_absent m k v :
  JsMap.get k m = None -> JsMap.size (JsMap.set k v m) = S (JsMap.size m).
Proof.
  unfold JsMap.size. induction m as [|[k0 v0] m IH]; simpl; [done|].
  destruct (String.eqb k0 k); simpl; [done|]. intros H. by rewrite IH.
Qed.

Lemma size_remove_present m k v :
  NoDup (JsMap.keys m) -> JsMap.get k m = Some v ->
  S (JsMap.size (JsMap.remove k m)) = JsMap.size m.
Proof.
  unfold JsMap.size. induction m as [|[k0 v0] m IH]; simpl; [done|].
  intros [Hni Hnd]%NoDup_cons. destruct (String.eqb_spec k0 k) as [->|Hne].
  - intros _. rewrite remove_absent; [done|]. by apply not_in_keys_get.
  - intros H. simpl. by rewrite IH.
Qed.

(** A set on a present key rewrites that entry where it stands. *)
Lemma keys_set_present m k v v' :
  JsMap.get k m = Some v' -> JsMap.keys (JsMap.set k v m) = JsMap.keys m.
Proof.
  unfold JsMap.keys. induction m as [|[k0 v0] m IH]; simpl; [done|].
  destruct (String.eqb_spec k0 k) as [->|Hne]; simpl; [done|].
  intros H. by rewrite IH.
Qed.

(** A set on an absent key appends it. *)
Lemma keys_set_absent m k v :
  JsMap.get k m = None -> JsMap.keys (JsMap.set k v m) = JsMap.keys m ++ [k].
Proof.
  unfold JsMap.keys. induction m as [|[k0 v0] m IH]; simpl; [done|].
  destruct (String.eqb_spec k0 k) as [->|Hne]; simpl; [done|].
  intros H. by rewrite IH.
Qed.
End JsMapMore.

(** ** Reading back what was written *)

Lemma getSession_other st sessionId other tk :
  other <> sessionId ->
  JsMap.get other (snd (getSession sessionId tk st)) = JsMap.get other st.
Proof.
  intros Hne. unfold getSession.
  destruct (JsMap.get sessionId st) as [s|]; [|done].
  destruct (_ >? _); simpl.
  - rewrite get_remove_ne by done. by rewrite get_set_ne.
  - by rewrite get_set_ne.
Qed.

Lemma setLocalStorage_get st sessionId s key value tk :
  JsMap.get sessionId st = Some s ->
  tick_ok tk ->
  JsMap.get sessionId (snd (setLocalStorage sessionId key value tk st)) =
    Some (with_localStorage (prop_write key value (localStorage s))
            (with_lastAccessedAt (touch tk) s)).
Proof.
  intros Hget Hok. unfold setLocalStorage.
  rewrite (getSession_present st sessionId s tk Hget Hok). apply get_set_eq.
Qed.

Lemma getLocalStorage_present st sessionId s key tk :
  JsMap.get sessionId st = Some s ->
  tick_ok tk ->
  fst (getLocalStorage sessionId key tk st) = prop_read key (localStorage s).
Proof.
  intros Hget Hok. unfold getLocalStorage.
  by rewrite (getSession_present st sessionId s tk Hget Hok).
Qed.

(** X1: a cookie that was set is read back under the same name and domain,
    provided its key (the name, or ["domain:name"]) is not [__proto__];
    and setting it changes what no other cookie key of the session
    reads. *)
Theorem setCookie_getCookie_roundtrip
    st sessionId s name value domain name' domain' tk1 tk2 :
  JsMap.get sessionId st = Some s ->
  tick_ok tk1 -> tick_ok tk2 ->
  cookie_key name domain <> "__proto__" ->
  let st1 := snd (setCookie sessionId name value domain tk1 st) in
  fst (setCookie sessionId name value domain tk1 st) = true /\
  fst (getCookie sessionId name domain tk2 st1) = Some (OwnValue value) /\
  (cookie_key name' domain' <> cookie_key name domain ->
   fst (getCookie sessionId name' domain' tk2 st1) =
   fst (getCookie sessionId name' domain' tk2 st)).
Proof.
  intros Hget H1 H2 Hkey st1.
  pose proof (setCookie_get st sessionId s name value domain tk1 Hget H1) as Hst1.
  fold st1 in Hst1.
  split; [by rewrite (setCookie_present st sessionId s name value domain tk1)|].
  rewrite !(getCookie_present st1 sessionId _ _ _ tk2 Hst1 H2).
  rewrite (getCookie_present st sessionId s name' domain' tk2 Hget H2).
  cbn [cookies with_cookies with_lastAccessedAt].
  split; [by apply prop_read_write_eq|]. intros Hne.
  by apply prop_read_write_ne.
Qed.

Lemma setCookie_getCookie_roundtrip_witness :
  let st1 := snd (setCookie "s2" "sid" "abc123" (Some "example.com")
                    (ex_tick 2000) ex_store2) in
  fst (setCookie "s2" "sid" "abc123" (Some "example.com") (ex_tick 2000) ex_store2)
    = true /\
  fst (getCookie "s2" "sid" (Some "example.com") (ex_tick 2001) st1)
    = Some (OwnValue "abc123") /\
  (cookie_key "theme" None <> cookie_key "sid" (Some "example.com") ->
   fst (getCookie "s2" "theme" None (ex_tick 2001) st1) =
   fst (getCookie "s2" "theme" None (ex_tick 2001) ex_store2)).
Proof.
  apply (setCookie_getCookie_roundtrip ex_store2 "s2" ex_session2 "sid" "abc123"
           (Some "example.com") "theme" None (ex_tick 2000) (ex_tick 2001)).
  - reflexivity.
  - solve_tick.
  - solve_tick.
  - discriminate.
Defined.

(** X2: a localStorage item that was set under a key other than
    [__proto__] is read back under its key; other keys read as before; and
    cookies and localStorage do not see each other's writes. *)
Theorem setLocalStorage_getLocalStorage_roundtrip
    st sessionId s key value key' name domain tk1 tk2 :
  JsMap.get sessionId st = Some s ->
  tick_ok tk1 -> tick_ok tk2 ->
  key <> "__proto__" ->
  let st1 := snd (setLocalStorage sessionId key value tk1 st) in
  fst (setLocalStorage sessionId key value tk1 st) = true /\
  fst (getLocalStorage sessionId key tk2 st1) = Some (OwnValue value) /\
  (key' <> key ->
   fst (getLocalStorage sessionId key' tk2 st1) =
   fst (getLocalStorage sessionId key' tk2 st)) /\
  fst (getCookie sessionId name domain tk2 st1) =
    fst (getCookie sessionId name domain tk2 st) /\
  fst (getLocalStorage sessionId key' tk2
         (snd (setCookie sessionId name value domain tk1 st))) =
    fst (getLocalStorage sessionId key' tk2 st).
Proof.
  intros Hget H1 H2 Hkey st1.
  pose proof (setLocalStorage_get st sessionId s key value tk1 Hget H1) as Hst1.
  fold st1 in Hst1.
  pose proof (setCookie_get st sessionId s name value domain tk1 Hget H1) as Hst2.
  split.
  { unfold setLocalStorage.
    by rewrite (getSession_present st sessionId s tk1 Hget H1). }
  rewrite !(getLocalStorage_present st1 sessionId _ _ tk2 Hst1 H2).
  rewrite (getLocalStorage_present st sessionId s key' tk2 Hget H2).
  rewrite (getCookie_present st1 sessionId _ _ _ tk2 Hst1 H2).
  rewrite (getCookie_present st sessionId s _ _ tk2 Hget H2).
  rewrite (getLocalStorage_present _ sessionId _ _ tk2 Hst2 H2).
  cbn [cookies localStorage with_cookies with_localStorage with_lastAccessedAt].
  split; [by apply prop_read_write_eq|]. split; [|done].
  intros Hne. by apply prop_read_write_ne.
Qed.

Lemma setLocalStorage_getLocalStorage_roundtrip_witness :
  let st1 := snd (setLocalStorage "s2" "token" "t0" (ex_tick 2000) ex_store2) in
  fst (setLocalStorage "s2" "token" "t0" (ex_tick 2000) ex_store2) = true /\
  fst (getLocalStorage "s2" "token" (ex_tick 2001) st1) = Some (OwnValue "t0") /\
  ("lang" <> "token" ->
   fst (getLocalStorage "s2" "lang" (ex_tick 2001) st1) =
   fst (getLocalStorage "s2" "lang" (ex_tick 2001) ex_store2)) /\
  fst (getCookie "s2" "theme" None (ex_tick 2001) st1) =
    fst (getCookie "s2" "theme" None (ex_tick 2001) ex_store2) /\
  fst (getLocalStorage "s2" "lang" (ex_tick 2001)
         (snd (setCookie "s2" "theme" "t0" None (ex_tick 2000) ex_store2))) =
    fst (getLocalStorage "s2" "lang" (ex_tick 2001) ex_store2).
Proof.
  apply (setLocalStorage_getLocalStorage_roundtrip ex_store2 "s2" ex_session2
           "token" "t0" "lang" "theme" None (ex_tick 2000) (ex_tick 2001)).
  - reflexivity.
  - solve_tick.
  - solve_tick.
  - discriminate.
Defined.

(** ** Calls on one session and the other sessions *)

Lemma touch_update_other st sessionId other tk (f : SessionData -> SessionData) :
  other <> sessionId ->
  JsMap.get other
    (match getSession sessionId tk st with
     | (None, st0) => st0
     | (Some session, st0) => JsMap.set sessionId (f session) st0
     end) = JsMap.get other st.
Proof.
  intros Hne. pose proof (getSession_other st sessionId other tk Hne) as H.
  destruct (getSession sessionId tk st) as [[session|] st0]; simpl in *; [|done].
  by rewrite get_set_ne.
Qed.

(** X3: a call that names a session id (a read, a write, a log append, a
    delete, even one that expires the session) leaves every session filed
    under another id exactly as it was. *)
Theorem call_leaves_other_sessions call st sessionId other :
  call_session call = Some sessionId ->
  other <> sessionId ->
  exists st1, step call st = Some st1 /\
    JsMap.get other st1 = JsMap.get other st.
Proof.
  intros Hcall Hne.
  destruct call as [c|sid tk|sid name value domain tk|sid name domain tk
                   |sid key value tk|sid key tk|sid c| |sid| |sid tk];
    simpl in Hcall; try discriminate; injection Hcall as ->;
    eexists; (split; [reflexivity|]).
  - by apply getSession_other.
  - unfold setCookie.
    pose proof (touch_update_other st sessionId other tk
      (fun session =>
         with_cookies (prop_write (cookie_key name domain) value (cookies session))
           session) Hne) as H.
    by destruct (getSession sessionId tk st) as [[session|] st0].
  - unfold getCookie.
    pose proof (getSession_other st sessionId other tk Hne) as H.
    by destruct (getSession sessionId tk st) as [[session|] st0].
  - unfold setLocalStorage.
    pose proof (touch_update_other st sessionId other tk
      (fun session =>
         with_localStorage (prop_write key value (localStorage session)) session)
      Hne) as H.
    by destruct (getSession sessionId tk st) as [[session|] st0].
  - unfold getLocalStorage.
    pose proof (getSession_other st sessionId other tk Hne) as H.
    by destruct (getSession sessionId tk st) as [[session|] st0].
  - unfold logRequest.
    pose proof (touch_update_other st sessionId other (lc_tick c)
      (fun session =>
         with_requestHistory (push_trim (requestHistory session) (entry_of c))
           session) Hne) as H.
    by destruct (getSession sessionId (lc_tick c) st) as [[session|] st0].
  - simpl. by apply get_remove_ne.
  - unfold getSessionDetails.
    pose proof (getSession_other st sessionId other tk Hne) as H.
    by destruct (getSession sessionId tk st) as [[session|] st0].
Qed.

(** The stale read of ["s1"] removes it and leaves ["s2"] alone. *)
Lemma call_leaves_other_sessions_witness :
  exists st1,
    step (CallGetSession "s1" {| touch := 0; check := 90000000 |}) ex_store2
      = Some st1 /\
    JsMap.get "s2" st1 = JsMap.get "s2" ex_store2.
Proof.
  apply (call_leaves_other_sessions
           (CallGetSession "s1" {| touch := 0; check := 90000000 |})
           ex_store2 "s1" "s2").
  - reflexivity.
  - discriminate.
Defined.

(** ** getSessionDetails *)

Lemma getSessionDetails_present st sessionId s tk :
  JsMap.get sessionId st = Some s ->
  tick_ok tk ->
  exists d,
    fst (getSessionDetails sessionId tk st) = Some d /\
    sd_id d = id s /\
    sd_cookieCount d = length (JsMap.keys (cookies s)) /\
    sd_localStorageCount d = length (JsMap.keys (localStorage s)) /\
    sd_requestCount d = length (requestHistory s) /\
    sd_recentRequests d = slice_last 10 (requestHistory s) /\
    sd_browserFingerprint d = browserFingerprint s /\
    sd_lastAccessedAt d = touch tk.
Proof.
  intros Hget Hok. unfold getSessionDetails.
  rewrite (getSession_present st sessionId s tk Hget Hok). simpl.
  eexists. split; [reflexivity|]. by repeat split.
Qed.

Lemma length_keys_set (m : list (string * string)) k v :
  length (JsMap.keys (JsMap.set k v m)) =
    if JsMap.has k m then length (JsMap.keys m) else S (length (JsMap.keys m)).
Proof.
  unfold JsMap.has. destruct (JsMap.get k m) as [v'|] eqn:E.
  - by rewrite (keys_set_present m k v v' E).
  - rewrite (keys_set_absent m k v E), length_app. simpl. lia.
Qed.

(** X4: the cookie count reported by [getSessionDetails] counts cookie
    keys: [setCookie] with a key other than [__proto__] raises it by one
    when the key is new to the session and leaves it as it is when the key
    is overwritten; the localStorage and request counts do not move. *)
Theorem setCookie_cookieCount st sessionId s name value domain tk1 tk2 :
  JsMap.get sessionId st = Some s ->
  tick_ok tk1 -> tick_ok tk2 ->
  cookie_key name domain <> "__proto__" ->
  exists before after,
    fst (getSessionDetails sessionId tk2 st) = Some before /\
    fst (getSessionDetails sessionId tk2
           (snd (setCookie sessionId name value domain tk1 st))) = Some after /\
    sd_cookieCount before = length (cookies s) /\
    sd_cookieCount after =
      (if JsMap.has (cookie_key name domain) (cookies s)
       then sd_cookieCount before else S (sd_cookieCount before)) /\
    sd_localStorageCount after = sd_localStorageCount before /\
    sd_requestCount after = sd_requestCount before.
Proof.
  intros Hget H1 H2 Hkey.
  pose proof (setCookie_get st sessionId s name value domain tk1 Hget H1) as Hst1.
  destruct (getSessionDetails_present st sessionId s tk2 Hget H2)
    as (d0 & Hd0 & _ & Hc0 & Hl0 & Hr0 & _).
  destruct (getSessionDetails_present _ sessionId _ tk2 Hst1 H2)
    as (d1 & Hd1 & _ & Hc1 & Hl1 & Hr1 & _).
  exists d0, d1. split; [done|]. split; [done|].
  rewrite Hc1, Hl1, Hr1, Hc0, Hl0, Hr0.
  cbn [cookies localStorage requestHistory with_cookies with_lastAccessedAt].
  split; [unfold JsMap.keys; by rewrite length_map|].
  rewrite prop_write_set by done.
  split; [apply length_keys_set | done].
Qed.

Lemma setCookie_cookieCount_witness :
  exists before after,
    fst (getSessionDetails "s2" (ex_tick 2001) ex_store2) = Some before /\
    fst (getSessionDetails "s2" (ex_tick 2001)
           (snd (setCookie "s2" "sid" "abc123" None (ex_tick 2000) ex_store2)))
      = Some after /\
    sd_cookieCount before = length (cookies ex_session2) /\
    sd_cookieCount after =
      (if JsMap.has (cookie_key "sid" None) (cookies ex_session2)
       then sd_cookieCount before else S (sd_cookieCount before)) /\
    sd_localStorageCount after = sd_localStorageCount before /\
    sd_requestCount after = sd_requestCount before.
Proof.
  apply (setCookie_cookieCount ex_store2 "s2" ex_session2 "sid" "abc123" None
           (ex_tick 2000) (ex_tick 2001)).
  - reflexivity.
  - solve_tick.
  - solve_tick.
  - discriminate.
Defined.

(** *** The key [__proto__] *)

Lemma get_proto_prop_write (o : list (string * string)) k v :
  JsMap.get "__proto__" o = None ->
  JsMap.get "__proto__" (prop_write k v o) = None.
Proof.
  intros H. destruct (decide (k = "__proto__")) as [->|Hne].
  - by rewrite prop_write_proto.
  - by rewrite get_prop_write_ne.
Qed.

Lemma touch_update_proto_free st sessionId tk (f : SessionData -> SessionData) :
  (forall s, proto_free_session s -> proto_free_session (f s)) ->
  proto_free st ->
  proto_free (snd (getSession sessionId tk st)) /\
  proto_free
    match getSession sessionId tk st with
    | (None, st0) => st0
    | (Some session, st0) => JsMap.set sessionId (f session) st0
    end.
Proof.
  intros Hf Hst. unfold getSession.
  destruct (JsMap.get sessionId st) as [s|] eqn:Hget; [|done].
  pose proof (Forall_get _ st sessionId s Hst Hget) as Hs. simpl in Hs.
  assert (Hst1 : proto_free
            (JsMap.set sessionId (with_lastAccessedAt (touch tk) s) st))
    by (by apply Forall_set).
  destruct (_ >? _); simpl.
  - split; by apply Forall_remove.
  - split; [done|]. apply Forall_set; [|done]. simpl. by apply Hf.
Qed.

(** No session of an engine ever has a cookie or a localStorage item
    filed under [__proto__]. *)
Lemma step_proto_free call st st1 :
  proto_free st -> step call st = Some st1 -> proto_free st1.
Proof.
  intros Hst Hstep.
  assert (Hread : forall sid tk, proto_free (snd (getSession sid tk st))).
  { intros sid tk.
    by apply (touch_update_proto_free st sid tk (fun s => s)). }
  assert (Hwrite : forall sid tk f,
    (forall s, proto_free_session s -> proto_free_session (f s)) ->
    proto_free
      match getSession sid tk st with
      | (None, st0) => st0
      | (Some session, st0) => JsMap.set sid (f session) st0
      end).
  { intros sid tk f Hf. by apply (touch_update_proto_free st sid tk f). }
  destruct call as [c|sid tk|sid name value domain tk|sid name domain tk
                   |sid key value tk|sid key tk|sid c| |sid| |sid tk];
    simpl in Hstep.
  - unfold createSession in Hstep.
    destruct (evict st) as [st0|] eqn:Hev; [|done]. simpl in Hstep.
    injection Hstep as <-. apply Forall_set; [done|].
    unfold evict in Hev. destruct (_ <=? _)%nat.
    + destruct (reduce _ _); [|done]. injection Hev as <-. by apply Forall_remove.
    + by injection Hev as <-.
  - injection Hstep as <-. apply Hread.
  - injection Hstep as <-. unfold setCookie.
    pose proof (Hwrite sid tk
      (fun session =>
         with_cookies (prop_write (cookie_key name domain) value (cookies session))
           session)) as H.
    destruct (getSession sid tk st) as [[session|] st0]; apply H;
      intros s [Hc Hl]; (split; [by apply get_proto_prop_write | done]).
  - injection Hstep as <-. unfold getCookie. pose proof (Hread sid tk) as H.
    by destruct (getSession sid tk st) as [[session|] st0].
  - injection Hstep as <-. unfold setLocalStorage.
    pose proof (Hwrite sid tk
      (fun session =>
         with_localStorage (prop_write key value (localStorage session)) session))
      as H.
    destruct (getSession sid tk st) as [[session|] st0]; apply H;
      intros s [Hc Hl]; (split; [done | by apply get_proto_prop_write]).
  - injection Hstep as <-. unfold getLocalStorage. pose proof (Hread sid tk) as H.
    by destruct (getSession sid tk st) as [[session|] st0].
  - injection Hstep as <-. unfold logRequest.
    pose proof (Hwrite sid (lc_tick c)
      (fun session =>
         with_requestHistory (push_trim (requestHistory session) (entry_of c))
           session)) as H.
    by destruct (getSession sid (lc_tick c) st) as [[session|] st0]; apply H.
  - by injection Hstep as <-.
  - injection Hstep as <-. by apply Forall_remove.
  - injection Hstep as <-. apply Forall_nil_2.
  - injection Hstep as <-. unfold getSessionDetails.
    pose proof (Hread sid tk) as H.
    by destruct (getSession sid tk st) as [[session|] st0].
Qed.

Lemma run_proto_free calls st st1 :
  proto_free st -> run calls st = Some st1 -> proto_free st1.
Proof.
  revert st. induction calls as [|call calls IH]; intros st Hst; simpl.
  - by intros [= <-].
  - destruct (step call st) as [st0|] eqn:Hstep; [|done].
    apply IH. by eapply step_proto_free.
Qed.

(** X23: a cookie or a localStorage item whose key is [__proto__] is never
    stored. For any session of a store the engine has reached,
    [setCookie] and [setLocalStorage] with that key report success and
    leave the session's cookies and localStorage exactly as they were;
    the cookie count does not move; and reading the key back gives what
    [Object.prototype] defines under that name, not the value written. *)
Theorem proto_key_is_dropped earlier st sessionId s value tk1 tk2 :
  run earlier [] = Some st ->
  JsMap.get sessionId st = Some s ->
  tick_ok tk1 -> tick_ok tk2 ->
  let st1 := snd (setCookie sessionId "__proto__" value None tk1 st) in
  let st2 := snd (setLocalStorage sessionId "__proto__" value tk1 st) in
  fst (setCookie sessionId "__proto__" value None tk1 st) = true /\
  fst (setLocalStorage sessionId "__proto__" value tk1 st) = true /\
  (exists s1, JsMap.get sessionId st1 = Some s1 /\ cookies s1 = cookies s) /\
  (exists s2, JsMap.get sessionId st2 = Some s2 /\
     localStorage s2 = localStorage s) /\
  fst (getCookie sessionId "__proto__" None tk2 st1)
    = Some (Inherited "__proto__") /\
  fst (getLocalStorage sessionId "__proto__" tk2 st2)
    = Some (Inherited "__proto__") /\
  (sd_cookieCount <$> fst (getSessionDetails sessionId tk2 st1)) =
    (sd_cookieCount <$> fst (getSessionDetails sessionId tk2 st)).
Proof.
  intros Hreach Hget H1 H2 st1 st2.
  assert (Hfree : proto_free st)
    by (by apply (run_proto_free earlier []); [apply Forall_nil_2|]).
  destruct (Forall_get _ st sessionId s Hfree Hget) as [Hc Hl].
  simpl in Hc, Hl.
  pose proof (setCookie_get st sessionId s "__proto__" value None tk1 Hget H1)
    as Hst1.
  pose proof (setLocalStorage_get st sessionId s "__proto__" value tk1 Hget H1)
    as Hst2.
  fold st1 in Hst1. fold st2 in Hst2.
  cbn [cookie_key] in Hst1.
  rewrite (prop_write_proto _ value Hc) in Hst1.
  rewrite (prop_write_proto _ value Hl) in Hst2.
  split; [by rewrite (setCookie_present st sessionId s _ _ _ tk1)|].
  split.
  { unfold setLocalStorage.
    by rewrite (getSession_present st sessionId s tk1 Hget H1). }
  split; [by eexists|]. split; [by eexists|].
  rewrite (getCookie_present st1 sessionId _ _ _ tk2 Hst1 H2).
  rewrite (getLocalStorage_present st2 sessionId _ _ tk2 Hst2 H2).
  cbn [cookie_key cookies localStorage with_cookies with_localStorage
       with_lastAccessedAt].
  unfold prop_read. rewrite Hc, Hl.
  split; [reflexivity|]. split; [reflexivity|].
  destruct (getSessionDetails_present st sessionId s tk2 Hget H2)
    as (d0 & -> & _ & Hc0 & _).
  destruct (getSessionDetails_present _ sessionId _ tk2 Hst1 H2)
    as (d1 & -> & _ & Hc1 & _).
  simpl. by rewrite Hc0, Hc1.
Qed.

Lemma proto_key_is_dropped_witness :
  let st := [("01", ex_created)] in
  let st1 := snd (setCookie "01" "__proto__" "abc123" None (ex_tick 2000) st) in
  let st2 := snd (setLocalStorage "01" "__proto__" "abc123" (ex_tick 2000) st) in
  fst (setCookie "01" "__proto__" "abc123" None (ex_tick 2000) st) = true /\
  fst (setLocalStorage "01" "__proto__" "abc123" (ex_tick 2000) st) = true /\
  (exists s1, JsMap.get "01" st1 = Some s1 /\ cookies s1 = []) /\
  (exists s2, JsMap.get "01" st2 = Some s2 /\ localStorage s2 = []) /\
  fst (getCookie "01" "__proto__" None (ex_tick 2001) st1)
    = Some (Inherited "__proto__") /\
  fst (getLocalStorage "01" "__proto__" (ex_tick 2001) st2)
    = Some (Inherited "__proto__") /\
  (sd_cookieCount <$> fst (getSessionDetails "01" (ex_tick 2001) st1)) =
    (sd_cookieCount <$> fst (getSessionDetails "01" (ex_tick 2001) st)).
Proof.
  apply (proto_key_is_dropped [CallCreateSession (ex_create 1)]
           [("01", ex_created)] "01" ex_created "abc123"
           (ex_tick 2000) (ex_tick 2001)).
  - reflexivity.
  - reflexivity.
  - solve_tick.
  - solve_tick.
Defined.


(** X5: after a [logRequest] that appends, [getSessionDetails] shows the
    new entry as the last of [recentRequests], shows at most ten recent
    requests, and reports a request count one higher than before but never
    above 1000. *)
Theorem logRequest_visible_in_details st sessionId s c tk :
  JsMap.get sessionId st = Some s ->
  tick_ok (lc_tick c) -> tick_ok tk ->
  exists d,
    fst (getSessionDetails sessionId tk (snd (logRequest sessionId c st)))
      = Some d /\
    last (sd_recentRequests d) = Some (entry_of c) /\
    (length (sd_recentRequests d) <= 10)%nat /\
    sd_requestCount d = Nat.min 1000 (S (length (requestHistory s))).
Proof.
  intros Hget Hc Htk.
  destruct (logRequest_get st sessionId s c Hget Hc) as [_ Hst1].
  destruct (getSessionDetails_present _ sessionId _ tk Hst1 Htk)
    as (d & Hd & _ & _ & _ & Hr & Hrec & _).
  exists d. split; [done|]. rewrite Hrec, Hr.
  cbn [requestHistory with_requestHistory]. rewrite push_trim_slice.
  split; [|split].
  - rewrite (slice_last_snoc 999), (slice_last_snoc 9). apply last_snoc.
  - apply slice_last_length.
  - unfold slice_last. rewrite length_drop, length_app. cbn [length]. lia.
Qed.

Lemma logRequest_visible_in_details_witness :
  exists d,
    fst (getSessionDetails "s1" (ex_tick 2001)
           (snd (logRequest "s1" (ex_log 2000 "/a") ex_store2))) = Some d /\
    last (sd_recentRequests d) = Some (entry_of (ex_log 2000 "/a")) /\
    (length (sd_recentRequests d) <= 10)%nat /\
    sd_requestCount d = Nat.min 1000 (S (length (requestHistory ex_session))).
Proof.
  apply (logRequest_visible_in_details ex_store2 "s1" ex_session
           (ex_log 2000 "/a") (ex_tick 2001)).
  - reflexivity.
  - solve_tick.
  - solve_tick.
Defined.

(** ** createSession: what is added and what is removed *)

Lemma evict_below st :
  (JsMap.size st < MAX_SESSIONS)%nat -> evict st = Some st.
Proof.
  intros H. unfold evict.
  by destruct (Nat.leb_spec MAX_SESSIONS (JsMap.size st)); [lia|].
Qed.

(** X6: on any store the engine has reached, [createSession] returns a
    session that is stored under its own id with empty cookies,
    localStorage and history, and that [getSession] on that id returns;
    below capacity nothing else changes and, when the id is new, the
    count grows by one. *)
Theorem createSession_stores_new_session earlier st c :
  run earlier [] = Some st ->
  exists new st1,
    createSession c st = Some (new, st1) /\
    id new = generateSessionId (cc_idBytes c) /\
    JsMap.get (id new) st1 = Some new /\
    cookies new = [] /\ localStorage new = [] /\ requestHistory new = [] /\
    browserFingerprint new =
      generateBrowserFingerprint (cc_overrides c) (cc_draws c) /\
    (forall tk, tick_ok tk ->
       fst (getSession (id new) tk st1)
       = Some (with_lastAccessedAt (touch tk) new)) /\
    ((JsMap.size st < MAX_SESSIONS)%nat ->
     (forall k, k <> id new -> JsMap.get k st1 = JsMap.get k st) /\
     (JsMap.get (id new) st = None -> JsMap.size st1 = S (JsMap.size st))).
Proof.
  intros Hreach. destruct (reachable_ok earlier st Hreach) as [Hok _].
  destruct (createSession_ok c st Hok) as (new & st1 & Hc & _).
  exists new, st1. split; [done|].
  unfold createSession in Hc. destruct (evict st) as [st0|] eqn:Hev; [|done].
  injection Hc as <- <-. cbn [id cookies localStorage requestHistory browserFingerprint].
  split; [done|]. split; [apply get_set_eq|].
  do 4 (split; [done|]). split.
  - intros tk Htk. by erewrite getSession_present; [|apply get_set_eq|].
  - intros Hlt. rewrite (evict_below st Hlt) in Hev. injection Hev as <-.
    split.
    + intros k Hk. by apply get_set_ne.
    + apply size_set_absent.
Qed.

Lemma createSession_stores_new_session_witness :
  exists new st1,
    createSession (ex_create 7) [] = Some (new, st1) /\
    id new = generateSessionId (cc_idBytes (ex_create 7)) /\
    JsMap.get (id new) st1 = Some new /\
    cookies new = [] /\ localStorage new = [] /\ requestHistory new = [] /\
    browserFingerprint new =
      generateBrowserFingerprint (cc_overrides (ex_create 7))
        (cc_draws (ex_create 7)) /\
    (forall tk, tick_ok tk ->
       fst (getSession (id new) tk st1)
       = Some (with_lastAccessedAt (touch tk) new)) /\
    ((JsMap.size ([] : Store) < MAX_SESSIONS)%nat ->
     (forall k, k <> id new -> JsMap.get k st1 = JsMap.get k ([] : Store)) /\
     (JsMap.get (id new) ([] : Store) = None -> JsMap.size st1 = S (JsMap.size ([] : Store)))).
Proof.
  apply (createSession_stores_new_session [] [] (ex_create 7)). reflexivity.
Defined.

Lemma get_remove_some {V : Type} (m : list (string * V)) k k' v :
  JsMap.get k (JsMap.remove k' m) = Some v -> JsMap.get k m = Some v.
Proof.
  destruct (decide (k' = k)) as [->|Hne].
  - by rewrite get_remove_eq.
  - by rewrite get_remove_ne.
Qed.

(** X7: at capacity [createSession] removes exactly one stored session,
    one with the smallest [lastAccessedAt]: every session other than that
    one (and other than the new id) stays as it was, and a session that
    was accessed strictly later than some other stored session is never
    the one removed. *)
Theorem createSession_evicts_only_oldest earlier st c :
  run earlier [] = Some st ->
  (MAX_SESSIONS <= JsMap.size st)%nat ->
  exists victim new st1,
    createSession c st = Some (new, st1) /\
    JsMap.get (id victim) st = Some victim /\
    (forall k, k <> id victim -> k <> id new ->
       JsMap.get k st1 = JsMap.get k st) /\
    (id new <> id victim -> JsMap.get (id victim) st1 = None) /\
    (forall k s k' s',
       JsMap.get k st = Some s -> JsMap.get k' st = Some s' ->
       lastAccessedAt s' < lastAccessedAt s -> k <> id victim).
Proof.
  intros Hreach Hfull. destruct (reachable_ok earlier st Hreach) as [Hok _].
  destruct (evict_spec st Hok) as [_ Hge].
  destruct (Hge Hfull) as (victim & Hget & Hmin & Hev & _).
  unfold createSession. rewrite Hev. cbv zeta.
  match goal with
  | |- context [JsMap.set (generateSessionId _) ?s _] => exists victim, s
  end.
  eexists. split; [reflexivity|]. split; [exact Hget|]. cbn [id].
  split; [|split].
  - intros k Hv Hn. rewrite get_set_ne by done. by apply get_remove_ne.
  - intros Hne. rewrite get_set_ne by done. apply get_remove_eq.
  - intros k s k' s' Hs Hs' Hlt ->.
    assert (s = victim) as -> by congruence.
    assert (Hin : s' ∈ JsMap.values st).
    { unfold JsMap.values. apply list_elem_of_fmap. exists (k', s').
      split; [done|]. clear -Hs'.
      induction st as [|[k0 s0] st IH]; simpl in *; [done|].
      destruct (String.eqb_spec k0 k') as [->|Hne].
      - injection Hs' as ->. apply list_elem_of_here.
      - by apply list_elem_of_further, IH. }
    specialize (Hmin s' Hin). lia.
Qed.

Lemma ex_full_store_reached :
  run (map CallCreateSession (ex_creates 100)) [] = Some ex_full_store.
Proof. vm_compute. reflexivity. Qed.

Lemma createSession_evicts_only_oldest_witness :
  exists victim new st1,
    createSession (ex_create 100) ex_full_store = Some (new, st1) /\
    JsMap.get (id victim) ex_full_store = Some victim /\
    (forall k, k <> id victim -> k <> id new ->
       JsMap.get k st1 = JsMap.get k ex_full_store) /\
    (id new <> id victim -> JsMap.get (id victim) st1 = None) /\
    (forall k s k' s',
       JsMap.get k ex_full_store = Some s -> JsMap.get k' ex_full_store = Some s' ->
       lastAccessedAt s' < lastAccessedAt s -> k <> id victim).
Proof.
  apply (createSession_evicts_only_oldest
           (map CallCreateSession (ex_creates 100)) ex_full_store (ex_create 100)).
  - vm_compute. reflexivity.
  - vm_compute. lia.
Defined.

(** ** deleteSession and getStats *)

(** X8: [deleteSession] returns [true] exactly when the id was stored;
    afterwards the id is unknown to [getSession], a second delete returns
    [false], and the count has dropped by exactly one if the id was
    stored. *)
Theorem deleteSession_spec earlier st sessionId :
  run earlier [] = Some st ->
  let st1 := snd (deleteSession sessionId st) in
  (fst (deleteSession sessionId st) = true <-> is_Some (JsMap.get sessionId st)) /\
  (forall tk, getSession sessionId tk st1 = (None, st1)) /\
  fst (deleteSession sessionId st1) = false /\
  (is_Some (JsMap.get sessionId st) -> S (JsMap.size st1) = JsMap.size st) /\
  (JsMap.get sessionId st = None -> st1 = st).
Proof.
  intros Hreach st1. destruct (reachable_ok earlier st Hreach) as [Hok _].
  assert (Hgone : JsMap.get sessionId st1 = None) by apply get_remove_eq.
  split; [apply has_get|]. split; [intros tk; by apply getSession_unknown|].
  split; [by apply has_absent|]. split.
  - intros [s Hs]. apply (size_remove_present st sessionId s); [apply Hok | done].
  - apply remove_absent.
Qed.

Lemma deleteSession_spec_witness :
  let st := [("07", {| id := "07"; createdAt := 7; lastAccessedAt := 7;
                       cookies := []; localStorage := []; sessionStorage := [];
                       browserFingerprint :=
                         generateBrowserFingerprint None ex_draws;
                       customProxy := None; requestHistory := [] |})] in
  let st1 := snd (deleteSession "07" st) in
  (fst (deleteSession "07" st) = true <-> is_Some (JsMap.get "07" st)) /\
  (forall tk, getSession "07" tk st1 = (None, st1)) /\
  fst (deleteSession "07" st1) = false /\
  (is_Some (JsMap.get "07" st) -> S (JsMap.size st1) = JsMap.size st) /\
  (JsMap.get "07" st = None -> st1 = st).
Proof.
  apply (deleteSession_spec [CallCreateSession (ex_create 7)] _ "07").
  reflexivity.
Defined.

(** X9: on any store the engine has reached, [getStats] reports the same
    number as active and total, that number is the number of listed ids
    and is at most 100, the listed ids are pairwise different, and they are
    exactly the ids [getSession] can find. *)
Theorem getStats_spec earlier st :
  run earlier [] = Some st ->
  let stats := getStats st in
  activeSessions stats = totalSessions stats /\
  activeSessions stats = length (sessionIds stats) /\
  (activeSessions stats <= 100)%nat /\
  NoDup (sessionIds stats) /\
  (forall k, k ∈ sessionIds stats <-> is_Some (JsMap.get k st)) /\
  (forall k s, JsMap.get k st = Some s -> id s = k).
Proof.
  intros Hreach. destruct (reachable_ok earlier st Hreach) as [[Hk Hnd Hsz] _].
  cbn [getStats activeSessions totalSessions sessionIds].
  split; [done|]. split; [unfold JsMap.size, JsMap.keys; by rewrite length_map|].
  split; [exact Hsz|]. split; [exact Hnd|]. split.
  - intros k. split; [apply in_keys_get|]. intros [s Hs]. by eapply get_in_keys.
  - intros k s Hs. apply (Forall_get _ st k s Hk Hs).
Qed.

Lemma getStats_spec_witness :
  let stats := getStats ex_full_store in
  activeSessions stats = totalSessions stats /\
  activeSessions stats = length (sessionIds stats) /\
  (activeSessions stats <= 100)%nat /\
  NoDup (sessionIds stats) /\
  (forall k, k ∈ sessionIds stats <-> is_Some (JsMap.get k ex_full_store)) /\
  (forall k s, JsMap.get k ex_full_store = Some s -> id s = k).
Proof.
  apply (getStats_spec (map CallCreateSession (ex_creates 100)) ex_full_store).
  vm_compute. reflexivity.
Defined.

(** ** What a session keeps for life *)

Lemma same_identity_refl s : same_identity s s.
Proof. by repeat split. Qed.

Lemma getSession_same st sessionId tk s s1 :
  JsMap.get sessionId st = Some s ->
  JsMap.get sessionId (snd (getSession sessionId tk st)) = Some s1 ->
  same_identity s s1.
Proof.
  intros Hget. unfold getSession. rewrite Hget. destruct (_ >? _); simpl.
  - by rewrite get_remove_eq.
  - rewrite get_set_eq. intros [= <-]. by repeat split.
Qed.

Lemma touch_update_same st sessionId tk (f : SessionData -> SessionData) s s1 :
  (forall x, same_identity x (f x)) ->
  JsMap.get sessionId st = Some s ->
  JsMap.get sessionId
    (match getSession sessionId tk st with
     | (None, st0) => st0
     | (Some session, st0) => JsMap.set sessionId (f session) st0
     end) = Some s1 ->
  same_identity s s1.
Proof.
  intros Hf Hget. unfold getSession. rewrite Hget. destruct (_ >? _); simpl.
  - by rewrite get_remove_eq.
  - rewrite get_set_eq. intros [= <-].
    destruct (Hf (with_lastAccessedAt (touch tk) s)) as (? & ? & ? & ? & ?).
    by repeat split.
Qed.

(** X10: no call changes the id, the creation time, the fingerprint, the
    sessionStorage or the custom proxy of a session that is stored before
    and after it; the one exception is a [createSession] that draws the id
    of a stored session, which replaces it. *)
Theorem session_identity_is_fixed call st st1 sessionId s s1 :
  step call st = Some st1 ->
  call_creates call <> Some sessionId ->
  JsMap.get sessionId st = Some s ->
  JsMap.get sessionId st1 = Some s1 ->
  same_identity s s1.
Proof.
  intros Hstep Hnew Hs Hs1.
  assert (Hother : forall f sid tk, sid <> sessionId ->
    JsMap.get sessionId
      (match getSession sid tk st with
       | (None, st0) => st0
       | (Some session, st0) => JsMap.set sid (f session) st0
       end) = Some s1 -> same_identity s s1).
  { intros f sid tk Hne H. rewrite touch_update_other in H by done.
    assert (s1 = s) as -> by congruence. apply same_identity_refl. }
  assert (Hread : forall sid tk,
    JsMap.get sessionId (snd (getSession sid tk st)) = Some s1 ->
    same_identity s s1).
  { intros sid tk H. destruct (decide (sid = sessionId)) as [->|Hne].
    - by eapply getSession_same.
    - rewrite getSession_other in H by done.
      assert (s1 = s) as -> by congruence. apply same_identity_refl. }
  assert (Hwrite : forall f sid tk, (forall x, same_identity x (f x)) ->
    JsMap.get sessionId
      (match getSession sid tk st with
       | (None, st0) => st0
       | (Some session, st0) => JsMap.set sid (f session) st0
       end) = Some s1 -> same_identity s s1).
  { intros f sid tk Hf H. destruct (decide (sid = sessionId)) as [->|Hne].
    - by eapply touch_update_same.
    - by eapply Hother. }
  destruct call as [c|sid tk|sid name value domain tk|sid name domain tk
                   |sid key value tk|sid key tk|sid c| |sid| |sid tk];
    simpl in Hstep, Hnew.
  - unfold createSession in Hstep.
    destruct (evict st) as [st0|] eqn:Hev; [|done]. simpl in Hstep.
    injection Hstep as <-.
    rewrite get_set_ne in Hs1 by congruence.
    assert (Hs0 : JsMap.get sessionId st = Some s1).
    { unfold evict in Hev. destruct (_ <=? _)%nat.
      - destruct (reduce _ _); [|done]. injection Hev as <-.
        by eapply get_remove_some.
      - by injection Hev as <-. }
    assert (s1 = s) as -> by congruence. apply same_identity_refl.
  - injection Hstep as <-. by eapply Hread.
  - injection Hstep as <-. unfold setCookie in Hs1.
    apply (Hwrite (fun session =>
             with_cookies (prop_write (cookie_key name domain) value
                             (cookies session)) session) sid tk);
      [by repeat split|].
    by destruct (getSession sid tk st) as [[session|] st0].
  - injection Hstep as <-. unfold getCookie in Hs1. apply (Hread sid tk).
    by destruct (getSession sid tk st) as [[session|] st0].
  - injection Hstep as <-. unfold setLocalStorage in Hs1.
    apply (Hwrite (fun session =>
             with_localStorage (prop_write key value (localStorage session))
               session) sid tk); [by repeat split|].
    by destruct (getSession sid tk st) as [[session|] st0].
  - injection Hstep as <-. unfold getLocalStorage in Hs1. apply (Hread sid tk).
    by destruct (getSession sid tk st) as [[session|] st0].
  - injection Hstep as <-. unfold logRequest in Hs1.
    apply (Hwrite (fun session =>
             with_requestHistory
               (push_trim (requestHistory session) (entry_of c)) session)
             sid (lc_tick c)); [by repeat split|].
    by destruct (getSession sid (lc_tick c) st) as [[session|] st0].
  - injection Hstep as <-. assert (s1 = s) as -> by congruence.
    apply same_identity_refl.
  - injection Hstep as <-. simpl in Hs1. apply get_remove_some in Hs1.
    assert (s1 = s) as -> by congruence. apply same_identity_refl.
  - injection Hstep as <-. done.
  - injection Hstep as <-. unfold getSessionDetails in Hs1. apply (Hread sid tk).
    by destruct (getSession sid tk st) as [[session|] st0].
Qed.

Lemma session_identity_is_fixed_witness :
  same_identity ex_session2
    (with_requestHistory [entry_of (ex_log 2000 "/a")]
       (with_lastAccessedAt 2000 ex_session2)).
Proof.
  apply (session_identity_is_fixed (CallLogRequest "s2" (ex_log 2000 "/a"))
           ex_store2 (snd (logRequest "s2" (ex_log 2000 "/a") ex_store2))
           "s2" ex_session2).
  - reflexivity.
  - discriminate.
  - reflexivity.
  - reflexivity.
Defined.

(** ** generateSessionId and the fingerprint generator *)

Lemma all_chars_app p s1 s2 :
  all_chars p (s1 +:+ s2) = all_chars p s1 && all_chars p s2.
Proof.
  induction s1 as [|c s1 IH]; simpl; [done|]. rewrite IH. by rewrite andb_assoc.
Qed.

Lemma length_append s1 s2 :
  String.length (s1 +:+ s2) = (String.length s1 + String.length s2)%nat.
Proof. induction s1 as [|c s1 IH]; simpl; [done|]. by rewrite IH. Qed.

Lemma hex_of_byte_shape b :
  exists c1 c2, hex_of_byte b = String c1 (String c2 EmptyString) /\
    unhex_byte c1 c2 = Some b /\
    char_in "0123456789abcdef" c1 = true /\
    char_in "0123456789abcdef" c2 = true.
Proof.
  eexists _, _. split; [reflexivity|].
  destruct b; vm_compute; by repeat split.
Qed.

Lemma generateSessionId_cons b bs :
  exists c1 c2,
    generateSessionId (b :: bs) = String c1 (String c2 (generateSessionId bs)) /\
    unhex_byte c1 c2 = Some b /\
    char_in "0123456789abcdef" c1 = true /\
    char_in "0123456789abcdef" c2 = true.
Proof.
  destruct (hex_of_byte_shape b) as (c1 & c2 & Hb & Hrest).
  exists c1, c2. split; [|exact Hrest].
  change (generateSessionId (b :: bs))
    with (hex_of_byte b +:+ generateSessionId bs).
  by rewrite Hb.
Qed.

(** X11: the id made from a random buffer has two characters per byte
    (32 for the 16 bytes the engine draws), consists of the characters
    [0-9a-f] only, and determines the buffer: different buffers never give
    the same id. *)
Theorem generateSessionId_hex_injective (bytes bytes' : list byte) :
  String.length (generateSessionId bytes) = (2 * length bytes)%nat /\
  all_chars (char_in "0123456789abcdef") (generateSessionId bytes) = true /\
  (generateSessionId bytes = generateSessionId bytes' -> bytes = bytes').
Proof.
  split; [|split].
  - induction bytes as [|b bs IH]; [done|].
    destruct (generateSessionId_cons b bs) as (c1 & c2 & -> & _).
    cbn [String.length length]. rewrite IH. lia.
  - induction bytes as [|b bs IH]; [done|].
    destruct (generateSessionId_cons b bs) as (c1 & c2 & -> & _ & H1 & H2).
    cbn [all_chars]. by rewrite H1, H2, IH.
  - revert bytes'. induction bytes as [|b bs IH]; intros [|b' bs'].
    + done.
    + destruct (generateSessionId_cons b' bs') as (c1 & c2 & -> & _). done.
    + destruct (generateSessionId_cons b bs) as (c1 & c2 & -> & _). done.
    + destruct (generateSessionId_cons b bs) as (c1 & c2 & -> & Hu & _).
      destruct (generateSessionId_cons b' bs') as (c1' & c2' & -> & Hu' & _).
      intros [= -> -> Hrest]. f_equal; [congruence | by apply IH].
Qed.

Lemma get_in_range (s : string) k :
  (k < String.length s)%nat ->
  exists c, String.get k s = Some c /\ char_in s c = true.
Proof.
  revert k. induction s as [|a s IH]; intros k Hk; simpl in *; [lia|].
  destruct k as [|k].
  - exists a. by rewrite Ascii.eqb_refl.
  - destruct (IH k) as (c & Hc & Hin); [lia|].
    exists c. split; [done|]. rewrite Hin. by rewrite orb_true_r.
Qed.

Lemma canvas_loop_spec (draw : nat -> nat) (idx : list nat) acc :
  let out :=
    fold_left
      (fun result i =>
         result +:+ charAt (draw i mod String.length canvas_chars)%nat canvas_chars)
      idx acc in
  String.length out = (String.length acc + length idx)%nat /\
  (all_chars (char_in canvas_chars) acc = true ->
   all_chars (char_in canvas_chars) out = true).
Proof.
  revert acc. induction idx as [|i idx IH]; intros acc; cbn [fold_left length].
  - split; [lia | done].
  - destruct (get_in_range canvas_chars (draw i mod String.length canvas_chars))
      as (c & Hc & Hin).
    { apply Nat.mod_upper_bound. vm_compute. lia. }
    assert (Hch : charAt (draw i mod String.length canvas_chars) canvas_chars
                  = String c EmptyString) by (unfold charAt; by rewrite Hc).
    destruct (IH (acc +:+ charAt (draw i mod String.length canvas_chars)
                    canvas_chars)) as [Hlen Hall].
    split.
    + rewrite Hlen, length_append, Hch. cbn [String.length]. lia.
    + intros Hacc. apply Hall. rewrite all_chars_app, Hacc, Hch.
      cbn [all_chars]. by rewrite Hin.
Qed.

(** X12: whatever the random draws, the canvas token has exactly 32
    characters, each of them a letter or a digit of the source's
    alphabet. *)
Theorem generateCanvasFingerprint_alphanumeric (draw : nat -> nat) :
  String.length (generateCanvasFingerprint draw) = 32%nat /\
  all_chars (char_in canvas_chars) (generateCanvasFingerprint draw) = true.
Proof.
  destruct (canvas_loop_spec draw (seq 0 32) EmptyString) as [Hlen Hall].
  split; [exact Hlen | by apply Hall].
Qed.

Lemma pick_in {A : Type} (arr : list A) draw d0 :
  arr <> [] -> pick arr draw d0 ∈ arr.
Proof.
  intros Hne. unfold pick. apply list_elem_of_In, nth_In.
  apply Nat.mod_upper_bound. by destruct arr.
Qed.

(** X13: when the overrides leave [userAgent], [platform],
    [hardwareConcurrency] and [deviceMemory] unset, the four come from one
    and the same archetype of the list (a Windows user agent is never
    paired with a Mac platform), and [timezone], [screenResolution] and
    [colorDepth] are always truthy overrides or members of their lists. *)
Theorem generateBrowserFingerprint_consistent custom d :
  opt_field custom p_userAgent = None ->
  opt_field custom p_platform = None ->
  opt_field custom p_hardwareConcurrency = None ->
  opt_field custom p_deviceMemory = None ->
  let fp := generateBrowserFingerprint custom d in
  (exists a, a ∈ browsers /\
     userAgent fp = a_userAgent a /\ platform fp = a_platform a /\
     hardwareConcurrency fp = a_hardwareConcurrency a /\
     deviceMemory fp = a_deviceMemory a) /\
  (timezone fp ∈ timezones \/ opt_field custom p_timezone = Some (timezone fp)) /\
  (screenResolution fp ∈ screenResolutions \/
   opt_field custom p_screenResolution = Some (screenResolution fp)) /\
  (colorDepth fp ∈ colorDepths \/
   opt_field custom p_colorDepth = Some (colorDepth fp)).
Proof.
  intros Hua Hpl Hhc Hdm. cbv zeta. unfold generateBrowserFingerprint.
  cbn [userAgent platform hardwareConcurrency deviceMemory timezone
       screenResolution colorDepth].
  rewrite Hua, Hpl, Hhc, Hdm. split; [|split; [|split]].
  - exists (pick browsers (d_browser d) archetype_windows).
    split; [by apply pick_in | done].
  - unfold or_str. destruct (opt_field custom p_timezone) as [v|].
    + destruct (truthy_str v); [by right | left; by apply pick_in].
    + left. by apply pick_in.
  - unfold or_str. destruct (opt_field custom p_screenResolution) as [v|].
    + destruct (truthy_str v); [by right | left; by apply pick_in].
    + left. by apply pick_in.
  - unfold or_num. destruct (opt_field custom p_colorDepth) as [v|].
    + destruct (truthy_num v); [by right | left; by apply pick_in].
    + left. by apply pick_in.
Qed.

Lemma generateBrowserFingerprint_consistent_witness :
  let fp := generateBrowserFingerprint (Some timezone_override) ex_draws in
  (exists a, a ∈ browsers /\
     userAgent fp = a_userAgent a /\ platform fp = a_platform a /\
     hardwareConcurrency fp = a_hardwareConcurrency a /\
     deviceMemory fp = a_deviceMemory a) /\
  (timezone fp ∈ timezones \/
   opt_field (Some timezone_override) p_timezone = Some (timezone fp)) /\
  (screenResolution fp ∈ screenResolutions \/
   opt_field (Some timezone_override) p_screenResolution
     = Some (screenResolution fp)) /\
  (colorDepth fp ∈ colorDepths \/
   opt_field (Some timezone_override) p_colorDepth = Some (colorDepth fp)).
Proof.
  apply (generateBrowserFingerprint_consistent (Some timezone_override) ex_draws);
    reflexivity.
Defined.

(* ===================================================================== *)
(** * Further properties of the header engine and the proxy *)
(* ===================================================================== *)

(** ** Stripping headers *)

Lemma strip_all_present names (o : list (string * hval)) k v :
  JsMap.get k (strip_all names o) = Some v -> JsMap.get k o = Some v.
Proof.
  unfold strip_all. revert o. induction names as [|n names IH]; intros o; simpl.
  - done.
  - intros H. apply IH in H. by do 2 apply get_remove_some in H.
Qed.

(** Stripping a list a second time finds nothing left to delete. *)
Lemma strip_all_idem names (o : list (string * hval)) :
  strip_all names (strip_all names o) = strip_all names o.
Proof. apply strip_all_noop. intros n Hn. by apply strip_all_removes. Qed.

Lemma strip_all_after names names' (o : list (string * hval)) :
  strip_all names (strip_all names' (strip_all names o))
  = strip_all names' (strip_all names o).
Proof.
  apply strip_all_noop. intros n Hn.
  destruct (strip_all_removes names o n Hn) as [H1 H2].
  split; by apply strip_all_absent.
Qed.

Lemma removeHeaders_then (h : gmap loc (list (string * hval))) names headers o
    {B : Type} (k : loc -> M B) :
  h !! headers = Some o ->
  (removeHeaders names headers ≫= k) h =
    k (fresh (dom h)) (<[fresh (dom h) := strip_all names o]> h).
Proof. intros Hh. by apply bind_run, removeHeaders_run. Qed.

(** X14: stripping tracking and then security headers is idempotent:
    running the pair a second time on its own result returns an object
    with exactly the same properties, in the same order, as running it
    once. *)
Theorem remove_headers_twice (h : gmap loc (list (string * hval))) headers o :
  h !! headers = Some o ->
  let once :=
    c1 ← removeTrackingHeaders headers; removeSecurityHeaders c1 in
  let twice :=
    c1 ← removeTrackingHeaders headers; c2 ← removeSecurityHeaders c1;
    c3 ← removeTrackingHeaders c2; removeSecurityHeaders c3 in
  result_object once h =
    Some (strip_all SECURITY_HEADERS (strip_all TRACKING_HEADERS o)) /\
  result_object twice h = result_object once h.
Proof.
  intros Hh once twice.
  assert (Honce : result_object once h =
            Some (strip_all SECURITY_HEADERS (strip_all TRACKING_HEADERS o))).
  { unfold result_object, once, removeTrackingHeaders, removeSecurityHeaders.
    rewrite (removeHeaders_then h _ headers o _ Hh).
    rewrite (removeHeaders_run _ _ _ _ (lookup_insert_eq _ _ _)).
    apply lookup_insert_eq. }
  split; [exact Honce|]. rewrite Honce.
  unfold result_object, twice, removeTrackingHeaders, removeSecurityHeaders.
  rewrite (removeHeaders_then h _ headers o _ Hh).
  rewrite (removeHeaders_then _ _ _ _ _ (lookup_insert_eq _ _ _)).
  rewrite (removeHeaders_then _ _ _ _ _ (lookup_insert_eq _ _ _)).
  rewrite (removeHeaders_run _ _ _ _ (lookup_insert_eq _ _ _)).
  rewrite lookup_insert_eq. f_equal.
  by rewrite !strip_all_after.
Qed.

Lemma remove_headers_twice_witness :
  let once :=
    c1 ← removeTrackingHeaders 1%positive; removeSecurityHeaders c1 in
  let twice :=
    c1 ← removeTrackingHeaders 1%positive; c2 ← removeSecurityHeaders c1;
    c3 ← removeTrackingHeaders c2; removeSecurityHeaders c3 in
  result_object once node_heap =
    Some (strip_all SECURITY_HEADERS (strip_all TRACKING_HEADERS node_headers)) /\
  result_object twice node_heap = result_object once node_heap.
Proof.
  apply (remove_headers_twice node_heap 1%positive node_headers). reflexivity.
Defined.

Lemma lower_case_keys_get (o : list (string * hval)) k :
  lower_case_keys o -> is_Some (JsMap.get k o) -> map_string lower_ascii k = k.
Proof. intros Hlow [v Hv]. apply (Forall_get _ o k v Hlow Hv). Qed.

(** Where [toLowerCase] yields an ASCII character it acts as on ASCII. *)
Lemma lower_latin1_ascii c :
  (nat_of_ascii (lower_latin1 c) <? 128)%nat = true ->
  lower_ascii c = lower_latin1 c.
Proof. by destruct c as [[] [] [] [] [] [] [] []]. Qed.

Lemma toLowerCase_ascii k n :
  is_ascii n = true -> toLowerCase k = n -> map_string lower_ascii k = n.
Proof.
  unfold toLowerCase, is_ascii. revert n.
  induction k as [|c k IH]; intros n Hn Hk; simpl in *; [done|].
  destruct n as [|c' n]; [done|]. injection Hk as Hc Hk. simpl in Hn.
  apply andb_prop in Hn as [Hc' Hn]. subst c'.
  by rewrite (lower_latin1_ascii c Hc'), (IH n Hn Hk).
Qed.

(** A name without ASCII capitals that [toLowerCase] sends to an ASCII
    name is that name. *)
Lemma toLowerCase_hits (o : list (string * hval)) k n :
  lower_case_keys o -> is_Some (JsMap.get k o) ->
  is_ascii n = true -> toLowerCase k = n -> k = n.
Proof.
  intros Hlow Hk Hn Heq.
  rewrite <- (lower_case_keys_get o k Hlow Hk). by apply toLowerCase_ascii.
Qed.

Lemma listed_names_ascii n :
  n ∈ TRACKING_HEADERS ++ SECURITY_HEADERS -> is_ascii n = true.
Proof.
  intros Hin. unfold TRACKING_HEADERS, SECURITY_HEADERS in Hin. simpl in Hin.
  repeat (apply elem_of_cons in Hin as [->|Hin]; [reflexivity|]).
  by apply elem_of_nil in Hin.
Qed.

(** No listed name is its own upper-case form. *)
Lemma listed_names_have_letters n :
  n ∈ TRACKING_HEADERS ++ SECURITY_HEADERS ->
  toLowerCase n = n /\
  map_string lower_ascii (toUpperCase n) <> toUpperCase n.
Proof.
  intros Hin. unfold TRACKING_HEADERS, SECURITY_HEADERS in Hin. simpl in Hin.
  repeat (apply elem_of_cons in Hin as [->|Hin];
          [split; [reflexivity | vm_compute; discriminate]|]).
  by apply elem_of_nil in Hin.
Qed.

Lemma strip_all_lower_case names (o : list (string * hval)) k :
  (forall n, n ∈ names -> n ∈ TRACKING_HEADERS ++ SECURITY_HEADERS) ->
  lower_case_keys o ->
  (JsMap.get k (strip_all names o) =
     if bool_decide (k ∈ names) then None else JsMap.get k o).
Proof.
  intros Hnames Hlow. case_bool_decide as Hk.
  - by apply strip_all_removes.
  - destruct (JsMap.get k o) as [v|] eqn:Hv; [|by apply strip_all_absent].
    rewrite strip_all_keeps; [done|]. intros n Hn. split; [congruence|].
    intros ->. destruct (listed_names_have_letters n (Hnames n Hn)) as [_ Hup].
    apply Hup, (lower_case_keys_get o); [done | by eexists].
Qed.

(** X15: on a header object whose names are all in lower case (as Node
    delivers request headers), [removeTrackingHeaders] returns a new
    object that has lost exactly the listed names: a listed name reads
    as absent, every other name reads as in the input, and so no
    remaining name matches a tracking header in any spelling. The input
    object is left as it was. The same holds for [removeSecurityHeaders]
    and its list. *)
Theorem remove_headers_complete_on_lower_case
    (h : gmap loc (list (string * hval))) headers o :
  h !! headers = Some o ->
  lower_case_keys o ->
  exists tracked secured ot os,
    removeTrackingHeaders headers h = Ok (tracked, <[tracked := ot]> h) /\
    removeSecurityHeaders headers h = Ok (secured, <[secured := os]> h) /\
    tracked <> headers /\ secured <> headers /\
    (forall k, JsMap.get k ot =
       if bool_decide (k ∈ TRACKING_HEADERS) then None else JsMap.get k o) /\
    (forall k, JsMap.get k os =
       if bool_decide (k ∈ SECURITY_HEADERS) then None else JsMap.get k o) /\
    (forall k, is_Some (JsMap.get k ot) -> toLowerCase k ∉ TRACKING_HEADERS) /\
    (forall k, is_Some (JsMap.get k os) -> toLowerCase k ∉ SECURITY_HEADERS).
Proof.
  intros Hh Hlow.
  assert (Hne : fresh (dom h) <> headers).
  { pose proof (fresh_not_live h). congruence. }
  assert (HT : forall k, JsMap.get k (strip_all TRACKING_HEADERS o) =
             if bool_decide (k ∈ TRACKING_HEADERS) then None else JsMap.get k o).
  { intros k. apply strip_all_lower_case; [|done].
    intros n Hn. apply elem_of_app. by left. }
  assert (HS : forall k, JsMap.get k (strip_all SECURITY_HEADERS o) =
             if bool_decide (k ∈ SECURITY_HEADERS) then None else JsMap.get k o).
  { intros k. apply strip_all_lower_case; [|done].
    intros n Hn. apply elem_of_app. by right. }
  exists (fresh (dom h)), (fresh (dom h)),
    (strip_all TRACKING_HEADERS o), (strip_all SECURITY_HEADERS o).
  split; [by apply removeHeaders_run|]. split; [by apply removeHeaders_run|].
  split; [done|]. split; [done|]. split; [exact HT|]. split; [exact HS|].
  split.
  - intros k [v Hv] Hin. pose proof (HT k) as Hk. rewrite Hv in Hk.
    case_bool_decide as Hk'; [done|].
    assert (Heq : k = toLowerCase k); [|by rewrite <- Heq in Hin].
    apply (toLowerCase_hits o); [done | rewrite <- Hk; by eexists | | done].
    apply listed_names_ascii, elem_of_app. by left.
  - intros k [v Hv] Hin. pose proof (HS k) as Hk. rewrite Hv in Hk.
    case_bool_decide as Hk'; [done|].
    assert (Heq : k = toLowerCase k); [|by rewrite <- Heq in Hin].
    apply (toLowerCase_hits o); [done | rewrite <- Hk; by eexists | | done].
    apply listed_names_ascii, elem_of_app. by right.
Qed.

Lemma node_headers_lower_case : lower_case_keys node_headers.
Proof. unfold lower_case_keys, node_headers. by repeat constructor. Qed.

Lemma remove_headers_complete_on_lower_case_witness :
  exists tracked secured ot os,
    removeTrackingHeaders 1%positive node_heap
      = Ok (tracked, <[tracked := ot]> node_heap) /\
    removeSecurityHeaders 1%positive node_heap
      = Ok (secured, <[secured := os]> node_heap) /\
    tracked <> 1%positive /\ secured <> 1%positive /\
    (forall k, JsMap.get k ot =
       if bool_decide (k ∈ TRACKING_HEADERS) then None
       else JsMap.get k node_headers) /\
    (forall k, JsMap.get k os =
       if bool_decide (k ∈ SECURITY_HEADERS) then None
       else JsMap.get k node_headers) /\
    (forall k, is_Some (JsMap.get k ot) -> toLowerCase k ∉ TRACKING_HEADERS) /\
    (forall k, is_Some (JsMap.get k os) -> toLowerCase k ∉ SECURITY_HEADERS).
Proof.
  apply (remove_headers_complete_on_lower_case node_heap 1%positive node_headers).
  - reflexivity.
  - unfold lower_case_keys, node_headers. by repeat constructor.
Defined.

(** ** fullSpoof *)

Lemma preserves_refl (h : gmap loc (list (string * hval))) : preserves h h.
Proof. by intros l o. Qed.

Lemma preserves_trans (h1 h2 h3 : gmap loc (list (string * hval))) :
  preserves h1 h2 -> preserves h2 h3 -> preserves h1 h3.
Proof. intros H12 H23 l o Hl. by apply H23, H12. Qed.

Lemma preserves_alloc (h : gmap loc (list (string * hval))) o :
  preserves h (<[fresh (dom h) := o]> h).
Proof.
  intros l o' Hl. rewrite lookup_insert_ne; [done|].
  pose proof (fresh_not_live h). congruence.
Qed.

Lemma preserves_fresh (h h1 : gmap loc (list (string * hval))) :
  preserves h h1 -> h !! fresh (dom h1) = None.
Proof.
  intros Hp. destruct (h !! fresh (dom h1)) as [o|] eqn:E; [|done].
  apply Hp in E. pose proof (fresh_not_live h1). congruence.
Qed.

(** Closes goals [forall n, n ∈ names -> k <> n /\ k <> toUpperCase n] for
    a literal [k] and a literal list. *)
Ltac solve_names_differ :=
  let n := fresh "n" in
  let Hn := fresh "Hn" in
  intros n Hn; unfold TRACKING_HEADERS, SECURITY_HEADERS in Hn;
  repeat (apply elem_of_cons in Hn as [->|Hn];
          [split; [discriminate | vm_compute; discriminate]|]);
  by apply elem_of_nil in Hn.

Section FullSpoof.
Variable parseURL : string -> option URL.

(** [fullSpoof] allocates three objects, returns the last of them and
    leaves every earlier object as it was. *)
Lemma fullSpoof_run (h : gmap loc (list (string * hval))) headers target u d dr o :
  parseURL target = Some u ->
  h !! headers = Some o ->
  exists l h2,
    fullSpoof parseURL headers target d dr h
      = Ok (l, <[l := full_spoof_obj u d dr o]> h2) /\
    preserves h h2 /\ h !! l = None.
Proof.
  intros Hu Ho.
  set (h1 := <[fresh (dom h) := assign_all (spoof_assignments d) o]> h).
  set (h2 := <[fresh (dom h1) :=
                 strip_all TRACKING_HEADERS (assign_all (spoof_assignments d) o)]> h1).
  assert (Hp : preserves h h2).
  { eapply preserves_trans; apply preserves_alloc. }
  exists (fresh (dom h2)), h2. split; [|split; [exact Hp | by apply preserves_fresh]].
  cut (wp (fullSpoof parseURL headers target d dr) h
         (fun l h3 => l = fresh (dom h2) /\
            h3 = <[fresh (dom h2) := full_spoof_obj u d dr o]> h2)).
  { intros (l & h3 & -> & -> & ->)%wp_run. reflexivity. }
  unfold fullSpoof.
  apply wp_bind. eapply wp_of_run; [by apply spoofHeaders_run|].
  apply wp_bind.
  eapply wp_of_run; [apply removeHeaders_run, lookup_insert_eq|].
  apply wp_bind.
  eapply wp_of_run; [apply removeHeaders_run, lookup_insert_eq|].
  apply wp_bind.
  eapply wp_of_run; [by apply generateReferer_run|].
  do 4 (apply wp_bind, wp_assign_top).
  apply wp_ret. split; reflexivity.
Qed.

(** X16: [fullSpoof] returns a new object and leaves its input untouched.
    In the result [referer] is [https://] followed by the host name of the
    target and one of the four fixed paths; [upgrade-insecure-requests],
    [cache-control] and [pragma] have their fixed values; the twelve
    spoofed headers are as [spoofHeaders] set them; and every listed
    tracking or security name, in lower case and in upper case, is
    absent. *)
Theorem fullSpoof_result (h : gmap loc (list (string * hval)))
    headers target u d dr o :
  parseURL target = Some u ->
  h !! headers = Some o ->
  exists l h1 o1,
    fullSpoof parseURL headers target d dr h = Ok (l, h1) /\
    h1 !! l = Some o1 /\ l <> headers /\ h1 !! headers = Some o /\
    (exists p, p ∈ referer_paths /\
       JsMap.get "referer" o1 = Some (HStr ("https://" +:+ hostname u +:+ p))) /\
    JsMap.get "upgrade-insecure-requests" o1 = Some (HStr "1") /\
    JsMap.get "cache-control" o1 = Some (HStr "max-age=0") /\
    JsMap.get "pragma" o1 = Some (HStr "no-cache") /\
    (forall k v, (k, v) ∈ spoof_assignments d -> JsMap.get k o1 = Some v) /\
    (forall n, n ∈ TRACKING_HEADERS ++ SECURITY_HEADERS ->
       JsMap.get n o1 = None /\ JsMap.get (toUpperCase n) o1 = None).
Proof.
  intros Hu Ho.
  destruct (fullSpoof_run h headers target u d dr o Hu Ho)
    as (l & h2 & Hrun & Hp & Hl).
  exists l, (<[l := full_spoof_obj u d dr o]> h2), (full_spoof_obj u d dr o).
  assert (Hne : l <> headers) by congruence.
  split; [exact Hrun|]. split; [apply lookup_insert_eq|]. split; [exact Hne|].
  split; [rewrite lookup_insert_ne by done; by apply Hp|].
  unfold full_spoof_obj, forced_assignments.
  set (inner := strip_all SECURITY_HEADERS _).
  unfold assign_all. cbn [fold_left fst snd].
  split; [|split; [|split; [|split; [|split]]]].
  - exists (pick referer_paths dr "/"). split; [by apply pick_in|].
    repeat (rewrite get_set_ne by discriminate). apply get_set_eq.
  - repeat (rewrite get_set_ne by discriminate). apply get_set_eq.
  - repeat (rewrite get_set_ne by discriminate). apply get_set_eq.
  - apply get_set_eq.
  - intros k v Hin. subst inner. unfold spoof_assignments in Hin |- *.
    unfold assign_all. cbn [fold_left fst snd].
    repeat (apply elem_of_cons in Hin as [[= -> ->]|Hin];
            [repeat (rewrite get_set_ne by discriminate);
             rewrite !strip_all_keeps by solve_names_differ;
             repeat (rewrite get_set_ne by discriminate); apply get_set_eq|]).
    by apply elem_of_nil in Hin.
  - intros n Hn.
    assert (Habs : JsMap.get n inner = None /\
                   JsMap.get (toUpperCase n) inner = None).
    { subst inner. apply elem_of_app in Hn as [Hn|Hn].
      - destruct (strip_all_removes TRACKING_HEADERS
                    (assign_all (spoof_assignments d) o) n Hn) as [H1 H2].
        split; by apply strip_all_absent.
      - by apply strip_all_removes. }
    destruct Habs as [H1 H2].
    unfold TRACKING_HEADERS, SECURITY_HEADERS in Hn. simpl in Hn.
    repeat (apply elem_of_cons in Hn as [->|Hn];
            [split;
             (repeat (rewrite get_set_ne by (vm_compute; discriminate));
              assumption)|]).
    by apply elem_of_nil in Hn.
Qed.
End FullSpoof.

Lemma fullSpoof_result_witness :
  exists l h1 o1,
    fullSpoof ex_parseURL 1%positive "https://example.com/base?x=1"
      ex_spoof_draws 2 node_heap = Ok (l, h1) /\
    h1 !! l = Some o1 /\ l <> 1%positive /\ h1 !! 1%positive = Some node_headers /\
    (exists p, p ∈ referer_paths /\
       JsMap.get "referer" o1
       = Some (HStr ("https://" +:+ hostname ex_url +:+ p))) /\
    JsMap.get "upgrade-insecure-requests" o1 = Some (HStr "1") /\
    JsMap.get "cache-control" o1 = Some (HStr "max-age=0") /\
    JsMap.get "pragma" o1 = Some (HStr "no-cache") /\
    (forall k v, (k, v) ∈ spoof_assignments ex_spoof_draws ->
       JsMap.get k o1 = Some v) /\
    (forall n, n ∈ TRACKING_HEADERS ++ SECURITY_HEADERS ->
       JsMap.get n o1 = None /\ JsMap.get (toUpperCase n) o1 = None).
Proof.
  apply (fullSpoof_result ex_parseURL node_heap 1%positive
           "https://example.com/base?x=1" ex_url ex_spoof_draws 2 node_headers);
    reflexivity.
Defined.

(** ** modifyRequest and the headers that are forwarded *)

Lemma wp_forEach_write_at {X : Type} (h : gmap loc (list (string * hval))) l o
    (xs : list X) (key : X -> string) (val : X -> hval) :
  h !! l = Some o ->
  wp (forEach xs (fun x => obj_assign_computed l (key x) (val x))) h
     (fun _ h1 =>
        h1 = <[l := write_all (map (fun x => (key x, val x)) xs) o]> h).
Proof.
  revert h o. induction xs as [|x xs IH]; intros h o Hl; simpl.
  - apply wp_ret. unfold write_all. simpl. by rewrite insert_id.
  - apply wp_bind. unfold wp at 1, obj_assign_computed, update. rewrite Hl.
    eapply wp_mono; [apply (IH _ (prop_write (key x) (val x) o)), lookup_insert_eq|].
    intros u1 h1 ->. simpl. by rewrite insert_insert_eq.
Qed.

(** The last assignment to a name decides what it reads. *)
Lemma get_assign_all_last (kvs o : list (string * hval)) k :
  JsMap.get k (assign_all kvs o) =
    match JsMap.get k (assign_all kvs []) with
    | Some v => Some v
    | None => JsMap.get k o
    end.
Proof.
  unfold assign_all. revert o.
  induction kvs as [|[a b] kvs IH]; intros o; simpl; [done|].
  rewrite (IH (JsMap.set a b o)), (IH [(a, b)]).
  destruct (JsMap.get k (fold_left _ kvs [])); [done|]. simpl.
  destruct (String.eqb_spec a k) as [->|Hne].
  - apply get_set_eq.
  - by apply get_set_ne.
Qed.

Lemma get_assign_all_nodup (kvs o : list (string * hval)) k :
  NoDup (JsMap.keys kvs) ->
  JsMap.get k (assign_all kvs o) =
    match JsMap.get k kvs with
    | Some v => Some v
    | None => JsMap.get k o
    end.
Proof.
  unfold assign_all. revert o.
  induction kvs as [|[a b] kvs IH]; intros o Hnd; simpl; [done|].
  simpl in Hnd. apply NoDup_cons in Hnd as [Hni Hnd].
  rewrite IH by done. destruct (String.eqb_spec a k) as [->|Hne].
  - rewrite (not_in_keys_get kvs k Hni). apply get_set_eq.
  - destruct (JsMap.get k kvs); [done|]. by apply get_set_ne.
Qed.

Lemma is_Some_get_assign_all (kvs o : list (string * hval)) k :
  is_Some (JsMap.get k (assign_all kvs o)) ->
  k ∈ map fst kvs \/ is_Some (JsMap.get k o).
Proof.
  destruct (decide (k ∈ map fst kvs)) as [Hin|Hni]; [by left|].
  rewrite get_assign_all_other by done. by right.
Qed.

(** Writes with computed names: what they leave alone, what they keep. *)
Lemma get_write_all_other (kvs o : list (string * hval)) k :
  k ∉ map fst kvs -> JsMap.get k (write_all kvs o) = JsMap.get k o.
Proof.
  unfold write_all. revert o.
  induction kvs as [|[k0 v0] kvs IH]; intros o Hk; simpl; [done|].
  simpl in Hk. apply not_elem_of_cons in Hk as [Hne Hk].
  rewrite IH by done. by apply get_prop_write_ne.
Qed.

Lemma is_Some_get_write_all (kvs o : list (string * hval)) k :
  is_Some (JsMap.get k (write_all kvs o)) ->
  k ∈ map fst kvs \/ is_Some (JsMap.get k o).
Proof.
  destruct (decide (k ∈ map fst kvs)) as [Hin|Hni]; [by left|].
  rewrite get_write_all_other by done. by right.
Qed.

Lemma get_write_all_keeps (kvs o : list (string * hval)) k :
  is_Some (JsMap.get k o) -> is_Some (JsMap.get k (write_all kvs o)).
Proof.
  unfold write_all. revert o. induction kvs as [|[a b] kvs IH]; intros o H; simpl.
  - done.
  - by apply IH, get_prop_write_keeps.
Qed.

(** Away from the name [__proto__], writes with computed names act as
    plain assignments. *)
Lemma get_write_all_assign (kvs o o' : list (string * hval)) k :
  k <> "__proto__" ->
  JsMap.get k o = JsMap.get k o' ->
  JsMap.get k (write_all kvs o) = JsMap.get k (assign_all kvs o').
Proof.
  intros Hk. unfold write_all, assign_all. revert o o'.
  induction kvs as [|[a b] kvs IH]; intros o o' Ho; simpl; [done|].
  apply IH. destruct (decide (a = k)) as [->|Hne].
  - by rewrite get_prop_write_eq, get_set_eq.
  - by rewrite get_prop_write_ne, get_set_ne.
Qed.

Lemma lower_latin1_idem c : lower_latin1 (lower_latin1 c) = lower_latin1 c.
Proof. by destruct c as [[] [] [] [] [] [] [] []]. Qed.

Lemma toLowerCase_idem s : toLowerCase (toLowerCase s) = toLowerCase s.
Proof.
  unfold toLowerCase. induction s as [|c s IH]; simpl; [done|].
  by rewrite lower_latin1_idem, IH.
Qed.

Section KeyFacts.
Variable P : string * hval -> Prop.

Lemma Forall_prop_write (o : list (string * hval)) k v :
  P (k, v) -> Forall P o -> Forall P (prop_write k v o).
Proof.
  intros Hk Ho. unfold prop_write. destruct (_ && _); [done|].
  by apply Forall_set.
Qed.

Lemma Forall_assign_all (kvs o : list (string * hval)) :
  Forall P kvs -> Forall P o -> Forall P (assign_all kvs o).
Proof.
  unfold assign_all. revert o. induction kvs as [|[a b] kvs IH]; intros o Hk Ho; simpl.
  - done.
  - apply Forall_cons in Hk as [Ha Hk]. apply IH; [done|].
    by apply Forall_set.
Qed.

Lemma Forall_write_all (kvs o : list (string * hval)) :
  Forall P kvs -> Forall P o -> Forall P (write_all kvs o).
Proof.
  unfold write_all. revert o. induction kvs as [|[a b] kvs IH]; intros o Hk Ho; simpl.
  - done.
  - apply Forall_cons in Hk as [Ha Hk]. apply IH; [done|].
    by apply Forall_prop_write.
Qed.

Lemma Forall_strip_all names (o : list (string * hval)) :
  Forall P o -> Forall P (strip_all names o).
Proof.
  unfold strip_all. revert o. induction names as [|n names IH]; intros o Ho; simpl.
  - done.
  - apply IH. by do 2 apply Forall_remove.
Qed.
End KeyFacts.

Lemma nodup_prop_write (o : list (string * hval)) k v :
  NoDup (JsMap.keys o) -> NoDup (JsMap.keys (prop_write k v o)).
Proof.
  intros Ho. unfold prop_write. destruct (_ && _); [done|]. by apply nodup_set.
Qed.

Lemma nodup_assign_all (kvs o : list (string * hval)) :
  NoDup (JsMap.keys o) -> NoDup (JsMap.keys (assign_all kvs o)).
Proof.
  unfold assign_all. revert o. induction kvs as [|[a b] kvs IH]; intros o Ho; simpl.
  - done.
  - by apply IH, nodup_set.
Qed.

Lemma nodup_write_all (kvs o : list (string * hval)) :
  NoDup (JsMap.keys o) -> NoDup (JsMap.keys (write_all kvs o)).
Proof.
  unfold write_all. revert o. induction kvs as [|[a b] kvs IH]; intros o Ho; simpl.
  - done.
  - by apply IH, nodup_prop_write.
Qed.

Lemma nodup_strip_all names (o : list (string * hval)) :
  NoDup (JsMap.keys o) -> NoDup (JsMap.keys (strip_all names o)).
Proof.
  unfold strip_all. revert o. induction names as [|n names IH]; intros o Ho; simpl.
  - done.
  - by apply IH, nodup_remove, nodup_remove.
Qed.

Lemma custom_assignments_lower_cased custom :
  lower_cased_names (custom_assignments custom).
Proof.
  unfold lower_cased_names, custom_assignments.
  induction custom as [|[a b] custom IH]; simpl; [done|].
  apply Forall_cons. split; [apply toLowerCase_idem | done].
Qed.

Lemma lower_keys_fixed (o : list (string * hval)) :
  lower_cased_names o -> lower_keys o = o.
Proof.
  unfold lower_cased_names, lower_keys.
  induction o as [|[a b] o IH]; simpl; [done|].
  intros [Ha Ho]%Forall_cons. simpl in Ha. by rewrite Ha, IH.
Qed.

(** The spoofed object, with or without the caller's overrides, has
    lower-cased names, one entry each, if the inbound headers have. *)
Lemma overlay_config_well_formed config u d dr (o : list (string * hval)) :
  lower_cased_names o -> NoDup (JsMap.keys o) ->
  lower_cased_names (overlay_config config (full_spoof_obj u d dr o)) /\
  NoDup (JsMap.keys (overlay_config config (full_spoof_obj u d dr o))).
Proof.
  intros Hlow Hnd.
  assert (Hf : lower_cased_names (full_spoof_obj u d dr o) /\
               NoDup (JsMap.keys (full_spoof_obj u d dr o))).
  { unfold full_spoof_obj. split.
    - apply Forall_assign_all; [by repeat constructor|].
      do 2 apply Forall_strip_all.
      apply Forall_assign_all; [by repeat constructor | done].
    - by apply nodup_assign_all, nodup_strip_all, nodup_strip_all,
        nodup_assign_all. }
  destruct Hf as [Hfl Hfn]. unfold overlay_config.
  set (wc := match cfg_headers config with
             | Some custom => write_all (custom_assignments custom) _
             | None => _
             end).
  assert (Hwc : lower_cased_names wc /\ NoDup (JsMap.keys wc)).
  { subst wc. destruct (cfg_headers config) as [custom|]; [|done]. split.
    - apply Forall_write_all; [apply custom_assignments_lower_cased | done].
    - by apply nodup_write_all. }
  destruct Hwc as [Hwl Hwn].
  destruct (cfg_userAgent config) as [ua|]; [|done].
  destruct (truthy_str ua); [|done]. split.
  - by apply Forall_set.
  - by apply nodup_set.
Qed.

Section ModifyRequest.
Variable parseURL : string -> option URL.
Variable encodePathname : URL -> string -> string.
Variable encodeSearch : URL -> string -> string.
Variable href : URL -> string.

Lemma modifyRequest_run (h : gmap loc (list (string * hval))) config req env u o :
  parseURL (targetUrl config) = Some u ->
  h !! im_headers req = Some o ->
  exists h1,
    modifyRequest parseURL config req env h = Ok (req, h1) /\
    h1 !! im_headers req = Some (forwarded_headers config u env o).
Proof.
  intros Hu Ho.
  destruct (fullSpoof_run parseURL h (im_headers req) (targetUrl config) u
              (e_spoof env) (e_refererPath env) o Hu Ho)
    as (l & h2 & Hrun & Hp & Hl).
  set (fso := full_spoof_obj u (e_spoof env) (e_refererPath env) o) in *.
  assert (Hne : l <> im_headers req) by congruence.
  cut (wp (modifyRequest parseURL config req env) h
         (fun r h1 => r = req /\
            h1 !! im_headers req = Some (forwarded_headers config u env o))).
  { intros (r & h1 & Hr & -> & Hh1)%wp_run. by exists h1. }
  unfold modifyRequest. apply wp_bind. eapply wp_of_run; [exact Hrun|].
  apply wp_bind.
  eapply (wp_mono _ _ (fun _ h3 =>
            h3 = <[l := match cfg_headers config with
                        | Some custom => write_all (custom_assignments custom) fso
                        | None => fso
                        end]> h2)).
  { destruct (cfg_headers config) as [custom|].
    - eapply wp_mono.
      + apply (wp_forEach_write_at _ l fso custom
                 (fun kv => toLowerCase (fst kv)) (fun kv => HStr (snd kv))).
        apply lookup_insert_eq.
      + intros u1 h3 ->. simpl. by rewrite insert_insert_eq.
    - by apply wp_ret. }
  intros u1 h3 ->. apply wp_bind.
  eapply (wp_mono _ _ (fun _ h4 => h4 = <[l := overlay_config config fso]> h2)).
  { unfold overlay_config. destruct (cfg_userAgent config) as [ua|].
    - destruct (truthy_str ua).
      + by apply wp_assign_top.
      + by apply wp_ret.
    - by apply wp_ret. }
  intros u2 h4 ->. apply wp_bind.
  eapply wp_of_run.
  { unfold deref. by rewrite lookup_insert_eq. }
  apply wp_bind. eapply wp_mono.
  { apply (wp_forEach_write_at _ (im_headers req) o
             (overlay_config config fso)
             (fun kv => toLowerCase (fst kv)) (fun kv => snd kv)).
    rewrite lookup_insert_ne by done. by apply Hp. }
  intros u3 h5 ->. apply wp_ret. split; [done|]. apply lookup_insert_eq.
Qed.

Lemma handleRequest_run (h : gmap loc (list (string * hval))) config req env u o :
  im_method req <> Some "OPTIONS" ->
  parseURL (targetUrl config) = Some u ->
  h !! im_headers req = Some o ->
  exists line h1,
    handleRequest parseURL encodePathname encodeSearch href config req env h
      = Ok ([ConsoleLog line; ProxyWeb req (origin u) true], h1) /\
    h1 !! im_headers req = Some (forwarded_headers config u env o).
Proof.
  intros Hm Hu Ho.
  destruct (modifyRequest_run h config req env u o Hu Ho) as (h1 & Hrun & Hh1).
  unfold handleRequest. rewrite bool_decide_eq_false_2 by done.
  rewrite (bind_run _ _ _ _ _ Hrun).
  unfold new_URL. rewrite Hu. unfold mbind, M_bind, bind, mret, M_ret, ret.
  rewrite origin_build_target. by eexists _, h1.
Qed.

(** Names a constant of the pipeline can be assigned under never collide
    with a tracking header. *)
Lemma pipeline_keys_not_tracking d referer k :
  k ∈ "user-agent" :: map fst (forced_assignments referer)
        ++ map fst (spoof_assignments d) ->
  toLowerCase k ∉ TRACKING_HEADERS.
Proof.
  intros Hin. simpl in Hin.
  repeat (apply elem_of_cons in Hin as [->|Hin];
          [apply (bool_decide_unpack _); by vm_compute|]).
  by apply elem_of_nil in Hin.
Qed.

(** X17: the request handed to the proxied call never has fewer headers
    than the inbound one. In particular a tracking header such as
    [x-forwarded-for] that arrived on the request (names in lower case)
    is still there with its inbound value, although [fullSpoof] took it
    out of its own copy: [modifyRequest] only assigns the copy's
    properties back onto [req.headers] and deletes nothing. (The caller's
    header overrides are assumed not to name that header.) *)
Theorem handleRequest_keeps_tracking_headers
    (h : gmap loc (list (string * hval))) config req env u o :
  im_method req <> Some "OPTIONS" ->
  parseURL (targetUrl config) = Some u ->
  h !! im_headers req = Some o ->
  lower_case_keys o ->
  exists line h1 o1,
    handleRequest parseURL encodePathname encodeSearch href config req env h
      = Ok ([ConsoleLog line; ProxyWeb req (origin u) true], h1) /\
    h1 !! im_headers req = Some o1 /\
    (forall k, is_Some (JsMap.get k o) -> is_Some (JsMap.get k o1)) /\
    (forall n, n ∈ TRACKING_HEADERS ->
       (forall custom kv, cfg_headers config = Some custom -> kv ∈ custom ->
          toLowerCase (fst kv) <> n) ->
       JsMap.get n o1 = JsMap.get n o).
Proof.
  intros Hm Hu Ho Hlow.
  destruct (handleRequest_run h config req env u o Hm Hu Ho)
    as (line & h1 & Hrun & Hh1).
  exists line, h1, (forwarded_headers config u env o).
  split; [exact Hrun|]. split; [exact Hh1|]. unfold forwarded_headers. split.
  - intros k. apply get_write_all_keeps.
  - intros n Hn Hcustom. apply get_write_all_other.
    unfold lower_keys. rewrite map_map. simpl.
    intros ([k v] & Heq & Hin)%list_elem_of_fmap. simpl in Heq.
    assert (Hk : is_Some (JsMap.get k
                   (overlay_config config
                      (full_spoof_obj u (e_spoof env) (e_refererPath env) o)))).
    { apply in_keys_get. unfold JsMap.keys. apply list_elem_of_fmap.
      by exists (k, v). }
    clear Hin.
    assert (Hfso : is_Some (JsMap.get k
                     (full_spoof_obj u (e_spoof env) (e_refererPath env) o)) ->
                   toLowerCase k ∉ TRACKING_HEADERS).
    { unfold full_spoof_obj. intros [Hin|Hin]%is_Some_get_assign_all.
      - apply (pipeline_keys_not_tracking (e_spoof env)
                 (referer_of u (e_refererPath env))).
        apply list_elem_of_further, elem_of_app. left. exact Hin.
      - destruct Hin as [w Hw]. apply strip_all_present in Hw.
        assert (Hnt : k ∉ TRACKING_HEADERS).
        { intros Hk'. by rewrite (proj1 (strip_all_removes _ _ k Hk')) in Hw. }
        apply strip_all_present in Hw.
        destruct (is_Some_get_assign_all (spoof_assignments (e_spoof env)) o k)
          as [Hs|Hs]; [by eexists| |].
        + apply (pipeline_keys_not_tracking (e_spoof env)
                   (referer_of u (e_refererPath env))).
          apply list_elem_of_further, elem_of_app. right. exact Hs.
        + intros Hin. apply Hnt.
          assert (Hkk : k = toLowerCase k); [|by rewrite Hkk].
          apply (toLowerCase_hits o); [done | done | | done].
          apply listed_names_ascii, elem_of_app. by left. }
    assert (Hwc : is_Some (JsMap.get k
                    match cfg_headers config with
                    | Some custom =>
                        write_all (custom_assignments custom)
                          (full_spoof_obj u (e_spoof env) (e_refererPath env) o)
                    | None =>
                        full_spoof_obj u (e_spoof env) (e_refererPath env) o
                    end) -> toLowerCase k <> n).
    { destruct (cfg_headers config) as [custom|] eqn:Hc.
      - intros [Hin|Hin]%is_Some_get_write_all.
        + unfold custom_assignments in Hin. rewrite map_map in Hin. simpl in Hin.
          apply list_elem_of_fmap in Hin as (kv & -> & Hin).
          rewrite toLowerCase_idem. by eapply Hcustom.
        + intros <-. by apply Hfso.
      - intros Hin <-. by apply Hfso. }
    assert (Hgoal : toLowerCase k <> n); [|by apply Hgoal].
    unfold overlay_config in Hk.
    destruct (cfg_userAgent config) as [ua|]; [|by apply Hwc].
    destruct (truthy_str ua); [|by apply Hwc].
    destruct (decide (k = "user-agent")) as [->|Hne].
    + intros <-. revert Hn. apply (bool_decide_unpack _). by vm_compute.
    + rewrite get_set_ne in Hk by done. by apply Hwc.
Qed.

(** X18: with every inbound header name its own [toLowerCase], one entry
    each, the caller's choices win on the forwarded request: a non-empty
    configured user agent is the forwarded [user-agent] whatever was
    spoofed or overridden, and any other header the caller overrides,
    except under the name [__proto__], is forwarded with the caller's
    (last) value for it, names compared after [toLowerCase]. *)
Theorem handleRequest_caller_overrides_win
    (h : gmap loc (list (string * hval))) config req env u o :
  im_method req <> Some "OPTIONS" ->
  parseURL (targetUrl config) = Some u ->
  h !! im_headers req = Some o ->
  lower_cased_names o -> NoDup (JsMap.keys o) ->
  exists line h1 o1,
    handleRequest parseURL encodePathname encodeSearch href config req env h
      = Ok ([ConsoleLog line; ProxyWeb req (origin u) true], h1) /\
    h1 !! im_headers req = Some o1 /\
    (forall ua, cfg_userAgent config = Some ua -> ua <> "" ->
       JsMap.get "user-agent" o1 = Some (HStr ua)) /\
    (forall custom k v, cfg_headers config = Some custom ->
       custom_value custom k = Some v ->
       k <> "user-agent" -> k <> "__proto__" ->
       JsMap.get k o1 = Some v).
Proof.
  intros Hm Hu Ho Hlow Hnd.
  destruct (handleRequest_run h config req env u o Hm Hu Ho)
    as (line & h1 & Hrun & Hh1).
  exists line, h1, (forwarded_headers config u env o).
  split; [exact Hrun|]. split; [exact Hh1|]. unfold forwarded_headers.
  destruct (overlay_config_well_formed config u (e_spoof env) (e_refererPath env)
              o Hlow Hnd) as [Hel Hen].
  rewrite (lower_keys_fixed _ Hel).
  split.
  - intros ua Hua Hne.
    rewrite (get_write_all_assign _ o o) by done.
    rewrite get_assign_all_nodup by done.
    unfold overlay_config. rewrite Hua.
    destruct ua; [done|]. simpl. by rewrite get_set_eq.
  - intros custom k v Hc Hv Hk Hproto.
    rewrite (get_write_all_assign _ o o) by done.
    rewrite get_assign_all_nodup by done.
    assert (Hget : JsMap.get k
                     (overlay_config config
                        (full_spoof_obj u (e_spoof env) (e_refererPath env) o))
                   = Some v).
    { unfold overlay_config. rewrite Hc.
      assert (Hwc : JsMap.get k
                (write_all (custom_assignments custom)
                   (full_spoof_obj u (e_spoof env) (e_refererPath env) o))
              = Some v).
      { rewrite (get_write_all_assign _ _
                   (full_spoof_obj u (e_spoof env) (e_refererPath env) o))
          by done.
        rewrite get_assign_all_last. unfold custom_value in Hv. by rewrite Hv. }
      destruct (cfg_userAgent config) as [ua|]; [|done].
      destruct (truthy_str ua); [|done]. by rewrite get_set_ne. }
    by rewrite Hget.
Qed.
End ModifyRequest.

Lemma handleRequest_keeps_tracking_headers_witness :
  exists line h1 o1,
    handleRequest ex_parseURL (fun _ s => s) (fun _ s => s) ex_href
      ex_config (node_request "GET") ex_env node_heap
      = Ok ([ConsoleLog line;
             ProxyWeb (node_request "GET") (origin ex_url) true], h1) /\
    h1 !! 1%positive = Some o1 /\
    (forall k, is_Some (JsMap.get k node_headers) -> is_Some (JsMap.get k o1)) /\
    (forall n, n ∈ TRACKING_HEADERS ->
       (forall custom kv, cfg_headers ex_config = Some custom -> kv ∈ custom ->
          toLowerCase (fst kv) <> n) ->
       JsMap.get n o1 = JsMap.get n node_headers).
Proof.
  apply (handleRequest_keeps_tracking_headers ex_parseURL (fun _ s => s)
           (fun _ s => s) ex_href node_heap ex_config (node_request "GET")
           ex_env ex_url node_headers).
  - discriminate.
  - reflexivity.
  - reflexivity.
  - unfold lower_case_keys, node_headers. by repeat constructor.
Defined.

(** The forwarded request of the example still carries the client address
    and the Cloudflare ray id it arrived with. *)
Lemma forwarded_headers_example :
  JsMap.get "x-forwarded-for"
    (forwarded_headers ex_config ex_url ex_env node_headers)
    = Some (HStr "203.0.113.7") /\
  JsMap.get "cf-ray" (forwarded_headers ex_config ex_url ex_env node_headers)
    = Some (HStr "8a1b2c3d").
Proof. by vm_compute. Qed.

(** The caller overrides [Accept-Language] and [X-É] (the capital E with
    acute accent is code unit 201) and configures a user agent; the
    forwarded request carries all three, the header names lower-cased. *)
Lemma handleRequest_caller_overrides_win_witness :
  exists line h1 o1,
    handleRequest ex_parseURL (fun _ s => s) (fun _ s => s) ex_href
      custom_config (node_request "GET") ex_env node_heap
      = Ok ([ConsoleLog line;
             ProxyWeb (node_request "GET") (origin ex_url) true], h1) /\
    h1 !! 1%positive = Some o1 /\
    JsMap.get "user-agent" o1 = Some (HStr "MyAgent/2.0") /\
    JsMap.get "accept-language" o1 = Some (HStr "fr-FR") /\
    JsMap.get (toLowerCase x_E_acute) o1 = Some (HStr "1") /\
    toLowerCase x_E_acute = "x-" +:+ String (ascii_of_nat 233) "".
Proof.
  destruct (handleRequest_caller_overrides_win ex_parseURL (fun _ s => s)
              (fun _ s => s) ex_href node_heap custom_config (node_request "GET")
              ex_env ex_url node_headers)
    as (line & h1 & o1 & Hrun & Hh1 & Hua & Hcustom).
  - discriminate.
  - reflexivity.
  - reflexivity.
  - unfold lower_cased_names, node_headers. by repeat constructor.
  - apply (bool_decide_unpack _). by vm_compute.
  - exists line, h1, o1. split; [exact Hrun|]. split; [exact Hh1|].
    split; [apply Hua; [reflexivity | discriminate]|].
    split; [eapply Hcustom; [reflexivity | reflexivity | discriminate
                            | discriminate]|].
    split; [eapply Hcustom; [reflexivity | reflexivity | discriminate
                            | discriminate]|].
    reflexivity.
Defined.

(** An override named [__proto__] does not reach the forwarded request,
    and the other overrides are not disturbed by it. *)
Lemma caller_overrides_example :
  let config :=
    {| targetUrl := "https://example.com/base?x=1";
       cfg_headers := Some [("__proto__", "polluted"); ("Accept-Language", "fr-FR")];
       cfg_userAgent := None; cfg_stripHeaders := None |} in
  JsMap.get "__proto__" (forwarded_headers config ex_url ex_env node_headers)
    = None /\
  JsMap.get "accept-language"
    (forwarded_headers config ex_url ex_env node_headers)
    = Some (HStr "fr-FR").
Proof. by vm_compute. Qed.

(** ** The [proxyRes] listener *)

Lemma wp_assign_at (h : gmap loc (list (string * hval))) l o k v
    (Q : unit -> gmap loc (list (string * hval)) -> Prop) :
  h !! l = Some o ->
  Q tt (<[l := JsMap.set k v o]> h) ->
  wp (obj_assign l k v) h Q.
Proof. intros Hl HQ. unfold wp, obj_assign, update. by rewrite Hl. Qed.

(** X19: the [proxyRes] listener rewrites the upstream's header object in
    place: the three CORS headers and [cache-control] get the proxy's
    fixed values whatever the upstream sent, [x-frame-options],
    [content-security-policy] and [x-content-type-options] are removed,
    and every other header (among them [strict-transport-security],
    [x-xss-protection] and [referrer-policy], which the request-side
    security list names) is passed through unchanged. *)
Theorem on_proxyRes_spec (h : gmap loc (list (string * hval))) headers o :
  h !! headers = Some o ->
  exists o1,
    on_proxyRes headers h = Ok (tt, <[headers := o1]> h) /\
    JsMap.get "access-control-allow-origin" o1 = Some (HStr "*") /\
    JsMap.get "access-control-allow-methods" o1
      = Some (HStr "GET, POST, PUT, DELETE, OPTIONS") /\
    JsMap.get "access-control-allow-headers" o1
      = Some (HStr "Content-Type, Authorization") /\
    JsMap.get "cache-control" o1
      = Some (HStr "no-cache, no-store, must-revalidate") /\
    JsMap.get "x-frame-options" o1 = None /\
    JsMap.get "content-security-policy" o1 = None /\
    JsMap.get "x-content-type-options" o1 = None /\
    (forall k,
       k ∉ ["access-control-allow-origin"; "access-control-allow-methods";
            "access-control-allow-headers"; "cache-control";
            "x-frame-options"; "content-security-policy";
            "x-content-type-options"] ->
       JsMap.get k o1 = JsMap.get k o).
Proof.
  intros Hh. eexists. split.
  - cut (wp (on_proxyRes headers) h
           (fun _ h1 => h1 = <[headers :=
              JsMap.remove "x-content-type-options"
                (JsMap.remove "content-security-policy"
                   (JsMap.remove "x-frame-options"
                      (assign_all
                         [("access-control-allow-origin", HStr "*");
                          ("access-control-allow-methods",
                           HStr "GET, POST, PUT, DELETE, OPTIONS");
                          ("access-control-allow-headers",
                           HStr "Content-Type, Authorization");
                          ("cache-control",
                           HStr "no-cache, no-store, must-revalidate")] o)))]> h)).
    { intros ([] & h1 & -> & ->)%wp_run. reflexivity. }
    unfold on_proxyRes.
    apply wp_bind. eapply wp_assign_at; [exact Hh|].
    do 3 (apply wp_bind, wp_assign_top).
    do 2 (apply wp_bind, wp_delete_top). apply wp_delete_top. reflexivity.
  - unfold assign_all. cbn [fold_left fst snd].
    repeat split;
      try (repeat (rewrite get_remove_ne by discriminate);
           repeat (rewrite get_set_ne by discriminate);
           first [apply get_set_eq | apply get_remove_eq]).
    intros k Hk. repeat (apply not_elem_of_cons in Hk as [? Hk]).
    repeat (rewrite get_remove_ne by done). by repeat (rewrite get_set_ne by done).
Qed.

Lemma on_proxyRes_spec_witness :
  exists o1,
    on_proxyRes 1%positive response_heap
      = Ok (tt, <[1%positive := o1]> response_heap) /\
    JsMap.get "access-control-allow-origin" o1 = Some (HStr "*") /\
    JsMap.get "access-control-allow-methods" o1
      = Some (HStr "GET, POST, PUT, DELETE, OPTIONS") /\
    JsMap.get "access-control-allow-headers" o1
      = Some (HStr "Content-Type, Authorization") /\
    JsMap.get "cache-control" o1
      = Some (HStr "no-cache, no-store, must-revalidate") /\
    JsMap.get "x-frame-options" o1 = None /\
    JsMap.get "content-security-policy" o1 = None /\
    JsMap.get "x-content-type-options" o1 = None /\
    (forall k,
       k ∉ ["access-control-allow-origin"; "access-control-allow-methods";
            "access-control-allow-headers"; "cache-control";
            "x-frame-options"; "content-security-policy";
            "x-content-type-options"] ->
       JsMap.get k o1 = JsMap.get k response_headers).
Proof.
  apply (on_proxyRes_spec response_heap 1%positive response_headers).
  reflexivity.
Defined.

(** ** User-agent selection *)

Lemma pick_onto {A : Type} (arr : list A) a d0 :
  a ∈ arr -> exists draw, pick arr draw d0 = a.
Proof.
  intros (i & Hi)%list_elem_of_lookup. exists i. unfold pick.
  pose proof (lookup_lt_Some _ _ _ Hi) as Hlt.
  rewrite Nat.mod_small by done. by apply nth_lookup_Some with (d := d0) in Hi.
Qed.

(** X20: [getUserAgentForBrowser] only ever returns an agent listed for
    the requested browser, and [getRandomUserAgent] only one of the ten
    listed agents; conversely every listed agent is returned for some
    draw. *)
Theorem user_agent_selection_spec browser draw :
  getUserAgentForBrowser browser draw ∈ agents_of browser /\
  getRandomUserAgent draw ∈ concat BROWSER_USER_AGENTS /\
  length (concat BROWSER_USER_AGENTS) = 10%nat /\
  (forall a, a ∈ agents_of browser ->
     exists draw', getUserAgentForBrowser browser draw' = a) /\
  (forall a, a ∈ concat BROWSER_USER_AGENTS ->
     exists draw', getRandomUserAgent draw' = a).
Proof.
  split; [|split; [|split; [|split]]].
  - unfold getUserAgentForBrowser. apply pick_in. by destruct browser.
  - unfold getRandomUserAgent. by apply pick_in.
  - reflexivity.
  - intros a Ha. by apply pick_onto.
  - intros a Ha. by apply pick_onto.
Qed.

(** ** The constructor of [ProxyServer] *)

(** The defaults give way to every property of the caller's object, one
    that holds [undefined] included: a caller that writes
    [userAgent: undefined] gets a server without a configured user agent,
    one that leaves the property out gets one of [USER_AGENTS]. *)
Lemma ProxyServer_explicit_undefined target draw :
  let left_out :=
    {| opt_targetUrl := target; opt_headers := None; opt_userAgent := None;
       opt_stripHeaders := None |} in
  let explicit :=
    {| opt_targetUrl := target; opt_headers := None;
       opt_userAgent := Some None; opt_stripHeaders := None |} in
  cfg_userAgent (ProxyServer explicit draw) = None /\
  (exists ua, cfg_userAgent (ProxyServer left_out draw) = Some ua /\
     ua ∈ USER_AGENTS) /\
  cfg_stripHeaders (ProxyServer explicit draw) = Some DEFAULT_STRIP_HEADERS.
Proof.
  split; [reflexivity|]. split; [|reflexivity].
  eexists. split; [reflexivity|]. by apply pick_in.
Qed.

(** ** cleanResponseHeaders *)

Lemma remove_comm {V : Type} (m : list (string * V)) k k' :
  JsMap.remove k (JsMap.remove k' m) = JsMap.remove k' (JsMap.remove k m).
Proof.
  induction m as [|[k0 v0] m IH]; simpl; [done|].
  destruct (String.eqb k0 k') eqn:E'; destruct (String.eqb k0 k) eqn:E; simpl;
    rewrite ?E, ?E'; by rewrite IH.
Qed.

Lemma strip_all_remove names (o : list (string * hval)) k :
  strip_all names (JsMap.remove k o) = JsMap.remove k (strip_all names o).
Proof.
  unfold strip_all. revert o. induction names as [|n names IH]; intros o; simpl.
  - done.
  - rewrite <- IH. f_equal.
    by rewrite (remove_comm o n k), (remove_comm _ (toUpperCase n) k).
Qed.

(** Stripping a list first changes nothing when a longer list is stripped
    afterwards. *)
Lemma strip_all_subsumes names names' (o : list (string * hval)) :
  (forall n, n ∈ names -> n ∈ names') ->
  strip_all names' (strip_all names o) = strip_all names' o.
Proof.
  intros Hsub. revert o. induction names as [|n names IH]; intros o; [done|].
  change (strip_all (n :: names) o)
    with (strip_all names (JsMap.remove (toUpperCase n) (JsMap.remove n o))).
  rewrite IH by (intros n' Hn'; by apply Hsub, list_elem_of_further).
  rewrite !strip_all_remove.
  destruct (strip_all_removes names' o n (Hsub n (list_elem_of_here _ _)))
    as [H1 H2].
  rewrite (remove_absent _ n H1). by apply remove_absent.
Qed.

Lemma cleanResponseHeaders_run (h : gmap loc (list (string * hval))) headers o :
  h !! headers = Some o ->
  cleanResponseHeaders headers h =
    Ok (fresh (dom h), <[fresh (dom h) := strip_all headersToRemove o]> h).
Proof. apply (removeHeaders_run h headersToRemove). Qed.

(** X21: [cleanResponseHeaders] returns a new object without touching its
    input; each of its fifteen names and its upper-case form is absent
    from the result and every other name reads as in the input; it
    removes everything [removeSecurityHeaders] removes, so cleaning the
    output of [removeSecurityHeaders] gives the same object as cleaning
    the original. *)
Theorem cleanResponseHeaders_spec (h : gmap loc (list (string * hval))) headers o :
  h !! headers = Some o ->
  exists cleaned o1,
    cleanResponseHeaders headers h = Ok (cleaned, <[cleaned := o1]> h) /\
    cleaned <> headers /\
    (forall n, n ∈ headersToRemove ->
       JsMap.get n o1 = None /\ JsMap.get (toUpperCase n) o1 = None) /\
    (forall k, (forall n, n ∈ headersToRemove -> k <> n /\ k <> toUpperCase n) ->
       JsMap.get k o1 = JsMap.get k o) /\
    (forall n, n ∈ SECURITY_HEADERS -> n ∈ headersToRemove) /\
    result_object (c ← removeSecurityHeaders headers; cleanResponseHeaders c) h
      = Some o1.
Proof.
  intros Hh.
  assert (Hsub : forall n, n ∈ SECURITY_HEADERS -> n ∈ headersToRemove).
  { intros n Hn. unfold SECURITY_HEADERS in Hn.
    repeat (apply elem_of_cons in Hn as [->|Hn];
            [apply (bool_decide_unpack _); by vm_compute|]).
    by apply elem_of_nil in Hn. }
  exists (fresh (dom h)), (strip_all headersToRemove o).
  split; [by apply cleanResponseHeaders_run|]. split.
  { pose proof (fresh_not_live h). congruence. }
  split; [intros n Hn; by apply strip_all_removes|].
  split; [intros k Hk; by apply strip_all_keeps|].
  split; [exact Hsub|].
  unfold result_object, removeSecurityHeaders.
  rewrite (removeHeaders_then h _ headers o _ Hh).
  rewrite (cleanResponseHeaders_run _ _ _ (lookup_insert_eq _ _ _)).
  rewrite lookup_insert_eq. f_equal. by apply strip_all_subsumes.
Qed.

Lemma cleanResponseHeaders_spec_witness :
  exists cleaned o1,
    cleanResponseHeaders 1%positive response_heap
      = Ok (cleaned, <[cleaned := o1]> response_heap) /\
    cleaned <> 1%positive /\
    (forall n, n ∈ headersToRemove ->
       JsMap.get n o1 = None /\ JsMap.get (toUpperCase n) o1 = None) /\
    (forall k, (forall n, n ∈ headersToRemove -> k <> n /\ k <> toUpperCase n) ->
       JsMap.get k o1 = JsMap.get k response_headers) /\
    (forall n, n ∈ SECURITY_HEADERS -> n ∈ headersToRemove) /\
    result_object (c ← removeSecurityHeaders 1%positive; cleanResponseHeaders c)
      response_heap = Some o1.
Proof.
  apply (cleanResponseHeaders_spec response_heap 1%positive response_headers).
  reflexivity.
Defined.

(** ** injectScriptsIntoHTML *)

Lemma substring_all s : String.substring 0 (String.length s) s = s.
Proof. induction s as [|c s IH]; simpl; [done|]. by rewrite IH. Qed.

Lemma prefix_split needle s :
  String.prefix needle s = true ->
  s = needle +:+ String.substring (String.length needle)
                   (String.length s - String.length needle) s.
Proof.
  revert s. induction needle as [|c needle IH]; intros s.
  - intros _. simpl. rewrite Nat.sub_0_r. by rewrite substring_all.
  - destruct s as [|c' s]; simpl; [done|].
    destruct (ascii_dec c c') as [->|Hne]; [|done].
    intros H. rewrite (IH s H) at 1. reflexivity.
Qed.

Lemma prefix_append needle rest : String.prefix needle (needle +:+ rest) = true.
Proof.
  induction needle as [|c needle IH]; simpl; [by destruct rest|].
  by destruct (ascii_dec c c).
Qed.

Lemma append_assoc (a b c : string) : (a +:+ b) +:+ c = a +:+ b +:+ c.
Proof.
  induction a as [|x a IH]; [reflexivity|].
  rewrite !append_cons. by rewrite IH.
Qed.

Lemma append_inj_length (a b x y : string) :
  String.length a = String.length b -> a +:+ x = b +:+ y -> a = b /\ x = y.
Proof.
  revert b. induction a as [|c a IH]; intros [|c' b] Hlen; try done.
  rewrite !append_cons. injection Hlen as Hlen. intros [= -> Heq].
  destruct (IH b Hlen Heq) as [-> ->]. done.
Qed.

(** [find_first] returns the first occurrence, and fails only when there
    is none. *)
Lemma find_first_spec needle s :
  match find_first needle s with
  | Some (before, after) =>
      s = before +:+ needle +:+ after /\
      forall p q, s = p +:+ needle +:+ q ->
        (String.length before <= String.length p)%nat
  | None => forall p q, s <> p +:+ needle +:+ q
  end.
Proof.
  assert (Hhead : forall t q, String.prefix needle t = false ->
            t <> EmptyString +:+ needle +:+ q).
  { intros t q Hp Ht. rewrite append_nil_l in Ht.
    pose proof (prefix_append needle q) as Hq. rewrite <- Ht in Hq. congruence. }
  induction s as [|c s IH].
  - cbn [find_first]. destruct (String.prefix needle EmptyString) eqn:Hp.
    + split; [by apply prefix_split | intros; cbn [String.length]; lia].
    + intros [|c' p] q Heq; [by apply (Hhead _ q Hp) | done].
  - cbn [find_first]. destruct (String.prefix needle (String c s)) eqn:Hp.
    + split; [by apply prefix_split | intros; cbn [String.length]; lia].
    + destruct (find_first needle s) as [[before after]|].
      * destruct IH as [Heq Hmin]. split; [rewrite append_cons; by rewrite <- Heq|].
        intros [|c' p] q Hs; [by destruct (Hhead _ q Hp)|].
        rewrite append_cons in Hs. injection Hs as -> Hs. cbn [String.length].
        specialize (Hmin p q Hs). lia.
      * intros [|c' p] q Hs; [by destruct (Hhead _ q Hp)|].
        rewrite append_cons in Hs. injection Hs as -> Hs. by apply (IH p q).
Qed.

Lemma find_first_at needle s pre post :
  s = pre +:+ needle +:+ post ->
  (forall p q, s = p +:+ needle +:+ q ->
     (String.length pre <= String.length p)%nat) ->
  find_first needle s = Some (pre, post).
Proof.
  intros Hs Hmin. pose proof (find_first_spec needle s) as H.
  destruct (find_first needle s) as [[before after]|]; [|by destruct (H pre post)].
  destruct H as [Heq Hfirst].
  assert (Hlen : String.length before = String.length pre).
  { specialize (Hfirst pre post Hs). specialize (Hmin before after Heq). lia. }
  rewrite Hs in Heq. symmetry in Heq.
  destruct (append_inj_length before pre _ _ Hlen Heq) as [-> Hrest].
  destruct (append_inj_length needle needle _ _ eq_refl Hrest) as [_ ->]. done.
Qed.

Lemma find_first_none needle s :
  (forall p q, s <> p +:+ needle +:+ q) -> find_first needle s = None.
Proof.
  intros Hno. pose proof (find_first_spec needle s) as H.
  destruct (find_first needle s) as [[before after]|]; [|done].
  destruct H as [Heq _]. by destruct (Hno before after).
Qed.

Lemma get_substitution_plain matched before after replacement :
  all_chars (fun c => negb (Ascii.eqb c "$")) replacement = true ->
  get_substitution matched before after replacement = replacement.
Proof.
  induction replacement as [|c r IH]; simpl; [done|].
  destruct (Ascii.eqb c "$"); simpl; [done|]. intros H. by rewrite IH.
Qed.

Lemma join_dollar_free sep scripts :
  all_chars (fun c => negb (Ascii.eqb c "$")) sep = true ->
  dollar_free scripts = true ->
  all_chars (fun c => negb (Ascii.eqb c "$")) (join sep scripts) = true.
Proof.
  intros Hsep. unfold dollar_free.
  induction scripts as [|x rest IH]; [done|].
  cbn [forallb]. intros [Hx Hrest]%andb_prop. specialize (IH Hrest).
  destruct rest as [|y rest]; [done|].
  change (join sep (x :: y :: rest)) with (x +:+ sep +:+ join sep (y :: rest)).
  by rewrite !all_chars_app, Hx, Hsep, IH.
Qed.

Lemma injectionScript_dollar_free scripts :
  dollar_free scripts = true ->
  all_chars (fun c => negb (Ascii.eqb c "$")) (injectionScript scripts) = true.
Proof.
  intros H. unfold injectionScript. rewrite !all_chars_app.
  by rewrite (join_dollar_free newline scripts eq_refl H).
Qed.

(** X22: [injectScriptsIntoHTML] puts the script block (the scripts joined
    by newlines inside one [<script>] element) immediately before the
    first [</head>]; if there is no [</head>], immediately after the first
    [<body>]; if there is neither, at the end. Everything else of the
    document is kept as it is. This holds for scripts without a dollar
    sign; the append case holds for all scripts. *)
Theorem injectScriptsIntoHTML_spec html scripts :
  let block := injectionScript scripts in
  (dollar_free scripts = true ->
   forall pre post,
     html = pre +:+ "</head>" +:+ post ->
     (forall p q, html = p +:+ "</head>" +:+ q ->
        (String.length pre <= String.length p)%nat) ->
     injectScriptsIntoHTML html scripts = pre +:+ block +:+ "</head>" +:+ post) /\
  (dollar_free scripts = true ->
   (forall p q, html <> p +:+ "</head>" +:+ q) ->
   forall pre post,
     html = pre +:+ "<body>" +:+ post ->
     (forall p q, html = p +:+ "<body>" +:+ q ->
        (String.length pre <= String.length p)%nat) ->
     injectScriptsIntoHTML html scripts = pre +:+ "<body>" +:+ block +:+ post) /\
  ((forall p q, html <> p +:+ "</head>" +:+ q) ->
   (forall p q, html <> p +:+ "<body>" +:+ q) ->
   injectScriptsIntoHTML html scripts = html +:+ block).
Proof.
  cbv zeta. unfold injectScriptsIntoHTML, includes, replace_first.
  split; [|split].
  - intros Hd pre post Hs Hmin.
    rewrite (find_first_at "</head>" html pre post Hs Hmin).
    rewrite get_substitution_plain.
    + by rewrite append_assoc.
    + rewrite all_chars_app. by rewrite (injectionScript_dollar_free scripts Hd).
  - intros Hd Hno pre post Hs Hmin.
    rewrite (find_first_none "</head>" html Hno).
    rewrite (find_first_at "<body>" html pre post Hs Hmin).
    rewrite get_substitution_plain.
    + by rewrite append_assoc.
    + rewrite all_chars_app. by rewrite (injectionScript_dollar_free scripts Hd).
  - intros Hno1 Hno2.
    by rewrite (find_first_none "</head>" html Hno1),
      (find_first_none "<body>" html Hno2).
Qed.

Lemma injectScriptsIntoHTML_spec_witness :
  injectScriptsIntoHTML ex_html ["a();"; "b();"] =
    "<html><head><title>t</title>" +:+ injectionScript ["a();"; "b();"]
    +:+ "</head>" +:+ "<body>x</body></html>".
Proof.
  destruct (injectScriptsIntoHTML_spec ex_html ["a();"; "b();"]) as [Hhead _].
  apply Hhead.
  - reflexivity.
  - reflexivity.
  - pose proof (find_first_spec "</head>" ex_html) as Hfirst.
    assert (E : find_first "</head>" ex_html
                = Some ("<html><head><title>t</title>", "<body>x</body></html>"))
      by (vm_compute; reflexivity).
    rewrite E in Hfirst. exact (proj2 Hfirst).
Defined.
